(** * Maze grid, generators and solvers (a8.py): a shallow embedding

    The Python program keeps a rectangular table of [Cell] objects.  Every
    cell carries a dictionary of geometric neighbours, a set of linked cells
    (open passages), a scratch distance and a scratch predecessor.  Three
    generators carve links, two solvers read them.

    Modelling decisions.
    - A reference to a [Cell] object is the pair (row, col) it was built
      with: [Grid.prepare_grid] builds exactly one object per pair, so
      object identity (Python's default [==] and [hash]) coincides with it.
    - The mutable attributes of the cell objects live in a heap, a total
      function from references to [Cell] records.
    - A Python [set] of cells that is iterated ([Cell.links]) is a list
      without duplicates whose order is the iteration order; results about
      solvers hold for every such order.  A set that is only tested for
      membership ([visited]) is a [gset].
    - Python exceptions and loop bounds are explicit in [outcome].
    - [random] is an explicit source of draws; results hold for all of them. *)

From Stdlib Require Import ZArith Lia.
From stdpp Require Import base tactics option list relations numbers gmap sets strings.

Local Open Scope Z_scope.
Set Warnings "-clear-no-such-hyp".

(** ** Outcomes of Python calls *)

Inductive exn := IndexError | AttributeError | KeyError.

Inductive outcome (A : Type) : Type :=
  | Returns (a : A)
  | Raises (e : exn)
  | OutOfFuel.
Arguments Returns {A} a.
Arguments Raises {A} e.
Arguments OutOfFuel {A}.

Global Instance outcome_ret : MRet outcome := λ A a, Returns a.
Global Instance outcome_bind : MBind outcome := λ A B f m,
  match m with
  | Returns a => f a
  | Raises e => Raises e
  | OutOfFuel => OutOfFuel
  end.

(** [for x in l: body] over a state [S]. *)
Fixpoint for_each {A S : Type} (l : list A) (body : A → S → outcome S) (s : S)
  : outcome S :=
  match l with
  | [] => Returns s
  | x :: l' => s' ← body x s; for_each l' body s'
  end.

(** ** Cells *)

Definition cell : Type := Z * Z.
Definition row (c : cell) : Z := c.1.
Definition col (c : cell) : Z := c.2.

Inductive direction := North | South | East | West.

Global Instance direction_eq_dec : EqDecision direction.
Proof. solve_decision. Defined.

(** The attributes of one [Cell] object ([row] and [col] are its reference;
    [content] is never read by the code modelled here).  [previous] is
    [None] while the attribute has not been written. *)
Record Cell := mkCell {
  neighbor_cells : direction → option cell;
  links : list cell;
  distance : Z;
  previous : option cell
}.

(** [Cell.__init__] *)
Definition Cell_init : Cell :=
  {| neighbor_cells := λ _, None; links := []; distance := 0; previous := None |}.

(** ** Grid *)

Record Grid := mkGrid {
  num_rows : Z;
  num_cols : Z;
  rows : list (list cell);
  heap : cell → Cell
}.

Definition upd_cell (g : Grid) (c : cell) (f : Cell → Cell) : Grid :=
  {| num_rows := num_rows g; num_cols := num_cols g; rows := rows g;
     heap := λ c', if decide (c' = c) then f (heap g c') else heap g c' |}.

(** [set.add] on a set kept in iteration order. *)
Definition set_add (x : cell) (s : list cell) : list cell :=
  if decide (x ∈ s) then s else s ++ [x].

Definition add_link (x : cell) (c : Cell) : Cell :=
  {| neighbor_cells := neighbor_cells c; links := set_add x (links c);
     distance := distance c; previous := previous c |}.

(** [Cell.link]: the recursive call [cell.link(self, False)] adds the
    reverse link and stops. *)
Definition link (self other : cell) (bidirectional : bool) (g : Grid) : Grid :=
  let g' := upd_cell g self (add_link other) in
  if bidirectional then upd_cell g' other (add_link self) else g'.

(** [Cell.is_linked] *)
Definition is_linked (g : Grid) (self other : cell) : bool :=
  bool_decide (other ∈ links (heap g self)).

(** [Cell.get_neighbor]; a direction outside the four cannot be written. *)
Definition get_neighbor (g : Grid) (self : cell) (d : direction) : option cell :=
  neighbor_cells (heap g self) d.

(** [Cell.set_neighbor] *)
Definition set_neighbor (self : cell) (d : direction) (n : option cell) (g : Grid)
  : Grid :=
  upd_cell g self (λ c,
    {| neighbor_cells := λ d', if decide (d' = d) then n else neighbor_cells c d';
       links := links c; distance := distance c; previous := previous c |}).

(** Python's [range(n)]. *)
Definition range (n : Z) : list Z := seqZ 0 n.

(** [Grid.prepare_grid]: one fresh [Cell(row, col)] per pair. *)
Definition prepare_grid (g : Grid) : Grid :=
  {| num_rows := num_rows g; num_cols := num_cols g;
     rows := (λ r, (λ c, (r, c)) <$> range (num_cols g)) <$> range (num_rows g);
     heap := λ _, Cell_init |}.

(** [Grid.get_cell] *)
Definition get_cell (g : Grid) (r c : Z) : outcome (option cell) :=
  if decide (0 ≤ r < num_rows g ∧ 0 ≤ c < num_cols g) then
    match rows g !! Z.to_nat r with
    | Some line =>
        match line !! Z.to_nat c with
        | Some x => Returns (Some x)
        | None => Raises IndexError
        end
    | None => Raises IndexError
    end
  else Returns None.

(** [Grid.all_cells] *)
Definition all_cells (g : Grid) : list cell := mjoin (rows g).

(** [Grid.configure_cells] *)
Definition configure_cell (x : cell) (g : Grid) : outcome Grid :=
  n ← get_cell g (row x - 1) (col x);
  let g := set_neighbor x North n g in
  s ← get_cell g (row x + 1) (col x);
  let g := set_neighbor x South s g in
  e ← get_cell g (row x) (col x + 1);
  let g := set_neighbor x East e g in
  w ← get_cell g (row x) (col x - 1);
  Returns (set_neighbor x West w g).

Definition configure_cells (g : Grid) : outcome Grid :=
  for_each (all_cells g) configure_cell g.

(** [Grid.__init__] *)
Definition Grid_init (num_rows num_cols : Z) : outcome Grid :=
  let g := {| num_rows := num_rows; num_cols := num_cols; rows := [];
              heap := λ _, Cell_init |} in
  configure_cells (prepare_grid g).

(** ** Unweighted traversal: [Grid.solve_maze]

    The Python stack is a list used at its end; here its top is the head.
    [Returns None] is Python's [None] (no path). *)

Definition push_unvisited (path : list cell) (visited : gset cell)
    (stack : list (cell * list cell)) (neighbor : cell)
  : list (cell * list cell) :=
  if decide (neighbor ∈ visited) then stack
  else (neighbor, path ++ [neighbor]) :: stack.

Fixpoint solve_maze_loop (fuel : nat) (g : Grid) (end_cell : cell)
    (stack : list (cell * list cell)) (visited : gset cell)
  : outcome (option (list cell)) :=
  match fuel with
  | O => OutOfFuel
  | S fuel =>
      match stack with
      | [] => Returns None
      | (current_cell, path) :: stack =>
          if decide (current_cell = end_cell) then Returns (Some path)
          else
            let visited := visited ∪ {[current_cell]} in
            let stack :=
              foldl (push_unvisited path visited) stack
                    (links (heap g current_cell)) in
            solve_maze_loop fuel g end_cell stack visited
      end
  end.

Definition solve_maze (fuel : nat) (g : Grid) (start_cell end_cell : cell)
  : outcome (option (list cell)) :=
  solve_maze_loop fuel g end_cell [(start_cell, [start_cell])] ∅.

(** ** The random source

    [random] is a sequence of draws read one at a time; [random.choice]
    reduces a draw to an index, [random.randint(0, 1)] to a bit. *)

Record RandomSource := mkRandom { draws : nat → nat; pos : nat }.

Definition next_draw (r : RandomSource) : nat * RandomSource :=
  (draws r (pos r), {| draws := draws r; pos := S (pos r) |}).

Definition random_choice {A : Type} (l : list A) (r : RandomSource)
  : outcome (A * RandomSource) :=
  let '(d, r') := next_draw r in
  match l !! (d mod length l)%nat with
  | Some x => Returns (x, r')
  | None => Raises IndexError
  end.

Definition random_randint01 (r : RandomSource) : Z * RandomSource :=
  let '(d, r') := next_draw r in (Z.of_nat (d mod 2), r').

(** [cell.link(x)] where [x] may be [None]. *)
Definition link_opt (self : cell) (other : option cell) (g : Grid) : outcome Grid :=
  match other with
  | Some o => Returns (link self o true g)
  | None => Raises AttributeError
  end.

(** ** [BinaryTreeMazeMaker.make_maze] *)

Definition bt_cell (x : cell) (st : Grid * RandomSource)
  : outcome (Grid * RandomSource) :=
  let '(g, r) := st in
  let south_neighbor := get_neighbor g x South in
  let east_neighbor := get_neighbor g x East in
  let neighbors := option_list south_neighbor ++ option_list east_neighbor in
  match neighbors with
  | [] => Returns (g, r)
  | _ =>
      '(chosen, r) ← random_choice neighbors r;
      Returns (link x chosen true g, r)
  end.

Definition BinaryTree_make_maze (g : Grid) (r : RandomSource)
  : outcome (Grid * RandomSource) :=
  for_each (all_cells g) bt_cell (g, r).

(** ** [SidewinderMazeMaker.make_maze] *)

Definition sw_cell (x : cell) (st : Grid * RandomSource * list cell)
  : outcome (Grid * RandomSource * list cell) :=
  let '(g, r, run) := st in
  let run := run ++ [x] in
  let at_eastern_boundary := bool_decide (get_neighbor g x East = None) in
  let at_northern_boundary := bool_decide (get_neighbor g x North = None) in
  (* [or] and [and] short-circuit: the coin is flipped only when needed *)
  let '(should_close_out, r) :=
    if at_eastern_boundary then (true, r)
    else if at_northern_boundary then (false, r)
    else let '(coin, r) := random_randint01 r in (bool_decide (coin = 0), r) in
  if should_close_out then
    '(member, r) ← random_choice run r;
    let g := match get_neighbor g member North with
             | Some n => link member n true g
             | None => g
             end in
    Returns (g, r, [])
  else
    g ← link_opt x (get_neighbor g x East) g;
    Returns (g, r, run).

Definition sw_row (line : list cell) (st : Grid * RandomSource)
  : outcome (Grid * RandomSource) :=
  '(g, r, _) ← for_each line sw_cell (st.1, st.2, []);
  Returns (g, r).

Definition Sidewinder_make_maze (g : Grid) (r : RandomSource)
  : outcome (Grid * RandomSource) :=
  for_each (rows g) sw_row (g, r).

(** ** [EllerMazeMaker.make_maze] *)

(** The loop state: grid, random source, the [sets] dictionary and
    [set_counter]. *)
Record EllerState := mkEller {
  e_grid : Grid;
  e_rand : RandomSource;
  e_sets : gmap cell Z;
  e_counter : Z
}.

(** [sets[x]] *)
Definition sets_get (sets : gmap cell Z) (x : cell) : outcome Z :=
  match sets !! x with
  | Some k => Returns k
  | None => Raises KeyError
  end.

(** [row[i]] for [i >= 0] *)
Definition row_get (line : list cell) (i : Z) : outcome cell :=
  match line !! Z.to_nat i with
  | Some x => Returns x
  | None => Raises IndexError
  end.

(** [EllerMazeMaker.merge_sets]: every key is visited once and a rewritten
    value is never the source id again, so the loop is a map over the
    values. *)
Definition merge_sets (sets : gmap cell Z) (x other_cell : cell)
  : outcome (gmap cell Z) :=
  target_set_id ← sets_get sets other_cell;
  source_set_id ← sets_get sets x;
  Returns ((λ k, if decide (k = source_set_id) then target_set_id else k) <$> sets).

(** [groups[k].append(x)], creating the group at the end when [k] is new:
    the dictionary in insertion order. *)
Fixpoint groups_append (k : Z) (x : cell) (groups : list (Z * list cell))
  : list (Z * list cell) :=
  match groups with
  | [] => [(k, [x])]
  | (k', l) :: rest =>
      if decide (k' = k) then (k', l ++ [x]) :: rest
      else (k', l) :: groups_append k x rest
  end.

(** [EllerMazeMaker.group_sets_by_id] *)
Definition group_sets_by_id (sets : gmap cell Z) (line : list cell)
  : outcome (list (Z * list cell)) :=
  for_each line (λ x groups, k ← sets_get sets x; Returns (groups_append k x groups)) [].

Definition eller_assign (x : cell) (s : EllerState) : outcome EllerState :=
  match e_sets s !! x with
  | Some _ => Returns s
  | None =>
      let set_counter := e_counter s + 1 in
      Returns (mkEller (e_grid s) (e_rand s) (<[x := set_counter]> (e_sets s)) set_counter)
  end.

Definition eller_horizontal (line : list cell) (i : Z) (s : EllerState)
  : outcome EllerState :=
  x ← row_get line i;
  next_cell ← row_get line (i + 1);
  a ← sets_get (e_sets s) x;
  b ← sets_get (e_sets s) next_cell;
  if decide (a ≠ b) then
    '(coin, r) ← random_choice [true; false] (e_rand s);
    if coin : bool then
      let g := link x next_cell true (e_grid s) in
      sets ← merge_sets (e_sets s) x next_cell;
      Returns (mkEller g r sets (e_counter s))
    else Returns (mkEller (e_grid s) r (e_sets s) (e_counter s))
  else Returns s.

Definition eller_south (y : Z) (group : Z * list cell) (s : EllerState)
  : outcome EllerState :=
  if decide (y < num_rows (e_grid s) - 1) then
    '(cell_to_link, r) ← random_choice group.2 (e_rand s);
    south_cell ← get_cell (e_grid s) (row cell_to_link + 1) (col cell_to_link);
    g ← link_opt cell_to_link south_cell (e_grid s);
    k ← sets_get (e_sets s) cell_to_link;
    (* a [None] south cell has raised above *)
    let sets := match south_cell with
                | Some sc => <[sc := k]> (e_sets s)
                | None => e_sets s
                end in
    Returns (mkEller g r sets (e_counter s))
  else Returns s.

Definition eller_last (line : list cell) (i : Z) (s : EllerState)
  : outcome EllerState :=
  x ← row_get line i;
  next_cell ← row_get line (i + 1);
  a ← sets_get (e_sets s) x;
  b ← sets_get (e_sets s) next_cell;
  if decide (a ≠ b) then
    Returns (mkEller (link x next_cell true (e_grid s)) (e_rand s) (e_sets s) (e_counter s))
  else Returns s.

Definition eller_row (yl : Z * list cell) (s : EllerState) : outcome EllerState :=
  let '(y, line) := yl in
  s ← for_each line eller_assign s;
  s ← for_each (range (Z.of_nat (length line) - 1)) (eller_horizontal line) s;
  set_groups ← group_sets_by_id (e_sets s) line;
  s ← for_each set_groups (eller_south y) s;
  if decide (y = num_rows (e_grid s) - 1) then
    for_each (range (Z.of_nat (length line) - 1)) (eller_last line) s
  else Returns s.

(** [enumerate(l)] *)
Definition enumerate {A : Type} (l : list A) : list (Z * A) :=
  imap (λ i x, (Z.of_nat i, x)) l.

Definition Eller_make_maze (g : Grid) (r : RandomSource)
  : outcome (Grid * RandomSource) :=
  s ← for_each (enumerate (rows g)) eller_row (mkEller g r ∅ 0);
  Returns (e_grid s, e_rand s).

(** The three generators behind one name. *)
Inductive generator := BinaryTree | Sidewinder | Eller.

Definition make_maze (m : generator) (g : Grid) (r : RandomSource)
  : outcome (Grid * RandomSource) :=
  match m with
  | BinaryTree => BinaryTree_make_maze g r
  | Sidewinder => Sidewinder_make_maze g r
  | Eller => Eller_make_maze g r
  end.

(** ** Weighted shortest path: [DjikstraSolver]

    [weight_calls] is not in the Python class: it records, in order, every
    call of [weight] with its result, so that what the solver asks of
    [weight] can be stated. *)

Record DjikstraSolver := mkSolver {
  grid : Grid;
  queue : list (Z * cell);
  weight_calls : list (cell * cell * Z)
}.

(** [DjikstraSolver.__init__] *)
Definition DjikstraSolver_init (g : Grid) : DjikstraSolver :=
  {| grid := g; queue := []; weight_calls := [] |}.

Definition set_distance (c : cell) (d : Z) (g : Grid) : Grid :=
  upd_cell g c (λ x, {| neighbor_cells := neighbor_cells x; links := links x;
                        distance := d; previous := previous x |}).

Definition set_previous (c : cell) (p : cell) (g : Grid) : Grid :=
  upd_cell g c (λ x, {| neighbor_cells := neighbor_cells x; links := links x;
                        distance := distance x; previous := Some p |}).

(** [DjikstraSolver.initialize] *)
Definition initialize (s : DjikstraSolver) : outcome DjikstraSolver :=
  let g := foldl (λ g c, set_distance c 10000 g) (grid s) (all_cells (grid s)) in
  start ← get_cell g 0 0;
  match start with
  | Some c => Returns (mkSolver (set_distance c 0 g) (queue s) (weight_calls s))
  | None => Raises AttributeError
  end.

(** [DjikstraSolver.weight] *)
Definition weight (s : DjikstraSolver) (cell1 cell2 : cell) : Z * DjikstraSolver :=
  let w := if decide (cell2 ∈ links (heap (grid s) cell1)) then 1 else 10000 in
  (w, mkSolver (grid s) (queue s) (weight_calls s ++ [(cell1, cell2, w)])).

(** [list.sort(key=lambda x: x[0])]: a stable sort on the first component. *)
Fixpoint insert_by_key (e : Z * cell) (l : list (Z * cell)) : list (Z * cell) :=
  match l with
  | [] => [e]
  | e' :: l' => if decide (e.1 ≤ e'.1) then e :: l else e' :: insert_by_key e l'
  end.

Definition sort_by_key (l : list (Z * cell)) : list (Z * cell) :=
  foldr insert_by_key [] l.

(** [DjikstraSolver.add_to_queue] *)
Definition add_to_queue (c : cell) (d : Z) (s : DjikstraSolver) : DjikstraSolver :=
  mkSolver (grid s) (sort_by_key (queue s ++ [(d, c)])) (weight_calls s).

(** [DjikstraSolver.relax] *)
Definition relax_neighbor (c : cell) (s : DjikstraSolver) (neighbor : cell)
  : DjikstraSolver :=
  let '(w, s) := weight s c neighbor in
  let new_distance := distance (heap (grid s) c) + w in
  if decide (new_distance < distance (heap (grid s) neighbor)) then
    let g := set_previous neighbor c (set_distance neighbor new_distance (grid s)) in
    add_to_queue neighbor new_distance (mkSolver g (queue s) (weight_calls s))
  else s.

Definition relax (c : cell) (s : DjikstraSolver) : DjikstraSolver :=
  foldl (relax_neighbor c) s (links (heap (grid s) c)).

(** [min(l, key=...)] on a non-empty list [x :: l]: the first minimum. *)
Fixpoint min_by (key : cell → Z) (x : cell) (l : list cell) : cell :=
  match l with
  | [] => x
  | y :: l' => if decide (key y < key x) then min_by key y l' else min_by key x l'
  end.

(** The loop of [DjikstraSolver.recover_path]; [path] grows at its end. *)
Fixpoint recover_loop (fuel : nat) (g : Grid) (current : cell) (path : list cell)
  : outcome (list cell) :=
  match fuel with
  | O => OutOfFuel
  | S fuel =>
      let path := path ++ [current] in
      if decide (row current = 0 ∧ col current = 0) then Returns path
      else
        let neighbors :=
          filter (λ n, distance (heap g n) < distance (heap g current))
                 (links (heap g current)) in
        match neighbors with
        | [] => Returns path
        | n :: rest => recover_loop fuel g (min_by (λ n, distance (heap g n)) n rest) path
        end
  end.

(** [DjikstraSolver.recover_path] *)
Definition recover_path (fuel : nat) (s : DjikstraSolver) : outcome (list cell) :=
  let g := grid s in
  current ← get_cell g (num_rows g - 1) (num_cols g - 1);
  path ← match current with
         | Some c => recover_loop fuel g c []
         | None => Returns []
         end;
  Returns (reverse path).

(** The [while self.queue] loop of [DjikstraSolver.solve]. *)
Fixpoint solve_loop (fuel : nat) (s : DjikstraSolver) : outcome DjikstraSolver :=
  match fuel with
  | O => OutOfFuel
  | S fuel =>
      match queue s with
      | [] => Returns s
      | (_, curr_cell) :: rest =>
          solve_loop fuel (relax curr_cell (mkSolver (grid s) rest (weight_calls s)))
      end
  end.

(** [DjikstraSolver.solve]; the final solver state is returned with the
    path so that distances and predecessors can be inspected. *)
Definition solve (fuel : nat) (s : DjikstraSolver)
  : outcome (list cell * DjikstraSolver) :=
  s ← initialize s;
  start ← get_cell (grid s) 0 0;
  s ← match start with
      | Some c => Returns (add_to_queue c 0 s)
      | None => Raises AttributeError
      end;
  s ← solve_loop fuel s;
  target ← get_cell (grid s) (num_rows (grid s) - 1) (num_cols (grid s) - 1);
  match target with
  | None => Raises AttributeError
  | Some t =>
      if decide (distance (heap (grid s) t) = 10000) then Returns ([], s)
      else path ← recover_path fuel s; Returns (path, s)
  end.

(** ** Vocabulary of the specification *)

(** The table built by [prepare_grid], as a property of a grid. *)
Definition shape_ok (g : Grid) : Prop :=
  rows g = (λ r, (λ c, (r, c)) <$> range (num_cols g)) <$> range (num_rows g).

Definition in_grid (g : Grid) (x : cell) : Prop :=
  0 ≤ row x < num_rows g ∧ 0 ≤ col x < num_cols g.

Global Instance in_grid_dec g x : Decision (in_grid g x).
Proof. unfold in_grid. apply _. Defined.

(** The cell one step away in a direction. *)
Definition step (x : cell) (d : direction) : cell :=
  match d with
  | North => (row x - 1, col x)
  | South => (row x + 1, col x)
  | East => (row x, col x + 1)
  | West => (row x, col x - 1)
  end.

Arguments step : simpl never.
Arguments random_choice : simpl never.
Arguments random_randint01 : simpl never.

(** The neighbour slots as [configure_cells] leaves them. *)
Definition wired (g : Grid) : Prop :=
  ∀ x d, in_grid g x →
    get_neighbor g x d = if decide (in_grid g (step x d)) then Some (step x d) else None.

(** What [Grid.__init__] establishes. *)
Definition fresh_grid (R C : Z) (g : Grid) : Prop :=
  num_rows g = R ∧ num_cols g = C ∧ shape_ok g ∧ wired g ∧
  ∀ x, links (heap g x) = [] ∧ distance (heap g x) = 0 ∧ previous (heap g x) = None.

(** [b] is in [a]'s link set. *)
Definition linked (g : Grid) (a b : cell) : Prop := b ∈ links (heap g a).

(** Coordinates differ by exactly 1 in exactly one coordinate. *)
Definition geometric_neighbors (a b : cell) : Prop :=
  (row a = row b ∧ Z.abs (col a - col b) = 1) ∨
  (col a = col b ∧ Z.abs (row a - row b) = 1).

(** A sequence of cells in which consecutive cells are linked. *)
Fixpoint is_walk (g : Grid) (p : list cell) : Prop :=
  match p with
  | [] => True
  | x :: q => match q with [] => True | y :: _ => linked g x y ∧ is_walk g q end
  end.

Definition walk_from_to (g : Grid) (a b : cell) (p : list cell) : Prop :=
  head p = Some a ∧ last p = Some b ∧ is_walk g p.

Definition reachable (g : Grid) (a b : cell) : Prop :=
  ∃ p, walk_from_to g a b p.

(** A cycle: at least three distinct cells, consecutive ones linked, and
    the last linked back to the first. *)
Definition is_cycle (g : Grid) (p : list cell) : Prop :=
  NoDup p ∧ (3 ≤ length p)%nat ∧ is_walk g p ∧
  ∃ a b, head p = Some a ∧ last p = Some b ∧ linked g b a.

Definition acyclic (g : Grid) : Prop := ∀ p, ¬ is_cycle g p.

Definition links_symmetric (g : Grid) : Prop := ∀ a b, linked g a b → linked g b a.

(** Every link joins two cells of the grid, no cell is linked to itself,
    and a link set holds a cell once. *)
Definition links_wf (g : Grid) : Prop :=
  ∀ a, NoDup (links (heap g a)) ∧
       ∀ b, linked g a b → in_grid g a ∧ in_grid g b ∧ a ≠ b.

(** Links counted once per end: every undirected link has two ends. *)
Definition link_ends (g : Grid) : nat :=
  sum_list_with (λ c, length (links (heap g c))) (all_cells g).

Definition connected (g : Grid) : Prop :=
  ∀ a b, in_grid g a → in_grid g b → reachable g a b.

(** The link relation is a spanning tree over the cells of the grid. *)
Definition spanning_tree (g : Grid) : Prop :=
  links_wf g ∧ links_symmetric g ∧
  Z.of_nat (link_ends g) = 2 * (num_rows g * num_cols g - 1) ∧
  acyclic g ∧ connected g.

(** ** Measures used in the termination arguments *)

(** Cost of a stack entry of the traversal when [u] cells are unvisited. *)
Fixpoint dfs_weight (u : nat) : nat :=
  match u with
  | O => 1
  | S n => n * dfs_weight n + 1
  end.

(** The cells of the grid, by its dimensions alone. *)
Definition universe (g : Grid) : list cell :=
  mjoin ((λ r, (λ c, (r, c)) <$> range (num_cols g)) <$> range (num_rows g)).

(** Every link set holds a cell once and links stay inside the grid. *)
Definition links_closed (g : Grid) : Prop :=
  ∀ a, NoDup (links (heap g a)) ∧ ∀ b, in_grid g a → linked g a b → in_grid g b.

Definition unvisited (g : Grid) (visited : gset cell) : nat :=
  length (filter (λ c, c ∉ visited) (universe g)).

Definition dfs_entry_weight (g : Grid) (visited : gset cell) (e : cell * list cell)
  : nat :=
  dfs_weight (unvisited g visited + (if decide (e.1 ∈ visited) then 1 else 0)).

Definition dfs_measure (g : Grid) (stack : list (cell * list cell))
    (visited : gset cell) : nat :=
  sum_list_with (dfs_entry_weight g visited) stack.

(** What the traversal maintains about its stack and visited set. *)
Definition dfs_entry_ok (g : Grid) (A : cell) (visited : gset cell)
    (e : cell * list cell) : Prop :=
  in_grid g e.1 ∧
  ∃ q, e.2 = q ++ [e.1] ∧ (∀ x, x ∈ q → x ∈ visited) ∧
       NoDup e.2 ∧ is_walk g e.2 ∧ head e.2 = Some A.

Definition dfs_inv (g : Grid) (A B : cell) (stack : list (cell * list cell))
    (visited : gset cell) : Prop :=
  Forall (dfs_entry_ok g A visited) stack ∧
  (∀ v, v ∈ visited → in_grid g v) ∧
  (B ∉ visited) ∧
  (∀ v w, v ∈ visited → linked g v w → w ∈ visited ∨ w ∈ (stack.*1)) ∧
  (A ∈ visited ∨ A ∈ (stack.*1)).

(** The result of a run that starts from a state satisfying the invariant. *)
Definition dfs_post (g : Grid) (A B : cell) (r : option (list cell)) : Prop :=
  match r with
  | Some p => walk_from_to g A B p ∧ NoDup p
  | None => ¬ reachable g A B
  end.


(** ** Vocabulary for the weighted solver *)

(** Extraction of a grid from an outcome, for closed examples. *)
Definition the_grid (o : outcome Grid) : Grid :=
  match o with
  | Returns g => g
  | _ => {| num_rows := 0; num_cols := 0; rows := []; heap := λ _, Cell_init |}
  end.

Definition maze_of (o : outcome (Grid * RandomSource)) : Grid :=
  match o with
  | Returns (g, _) => g
  | _ => {| num_rows := 0; num_cols := 0; rows := []; heap := λ _, Cell_init |}
  end.

Definition solver_of (o : outcome (list cell * DjikstraSolver)) : DjikstraSolver :=
  match o with
  | Returns (_, s) => s
  | _ => DjikstraSolver_init (the_grid OutOfFuel)
  end.

(** Two grids with the same table and the same links. *)
Definition same_maze (g g' : Grid) : Prop :=
  num_rows g' = num_rows g ∧ num_cols g' = num_cols g ∧ rows g' = rows g ∧
  ∀ c, links (heap g' c) = links (heap g c).

(** Every recorded call of [weight] was on a linked pair and returned 1. *)
Definition calls_ok (s : DjikstraSolver) : Prop :=
  ∀ c1 c2 w, (c1, c2, w) ∈ weight_calls s → linked (grid s) c1 c2 ∧ w = 1.

Definition dist (s : DjikstraSolver) (c : cell) : Z := distance (heap (grid s) c).

(** Number of links a walk takes. *)
Definition edges (p : list cell) : Z := Z.of_nat (length p) - 1.

(** What the loop of [solve] maintains, [g0] being the grid it started on. *)
Definition dijkstra_inv (g0 : Grid) (s : DjikstraSolver) : Prop :=
  same_maze g0 (grid s) ∧
  dist s (0, 0) = 0 ∧
  (∀ c, in_grid g0 c → 0 ≤ dist s c ≤ 10000) ∧
  (∀ c, in_grid g0 c → dist s c < 10000 →
     ∃ p, walk_from_to g0 (0, 0) c p ∧ edges p = dist s c) ∧
  (∀ c, in_grid g0 c → dist s c < 10000 →
     c ∈ (queue s).*2 ∨ ∀ w, linked g0 c w → dist s w ≤ dist s c + 1) ∧
  (∀ c, c ∈ (queue s).*2 → in_grid g0 c) ∧
  calls_ok s.

Definition dijkstra_measure (g0 : Grid) (s : DjikstraSolver) : nat :=
  length (queue s) + sum_list_with (λ c, Z.to_nat (dist s c)) (universe g0).

(** ** Closed examples *)

(** A 1×2 grid whose two cells are linked. *)
Definition example_1x2 : Grid := link (0, 0) (0, 1) true (the_grid (Grid_init 1 2)).

(** The solver after one [solve] on it. *)
Definition example_solved : DjikstraSolver :=
  solver_of (solve 3 (DjikstraSolver_init example_1x2)).

(** What the [for neighbor in cell.links] loop of [relax] maintains while
    it relaxes [c], whose distance is [dc]; [seen] are the neighbours
    already handled and [M] bounds the measure. *)
Definition relax_inv (g0 : Grid) (c : cell) (dc : Z) (M : nat) (seen : list cell)
    (s : DjikstraSolver) : Prop :=
  same_maze g0 (grid s) ∧
  dist s (0, 0) = 0 ∧
  (∀ x, in_grid g0 x → 0 ≤ dist s x ≤ 10000) ∧
  (∀ x, in_grid g0 x → dist s x < 10000 →
     ∃ p, walk_from_to g0 (0, 0) x p ∧ edges p = dist s x) ∧
  (∀ x, in_grid g0 x → x ≠ c → dist s x < 10000 →
     x ∈ (queue s).*2 ∨ ∀ w, linked g0 x w → dist s w ≤ dist s x + 1) ∧
  (∀ x, x ∈ (queue s).*2 → in_grid g0 x) ∧
  calls_ok s ∧
  dist s c = dc ∧
  (∀ w, w ∈ seen → dist s w ≤ dc + 1) ∧
  (dijkstra_measure g0 s ≤ M)%nat.

(** ** Vocabulary for the generators *)

(** The pair [(x, y)] is the link [a]–[b] in one of its two directions. *)
Definition new_link (a b x y : cell) : Prop := (x = a ∧ y = b) ∨ (x = b ∧ y = a).

(** Dimensions, table and neighbour slots of a constructed [R]×[C] grid. *)
Definition frame (R C : Z) (g : Grid) : Prop :=
  num_rows g = R ∧ num_cols g = C ∧ shape_ok g ∧ wired g.

(** Every link joins geometric neighbours. *)
Definition links_geometric (g : Grid) : Prop :=
  ∀ a b, linked g a b → geometric_neighbors a b.

(** A maze in the making: well-formed symmetric links between neighbours,
    without a cycle. *)
Definition forest (g : Grid) : Prop :=
  links_wf g ∧ links_symmetric g ∧ links_geometric g ∧ acyclic g.

(** The south-east corner of an [R]×[C] grid. *)
Definition corner (R C : Z) : cell := (R - 1, C - 1).

(** What [BinaryTreeMazeMaker.make_maze] maintains, [seen] being the cells
    already handled: a handled cell other than the south-east corner is
    linked to exactly one of its south and east neighbours, an unhandled
    cell to neither. *)
Definition bt_inv (R C : Z) (seen : list cell) (st : Grid * RandomSource) : Prop :=
  let g := st.1 in
  frame R C g ∧ links_wf g ∧ links_symmetric g ∧ links_geometric g ∧
  (∀ x, x ∉ seen → ¬ linked g x (step x South) ∧ ¬ linked g x (step x East)) ∧
  (∀ x, ¬ (linked g x (step x South) ∧ linked g x (step x East))) ∧
  (∀ x, x ∈ seen → x ≠ corner R C →
     linked g x (step x South) ∨ linked g x (step x East)) ∧
  link_ends g = (2 * length (filter (λ x, x ≠ corner R C) seen))%nat.

(** What the inner loop of [SidewinderMazeMaker.make_maze] maintains in row
    [r] when [j] cells of the row are handled.  The run holds the cells of
    columns [s] to [j - 1]; together with the next cell they form a set
    closed under links whose cells reach one another; the cells further
    east and the rows below have no link; the rows above and the cells west
    of the run reach the first cell of the grid. *)
Definition sw_inv (R C r j : Z) (st : Grid * RandomSource * list cell) : Prop :=
  let g := st.1.1 in
  ∃ s, 0 ≤ s ≤ j ∧
    frame R C g ∧ forest g ∧
    st.2 = (λ c, (r, c)) <$> seqZ s (j - s) ∧
    (r = 0 → j < C → s = 0) ∧ (j = C → s = C) ∧
    (∀ c y, s ≤ c ≤ j → linked g (r, c) y → ∃ c', y = (r, c') ∧ s ≤ c' ≤ j) ∧
    (∀ c, s ≤ c ≤ j → in_grid g (r, c) → reachable g (r, s) (r, c)) ∧
    (∀ x, in_grid g x → r < row x ∨ (row x = r ∧ j < col x) →
       links (heap g x) = []) ∧
    (∀ x, in_grid g x → row x < r ∨ (row x = r ∧ col x < s) →
       reachable g x (0, 0)) ∧
    Z.of_nat (link_ends g) =
      if decide (r = 0) then 2 * Z.min j (C - 1) else 2 * (r * C - 1 + j).

(** What the outer loop maintains when [k] rows are handled. *)
Definition sw_rows_inv (R C k : Z) (st : Grid * RandomSource) : Prop :=
  let g := st.1 in
  frame R C g ∧ forest g ∧
  (∀ x, in_grid g x → k ≤ row x → links (heap g x) = []) ∧
  (∀ x, in_grid g x → row x < k → reachable g x (0, 0)) ∧
  Z.of_nat (link_ends g) = if decide (k = 0) then 0 else 2 * (k * C - 1).

(** ** Vocabulary for Eller's generator *)

(** The id of the set of [x], if it has one. *)
Definition set_id (sets : gmap cell Z) (x : cell) : option Z := sets !! x.

Arguments set_id : simpl never.

(** [sets[c] = target if sets[c] == source else sets[c]] on one value. *)
Definition rename (source target k : Z) : Z :=
  if decide (k = source) then target else k.

(** The cells of row [y] of a grid with [C] columns, west to east. *)
Definition line_of (y C : Z) : list cell := (λ c, (y, c)) <$> range C.

(** Adjacent pairs with different set ids among the first [i] pairs of row
    [y]. *)
Definition boundaries (sets : gmap cell Z) (y i : Z) : Z :=
  Z.of_nat (length (filter (λ c, set_id sets (y, c) ≠ set_id sets (y, c + 1)) (range i))).

(** What every phase but the closing pass of the last row maintains: the set
    ids label the connected components of the cells that have one, and a
    cell without an id has no link. *)
Definition eller_core (R C : Z) (s : EllerState) : Prop :=
  let g := e_grid s in
  let sets := e_sets s in
  frame R C g ∧ forest g ∧
  (∀ x z, linked g x z → set_id sets x = set_id sets z) ∧
  (∀ x z k, set_id sets x = Some k → set_id sets z = Some k → reachable g x z) ∧
  (∀ x, set_id sets x = None → links (heap g x) = []) ∧
  (∀ x k, set_id sets x = Some k → k ≤ e_counter s ∧ in_grid g x).

(** Every set id in use occurs in row [y]. *)
Definition survives (sets : gmap cell Z) (y : Z) : Prop :=
  ∀ x k, set_id sets x = Some k → ∃ c, set_id sets (y, c) = Some k.

(** In row [y] the cells of one set are consecutive. *)
Definition intervals (sets : gmap cell Z) (y : Z) : Prop :=
  ∀ a b c k, a < b < c →
    set_id sets (y, a) = Some k → set_id sets (y, c) = Some k → set_id sets (y, b) = Some k.

(** The first loop of a row, [j] cells handled. *)
Definition eller_assign_inv (R C y j : Z) (s : EllerState) : Prop :=
  let g := e_grid s in
  let sets := e_sets s in
  eller_core R C s ∧
  (∀ x, in_grid g x → row x < y → is_Some (set_id sets x)) ∧
  (∀ x, is_Some (set_id sets x) → row x ≤ y) ∧
  (∀ c, 0 ≤ c < j → is_Some (set_id sets (y, c))) ∧
  (∀ c c' k, set_id sets (y, c) = Some k → set_id sets (y, c') = Some k → c = c') ∧
  survives sets y ∧
  Z.of_nat (link_ends g) = 2 * (y * C).

(** The second loop of a row, [i] adjacent pairs handled: the cells east of
    column [i] are alone in their sets within the row. *)
Definition eller_horizontal_inv (R C y i : Z) (s : EllerState) : Prop :=
  let g := e_grid s in
  let sets := e_sets s in
  eller_core R C s ∧
  (∀ x, in_grid g x → row x ≤ y → is_Some (set_id sets x)) ∧
  (∀ x, is_Some (set_id sets x) → row x ≤ y) ∧
  (∀ c c' k, i < c' → set_id sets (y, c) = Some k → set_id sets (y, c') = Some k → c = c') ∧
  intervals sets y ∧
  survives sets y ∧
  Z.of_nat (link_ends g) = 2 * (y * C + i - boundaries sets y i).

(** What the loop of [group_sets_by_id] maintains over row [y] when [j]
    cells are handled: one non-empty group per set id met, holding cells of
    that set; with consecutive sets there is one more group than
    boundaries. *)
Definition groups_inv (sets : gmap cell Z) (y j : Z) (gs : list (Z * list cell))
  : Prop :=
  NoDup gs.*1 ∧
  (∀ k m, (k, m) ∈ gs →
     m ≠ [] ∧ ∀ x, x ∈ m → ∃ c, x = (y, c) ∧ 0 ≤ c < j ∧ set_id sets x = Some k) ∧
  (∀ c k, 0 ≤ c < j → set_id sets (y, c) = Some k → k ∈ gs.*1) ∧
  Z.of_nat (length gs) = if decide (j = 0) then 0 else 1 + boundaries sets y (j - 1).

(** The loop over the groups of row [y], [sets0] being the dictionary when
    the groups were formed and [handled] the groups already carved south:
    row [y + 1] holds one cell for each of them, below a cell of the
    group. *)
Definition eller_south_inv (R C y : Z) (sets0 : gmap cell Z)
    (handled : list (Z * list cell)) (s : EllerState) : Prop :=
  let g := e_grid s in
  let sets := e_sets s in
  eller_core R C s ∧
  (∀ x, in_grid g x → row x ≤ y → is_Some (set_id sets x)) ∧
  (∀ x, is_Some (set_id sets x) → row x ≤ y + 1) ∧
  (∀ x, row x ≤ y → set_id sets x = set_id sets0 x) ∧
  survives sets y ∧
  (∀ c k, set_id sets (y + 1, c) = Some k →
     set_id sets (y, c) = Some k ∧ k ∈ handled.*1) ∧
  (∀ c c' k, set_id sets (y + 1, c) = Some k → set_id sets (y + 1, c') = Some k →
     c = c') ∧
  (∀ k, k ∈ handled.*1 → ∃ c, set_id sets (y + 1, c) = Some k) ∧
  Z.of_nat (link_ends g) =
    2 * (y * C + C - 1 - boundaries sets0 y (C - 1)) + 2 * Z.of_nat (length handled).

(** The set of [x] is the set of one of the first [i + 1] cells of row [y]. *)
Definition merged (sets : gmap cell Z) (y i : Z) (x : cell) : Prop :=
  ∃ c, 0 ≤ c ≤ i ∧ set_id sets x = set_id sets (y, c).

(** The closing pass over the last row, [i] adjacent pairs handled.  The
    dictionary is no longer updated: the sets of the first [i + 1] cells now
    form one component. *)
Definition eller_last_inv (R C y i : Z) (s : EllerState) : Prop :=
  let g := e_grid s in
  let sets := e_sets s in
  frame R C g ∧ forest g ∧
  (∀ x z k, set_id sets x = Some k → set_id sets z = Some k → reachable g x z) ∧
  (∀ x, in_grid g x ↔ is_Some (set_id sets x)) ∧
  intervals sets y ∧
  survives sets y ∧
  (∀ x z, linked g x z →
     set_id sets x = set_id sets z ∨ (merged sets y i x ∧ merged sets y i z)) ∧
  (∀ c, 0 ≤ c ≤ i → c < C → reachable g (y, 0) (y, c)) ∧
  Z.of_nat (link_ends g) =
    2 * (y * C + C - 1 - boundaries sets y (C - 1) + boundaries sets y i).

(** The outer loop, [k] rows handled. *)
Definition eller_rows_inv (R C k : Z) (s : EllerState) : Prop :=
  if decide (k = R)
  then frame R C (e_grid s) ∧ forest (e_grid s) ∧ spanning_tree (e_grid s)
  else eller_assign_inv R C k 0 s.

(** ** More of the [Cell] interface *)

(** [set.discard]: the element is dropped from the list that stands for
    the set; membership is what is meant, the order of the rest is that of
    the list. *)
Definition set_discard (x : cell) (s : list cell) : list cell :=
  filter (λ y, y ≠ x) s.

Definition remove_link (x : cell) (c : Cell) : Cell :=
  {| neighbor_cells := neighbor_cells c; links := set_discard x (links c);
     distance := distance c; previous := previous c |}.

(** [Cell.unlink]: the recursive call [cell.unlink(self, False)] removes
    the reverse link and stops. *)
Definition unlink (self other : cell) (bidirectional : bool) (g : Grid) : Grid :=
  let g' := upd_cell g self (remove_link other) in
  if bidirectional then upd_cell g' other (remove_link self) else g'.

(** [Cell.neighbors]: the values of [neighbor_cells] that are not [None].
    A dictionary is iterated in insertion order; [configure_cells], the
    only caller of [set_neighbor], inserts north, south, east, west. *)
Definition neighbors (g : Grid) (self : cell) : list cell :=
  omap (neighbor_cells (heap g self)) [North; South; East; West].

(** [getattr(self, direction.lower(), None)]: a [Cell] object has the
    attributes [row], [col], [neighbor_cells], [links], [content],
    [distance] (and [previous] once [relax] has written it), none of them
    named [north], [south], [east] or [west]; the default is returned. *)
Definition direction_attribute (g : Grid) (self : cell) (d : direction)
  : option cell := None.

(** [Cell.get_closest_cell] *)
Definition get_closest_cell (g : Grid) (self : cell) : option cell :=
  let all_neighbors :=
    foldl (λ acc d,
             match direction_attribute g self d with
             | Some neighbor =>
                 if is_linked g self neighbor then acc ++ [neighbor] else acc
             | None => acc
             end)
          (neighbors g self) [North; South; East; West] in
  match all_neighbors with
  | [] => None
  | n :: rest => Some (min_by (λ n, distance (heap g n)) n rest)
  end.

(** ** Vocabulary for the queue of the weighted solver *)

(** The keys of a queue never decrease from front to back. *)
Fixpoint keys_sorted (q : list (Z * cell)) : Prop :=
  match q with
  | [] => True
  | e :: q' => (∀ e', e' ∈ q' → e.1 ≤ e'.1) ∧ keys_sorted q'
  end.

(** The entries of a queue that carry the key [k], in queue order. *)
Definition with_key (k : Z) (q : list (Z * cell)) : list (Z * cell) :=
  filter (λ e, e.1 = k) q.

(** ** Vocabulary for the set dictionary of Eller's generator *)

(** Two cells have a set id and it is the same. *)
Definition same_set (sets : gmap cell Z) (c d : cell) : Prop :=
  ∃ k, set_id sets c = Some k ∧ set_id sets d = Some k.

(** ** [Grid.print]

    The text built by [print]; a text is the list of its characters.  The
    call of the built-in [print] on it is output only. *)

Definition str (s : string) : list Ascii.ascii := String.list_ascii_of_string s.

Definition newline : list Ascii.ascii := [Ascii.ascii_of_nat 10].

(** [s * n] on texts: empty when [n] is not positive. *)
Definition str_mul (s : list Ascii.ascii) (n : Z) : list Ascii.ascii :=
  mjoin (replicate (Z.to_nat n) s).

(** [cell.is_linked(x)] where [x] may be [None], which is in no link set. *)
Definition is_linked_opt (g : Grid) (self : cell) (other : option cell) : bool :=
  match other with
  | Some o => is_linked g self o
  | None => false
  end.

(** The body of the loop over the cells of a row, on the pair
    [(top, bottom)]. *)
Definition print_cell (g : Grid) (tb : list Ascii.ascii * list Ascii.ascii)
    (x : cell) : list Ascii.ascii * list Ascii.ascii :=
  let body := str "   " in
  let east_boundary :=
    if is_linked_opt g x (get_neighbor g x East) then str " " else str "|" in
  let south_boundary :=
    if is_linked_opt g x (get_neighbor g x South) then str "   " else str "---" in
  (tb.1 ++ (body ++ east_boundary), tb.2 ++ (south_boundary ++ str "+")).

(** The body of the loop over the rows, on [output]. *)
Definition print_row (g : Grid) (output : list Ascii.ascii) (line : list cell)
  : list Ascii.ascii :=
  let '(top, bottom) := foldl (print_cell g) (str "|", str "+") line in
  output ++ (top ++ newline ++ bottom ++ newline).

Definition Grid_print (g : Grid) : list Ascii.ascii :=
  foldl (print_row g) (str_mul (str "+---") (num_cols g) ++ str "+" ++ newline)
        (rows g).


(** * Part I: grid construction and lookup *)

Section ForEach.
Context {A S : Type}.
Implicit Types (l : list A) (body : A → S → outcome S).

(** Loop rule: an invariant indexed by the part of the list already
    processed. *)
Lemma for_each_prefix (P : list A → S → Prop) l body s :
  P [] s →
  (∀ l1 x l2 s, l = l1 ++ x :: l2 → P l1 s →
     ∃ s', body x s = Returns s' ∧ P (l1 ++ [x]) s') →
  ∃ s', for_each l body s = Returns s' ∧ P l s'.
Proof.
  intros H0 Hstep.
  cut (∀ l2 l1 s, l = l1 ++ l2 → P l1 s →
         ∃ s', for_each l2 body s = Returns s' ∧ P l s').
  { intros Hc. by apply (Hc l [] s). }
  induction l2 as [|x l2 IH]; intros l1 s1 -> HP; simpl.
  - rewrite app_nil_r. eauto.
  - destruct (Hstep l1 x l2 s1 eq_refl HP) as (s' & -> & HP'). simpl.
    apply (IH (l1 ++ [x])); [by rewrite <- app_assoc | done].
Qed.

Lemma for_each_inv (P : S → Prop) l body s :
  P s →
  (∀ x s, x ∈ l → P s → ∃ s', body x s = Returns s' ∧ P s') →
  ∃ s', for_each l body s = Returns s' ∧ P s'.
Proof.
  intros H0 Hstep.
  apply (for_each_prefix (λ _, P)); [done|].
  intros l1 x l2 s1 -> HP. apply Hstep; [|done]. set_solver.
Qed.

Lemma for_each_app l1 l2 body s :
  for_each (l1 ++ l2) body s = (s' ← for_each l1 body s; for_each l2 body s').
Proof.
  revert s. induction l1 as [|x l1 IH]; intros s; simpl; [done|].
  destruct (body x s); simpl; auto.
Qed.
End ForEach.

Lemma range_lookup (n : Z) (i : nat) :
  range n !! i = if decide (Z.of_nat i < n) then Some (Z.of_nat i) else None.
Proof.
  unfold range. case_decide.
  - by rewrite lookup_seqZ_lt by lia.
  - apply lookup_seqZ_ge. lia.
Qed.

Lemma elem_of_range (n x : Z) : x ∈ range n ↔ 0 ≤ x < n.
Proof. unfold range. rewrite elem_of_seqZ. lia. Qed.

Lemma NoDup_range n : NoDup (range n).
Proof. apply NoDup_seqZ. Qed.

Lemma length_range n : length (range n) = Z.to_nat n.
Proof. apply length_seqZ. Qed.

(** *** The table *)

Lemma shape_get_cell g r c :
  shape_ok g →
  get_cell g r c = Returns (if decide (in_grid g (r, c)) then Some (r, c) else None).
Proof.
  intros Hs. unfold get_cell.
  destruct (decide (in_grid g (r, c))) as [[Hr Hc]|Hn]; simpl in *.
  - rewrite decide_True by done.
    rewrite Hs, list_lookup_fmap, range_lookup.
    rewrite decide_True by lia. simpl.
    rewrite list_lookup_fmap, range_lookup, decide_True by lia. simpl.
    do 3 f_equal; lia.
  - by rewrite decide_False.
Qed.

Lemma shape_elem_of_all_cells g x :
  shape_ok g → x ∈ all_cells g ↔ in_grid g x.
Proof.
  intros Hs. unfold all_cells, in_grid. rewrite Hs, list_elem_of_join. split.
  - intros (line & Hx & Hline).
    apply list_elem_of_fmap in Hline as (r & -> & Hr%elem_of_range).
    apply list_elem_of_fmap in Hx as (c & -> & Hc%elem_of_range). simpl. lia.
  - intros [Hr Hc]. destruct x as [r c]; simpl in *.
    exists ((λ c, (r, c)) <$> range (num_cols g)). split.
    + apply list_elem_of_fmap. exists c. by rewrite elem_of_range.
    + apply list_elem_of_fmap. exists r. by rewrite elem_of_range.
Qed.

Lemma NoDup_concat_rows (R : list Z) (C : list Z) :
  NoDup R → NoDup C →
  NoDup (mjoin ((λ r, (λ c, (r, c)) <$> C) <$> R)).
Proof.
  intros HR HC. induction HR as [|r R Hr HR IH]; csimpl; [constructor|].
  apply NoDup_app. split_and!.
  - apply NoDup_fmap_2; [|done]. intros ?? [=]. done.
  - intros x Hx Hx'. apply list_elem_of_fmap in Hx as (c & -> & _).
    apply list_elem_of_join in Hx' as (line & Hx' & Hline).
    apply list_elem_of_fmap in Hline as (r' & -> & Hr').
    apply list_elem_of_fmap in Hx' as (c' & [= <- <-] & _). done.
  - done.
Qed.

Lemma shape_NoDup_all_cells g : shape_ok g → NoDup (all_cells g).
Proof.
  intros Hs. unfold all_cells. rewrite Hs.
  apply NoDup_concat_rows; apply NoDup_range.
Qed.

Lemma length_concat_rows (R : list Z) (C : list Z) :
  length (mjoin ((λ r, (λ c, (r, c)) <$> C) <$> R)) = (length R * length C)%nat.
Proof.
  induction R as [|r R IH]; csimpl; [done|].
  by rewrite length_app, length_fmap, IH.
Qed.

Lemma shape_length_all_cells g :
  shape_ok g →
  length (all_cells g) = (Z.to_nat (num_rows g) * Z.to_nat (num_cols g))%nat.
Proof.
  intros Hs. unfold all_cells. rewrite Hs, length_concat_rows.
  by rewrite !length_range.
Qed.

(** *** Construction *)


Lemma set_neighbor_same x d n g d' :
  get_neighbor (set_neighbor x d n g) x d' =
  if decide (d' = d) then n else get_neighbor g x d'.
Proof. unfold get_neighbor, set_neighbor. simpl. by rewrite decide_True. Qed.

Lemma set_neighbor_other x d n g y d' :
  y ≠ x → get_neighbor (set_neighbor x d n g) y d' = get_neighbor g y d'.
Proof. intros. unfold get_neighbor, set_neighbor. simpl. by rewrite decide_False. Qed.

Lemma set_neighbor_fields x d n g y :
  links (heap (set_neighbor x d n g) y) = links (heap g y) ∧
  distance (heap (set_neighbor x d n g) y) = distance (heap g y) ∧
  previous (heap (set_neighbor x d n g) y) = previous (heap g y).
Proof. unfold set_neighbor. simpl. by case_decide. Qed.

Lemma configure_cell_spec x g :
  shape_ok g →
  ∃ g', configure_cell x g = Returns g' ∧
    num_rows g' = num_rows g ∧ num_cols g' = num_cols g ∧ rows g' = rows g ∧
    (∀ d, get_neighbor g' x d =
          if decide (in_grid g (step x d)) then Some (step x d) else None) ∧
    (∀ y d, y ≠ x → get_neighbor g' y d = get_neighbor g y d) ∧
    (∀ y, links (heap g' y) = links (heap g y) ∧
          distance (heap g' y) = distance (heap g y) ∧
          previous (heap g' y) = previous (heap g y)).
Proof.
  intros Hs. unfold configure_cell.
  rewrite (shape_get_cell g) by done. simpl.
  rewrite (shape_get_cell (set_neighbor x North _ g)) by done. simpl.
  rewrite (shape_get_cell (set_neighbor x South _ _)) by done. simpl.
  rewrite (shape_get_cell (set_neighbor x East _ _)) by done. simpl.
  eexists. split; [done|]. split_and!; try done.
  - intros d. rewrite !set_neighbor_same.
    destruct d; simpl; repeat (case_decide; try done).
  - intros y d Hy. by rewrite !set_neighbor_other.
  - intros y.
    repeat match goal with
    | |- context [heap (set_neighbor ?a ?b ?c ?h) y] =>
        destruct (set_neighbor_fields a b c h y) as (-> & -> & ->)
    end. done.
Qed.

Lemma Grid_init_fresh R C : ∃ g, Grid_init R C = Returns g ∧ fresh_grid R C g.
Proof.
  unfold Grid_init, configure_cells.
  set (g0 := prepare_grid _).
  assert (Hs0 : shape_ok g0) by done.
  destruct (for_each_prefix (λ l1 g,
      num_rows g = R ∧ num_cols g = C ∧ rows g = rows g0 ∧
      (∀ x d, x ∈ l1 → get_neighbor g x d =
          if decide (in_grid g (step x d)) then Some (step x d) else None) ∧
      (∀ x, links (heap g x) = [] ∧ distance (heap g x) = 0 ∧
            previous (heap g x) = None))
    (all_cells g0) configure_cell g0) as (g & Hg & HR & HC & Hrows & Hw & Hf).
  - split_and!; try done. intros x d Hx. by apply elem_of_nil in Hx.
  - intros l1 x l2 g _ (HR & HC & Hrows & Hw & Hf).
    assert (Hs : shape_ok g) by (unfold shape_ok; rewrite Hrows, HR, HC; done).
    destruct (configure_cell_spec x g Hs) as (g' & -> & HR' & HC' & Hrows' & Hx & Hy & Hf').
    exists g'. split; [done|]. split_and!; try congruence.
    + intros y d Hin.
      assert (Hig : ∀ z, in_grid g' z ↔ in_grid g z)
        by (intros z; unfold in_grid; by rewrite HR', HC').
      destruct (decide (y = x)) as [->|Hne].
      * rewrite Hx. pose proof (Hig (step x d)). repeat case_decide; try done; tauto.
      * rewrite Hy by done. apply elem_of_app in Hin as [Hin|Hin]; [|set_solver].
        rewrite Hw by done. pose proof (Hig (step y d)). repeat case_decide; try done; tauto.
    + intros y. destruct (Hf' y) as (-> & -> & ->). apply Hf.
  - exists g. split; [done|].
    assert (Hs : shape_ok g) by (unfold shape_ok; rewrite Hrows, HR, HC; done).
    split_and!; try done.
    intros x d Hx. apply Hw. unfold all_cells. rewrite <- Hrows.
    by apply shape_elem_of_all_cells.
Qed.

Lemma fresh_grid_cells R C g :
  fresh_grid R C g →
  (∀ r c, (r, c) ∈ all_cells g ↔ 0 ≤ r < R ∧ 0 ≤ c < C) ∧
  NoDup (all_cells g) ∧
  length (all_cells g) = (Z.to_nat R * Z.to_nat C)%nat.
Proof.
  intros (<- & <- & Hs & _). split_and!.
  - intros r c. by rewrite shape_elem_of_all_cells.
  - by apply shape_NoDup_all_cells.
  - by apply shape_length_all_cells.
Qed.

(** C5, as the specification states it, fails on the code: construction
    with a non-positive dimension raises nothing and returns a grid with no
    cell. *)
Lemma C5_construct_nonpositive_returns :
  (∃ g, Grid_init 0 3 = Returns g ∧ all_cells g = []) ∧
  (∃ g, Grid_init 3 (-1) = Returns g ∧ all_cells g = []) ∧
  ¬ (∀ R C, (R ≤ 0 ∨ C ≤ 0) → ∃ e, Grid_init R C = Raises e).
Proof.
  split_and!.
  - eexists. split; reflexivity.
  - eexists. split; reflexivity.
  - intros H. destruct (H 0 3) as [e He]; [lia|]. discriminate He.
Qed.

(** C5 (amended): [Grid.__init__] never fails.  With [rows ≥ 1] and
    [cols ≥ 1] it allocates exactly [rows × cols] nodes, one per in-range
    (row, col) pair; with a non-positive dimension it returns a grid without
    nodes. *)
Theorem C5_construct (R C : Z) :
  ∃ g, Grid_init R C = Returns g ∧
    num_rows g = R ∧ num_cols g = C ∧
    NoDup (all_cells g) ∧
    (∀ r c, (r, c) ∈ all_cells g ↔ 0 ≤ r < R ∧ 0 ≤ c < C) ∧
    (1 ≤ R → 1 ≤ C → Z.of_nat (length (all_cells g)) = R * C) ∧
    (R ≤ 0 ∨ C ≤ 0 → all_cells g = []).
Proof.
  destruct (Grid_init_fresh R C) as (g & Hg & Hf).
  destruct (fresh_grid_cells R C g Hf) as (Hin & Hnd & Hlen).
  exists g. split; [done|]. destruct Hf as (HR & HC & _).
  split_and!; try done.
  - intros. rewrite Hlen. nia.
  - intros Hle. apply length_zero_iff_nil. rewrite Hlen.
    destruct Hle; [replace (Z.to_nat R) with 0%nat by lia|
                   replace (Z.to_nat C) with 0%nat by lia]; lia.
Qed.

Lemma C5_construct_witness :
  ∃ g, Grid_init 2 3 = Returns g ∧ Z.of_nat (length (all_cells g)) = 2 * 3.
Proof.
  destruct (C5_construct 2 3) as (g & Hg & _ & _ & _ & _ & Hlen & _).
  exists g. split; [exact Hg|]. apply Hlen; lia.
Defined.



(** * Part II: the unweighted traversal [Grid.solve_maze] *)

Lemma elem_of_universe g x : x ∈ universe g ↔ in_grid g x.
Proof.
  unfold universe, in_grid. rewrite list_elem_of_join. split.
  - intros (line & Hx & Hline).
    apply list_elem_of_fmap in Hline as (r & -> & Hr%elem_of_range).
    apply list_elem_of_fmap in Hx as (c & -> & Hc%elem_of_range). simpl. lia.
  - intros [Hr Hc]. destruct x as [r c]; simpl in *.
    exists ((λ c, (r, c)) <$> range (num_cols g)). split.
    + apply list_elem_of_fmap. exists c. by rewrite elem_of_range.
    + apply list_elem_of_fmap. exists r. by rewrite elem_of_range.
Qed.

Lemma NoDup_universe g : NoDup (universe g).
Proof. apply NoDup_concat_rows; apply NoDup_range. Qed.

(** *** Walks *)

Lemma is_walk_cons g x y q :
  is_walk g (x :: y :: q) ↔ linked g x y ∧ is_walk g (y :: q).
Proof. done. Qed.

Lemma is_walk_tail g x q : is_walk g (x :: q) → is_walk g q.
Proof. destruct q; [done|]. by intros [_ ?]. Qed.

Lemma is_walk_snoc g p n x :
  is_walk g p → last p = Some n → linked g n x → is_walk g (p ++ [x]).
Proof.
  induction p as [|a q IH]; [done|].
  destruct q as [|b q]; simpl.
  - intros _ [= ->] Hl. done.
  - intros [Hab Hq] Hlast Hl. split; [done|]. apply IH; done.
Qed.

(** A set of cells closed under links holds every cell a walk from one of
    its members passes through. *)
Lemma walk_closed g (S : cell → Prop) p :
  (∀ v w, S v → linked g v w → S w) →
  is_walk g p → (∀ a, head p = Some a → S a) → ∀ x, x ∈ p → S x.
Proof.
  intros Hcl. induction p as [|a q IH]; intros Hw Ha x Hx.
  - by apply elem_of_nil in Hx.
  - apply elem_of_cons in Hx as [->|Hx]; [by apply Ha|].
    apply IH; [by eapply is_walk_tail|  |done].
    destruct q as [|b q]; [done|]. intros ? [= <-].
    destruct Hw as [Hab _]. eapply Hcl; [|done]. by apply Ha.
Qed.

Lemma last_elem_of {A} (l : list A) x : last l = Some x → x ∈ l.
Proof.
  intros H. apply last_Some in H as [l' ->]. set_solver.
Qed.

(** *** The stack after the [for neighbor in current_cell.links] loop *)

Lemma foldl_push_unvisited path visited stack l :
  foldl (push_unvisited path visited) stack l =
  reverse ((λ x, (x, path ++ [x])) <$> filter (λ x, x ∉ visited) l) ++ stack.
Proof.
  revert stack. induction l as [|x l IH]; intros stack; simpl; [done|].
  rewrite IH, filter_cons. unfold push_unvisited.
  destruct (decide (x ∈ visited)) as [Hx|Hx].
  - rewrite decide_False by (intros ?; done). done.
  - rewrite decide_True by done. rewrite fmap_cons, reverse_cons, <- app_assoc. done.
Qed.

(** *** The termination measure *)

Lemma dfs_weight_pos u : (1 ≤ dfs_weight u)%nat.
Proof. destruct u; simpl; lia. Qed.

Lemma dfs_weight_step u : (dfs_weight u ≤ dfs_weight (S u))%nat.
Proof.
  induction u as [|u IH]; simpl in *; [lia|].
  pose proof (dfs_weight_pos u). nia.
Qed.

Lemma dfs_weight_mono u v : (u ≤ v)%nat → (dfs_weight u ≤ dfs_weight v)%nat.
Proof.
  induction 1 as [|v _ IH]; [done|].
  etrans; [exact IH|apply dfs_weight_step].
Qed.

Lemma filter_ext_in {A} (P Q : A → Prop) `{∀ x, Decision (P x)} `{∀ x, Decision (Q x)}
    (l : list A) :
  (∀ x, x ∈ l → (P x ↔ Q x)) → filter P l = filter Q l.
Proof.
  induction l as [|a l IH]; intros HPQ; [done|].
  rewrite !filter_cons, IH by (intros; apply HPQ; set_solver).
  destruct (HPQ a ltac:(set_solver)).
  repeat case_decide; try done; tauto.
Qed.

Lemma length_filter_remove (P : cell → Prop) `{∀ x, Decision (P x)} (U : list cell) n :
  NoDup U → n ∈ U → P n →
  length (filter P U) = S (length (filter (λ c, P c ∧ c ≠ n) U)).
Proof.
  intros Hnd. induction Hnd as [|a U Ha Hnd IH]; intros Hn HP.
  - by apply elem_of_nil in Hn.
  - rewrite !filter_cons. apply elem_of_cons in Hn as [->|Hn].
    + rewrite decide_True by done. rewrite decide_False by naive_solver. simpl.
      f_equal. f_equal. apply filter_ext_in.
      intros x Hx. split; [|naive_solver]. intros Hpx. split; [done|]. by intros ->.
    + assert (a ≠ n) by (by intros ->).
      destruct (decide (P a)).
      * rewrite decide_True by done. simpl. by rewrite IH.
      * rewrite decide_False by naive_solver. by apply IH.
Qed.

Lemma unvisited_add_old g visited n :
  n ∈ visited → unvisited g (visited ∪ {[n]}) = unvisited g visited.
Proof.
  intros Hn. unfold unvisited. f_equal. apply list_filter_iff. intros x. set_solver.
Qed.

Lemma unvisited_add_new g visited n :
  n ∉ visited → in_grid g n →
  unvisited g visited = S (unvisited g (visited ∪ {[n]})).
Proof.
  intros Hn Hg. unfold unvisited.
  rewrite (length_filter_remove (λ c, c ∉ visited) (universe g) n);
    [|apply NoDup_universe|by apply elem_of_universe|done].
  f_equal. f_equal. apply list_filter_iff. intros x. set_solver.
Qed.

Lemma children_bound g visited l :
  NoDup l → (∀ x, x ∈ l → in_grid g x) →
  (length (filter (λ x, x ∉ visited) l) ≤ unvisited g visited)%nat.
Proof.
  intros Hnd Hin. unfold unvisited. apply submseteq_length, NoDup_submseteq.
  - by apply NoDup_filter.
  - intros x [Hx Hl]%list_elem_of_filter. apply list_elem_of_filter.
    split; [done|]. apply elem_of_universe. by apply Hin.
Qed.

Lemma sum_list_const_le {A} (f : A → nat) (l : list A) (c : nat) :
  (∀ x, x ∈ l → f x ≤ c)%nat → (sum_list_with f l ≤ length l * c)%nat.
Proof.
  induction l as [|a l IH]; intros H; simpl; [lia|].
  pose proof (H a ltac:(set_solver)).
  pose proof (IH ltac:(intros; apply H; set_solver)). lia.
Qed.

Lemma sum_list_le {A} (f f' : A → nat) (l : list A) :
  (∀ x, x ∈ l → f x ≤ f' x)%nat → (sum_list_with f l ≤ sum_list_with f' l)%nat.
Proof.
  induction l as [|a l IH]; intros H; simpl; [lia|].
  pose proof (H a ltac:(set_solver)).
  pose proof (IH ltac:(intros; apply H; set_solver)). lia.
Qed.

(** One turn of the loop lowers the measure. *)
Lemma dfs_measure_step g n path stack visited :
  links_closed g → in_grid g n →
  (dfs_measure g
     (foldl (push_unvisited path (visited ∪ {[n]})) stack (links (heap g n))) (visited ∪ {[n]})
   < dfs_measure g ((n, path) :: stack) visited)%nat.
Proof.
  intros Hcl Hn. rewrite foldl_push_unvisited.
  unfold dfs_measure. rewrite sum_list_with_app. simpl.
  set (kids := filter (λ x, x ∉ (visited ∪ {[n]})) (links (heap g n))).
  assert (Hk : (length kids ≤ unvisited g (visited ∪ {[n]}))%nat).
  { apply children_bound; [apply Hcl|]. intros x Hx. by eapply Hcl. }
  assert (Hnew : (sum_list_with (dfs_entry_weight g (visited ∪ {[n]}))
              (reverse ((λ x, (x, path ++ [x])) <$> kids))
            ≤ length kids * dfs_weight (unvisited g (visited ∪ {[n]})))%nat).
  { etrans; [apply (sum_list_const_le _ _ (dfs_weight (unvisited g (visited ∪ {[n]}))))|].
    - intros e He. apply elem_of_reverse, list_elem_of_fmap in He as (x & -> & Hx).
      apply list_elem_of_filter in Hx as [Hx _].
      unfold dfs_entry_weight. simpl. rewrite decide_False by done.
      by rewrite Nat.add_0_r.
    - by rewrite length_reverse, length_fmap. }
  assert (Hold : (sum_list_with (dfs_entry_weight g (visited ∪ {[n]})) stack
            ≤ sum_list_with (dfs_entry_weight g visited) stack)%nat).
  { apply sum_list_le. intros [m p] _. unfold dfs_entry_weight. simpl.
    destruct (decide (n ∈ visited)) as [Hv|Hv].
    - rewrite (unvisited_add_old g visited n Hv).
      apply dfs_weight_mono.
      repeat case_decide; try lia; set_solver.
    - rewrite (unvisited_add_new g visited n Hv Hn).
      apply dfs_weight_mono.
      repeat case_decide; try lia; set_solver. }
  assert (Hpop : (length kids * dfs_weight (unvisited g (visited ∪ {[n]}))
            < dfs_entry_weight g visited (n, path))%nat).
  { unfold dfs_entry_weight. simpl. destruct (decide (n ∈ visited)) as [Hv|Hv].
    - rewrite <- (unvisited_add_old g visited n Hv).
      rewrite Nat.add_1_r. simpl. nia.
    - rewrite (unvisited_add_new g visited n Hv Hn).
      rewrite Nat.add_0_r. simpl. nia. }
  lia.
Qed.

(** *** The invariant *)

Lemma dfs_inv_init g A B : in_grid g A → dfs_inv g A B [(A, [A])] ∅.
Proof.
  intros HA. split_and!.
  - constructor; [|constructor]. split; [done|]. exists []. simpl.
    split_and!; [done|set_solver|apply NoDup_singleton|done|done].
  - set_solver.
  - set_solver.
  - set_solver.
  - right. set_solver.
Qed.

Lemma dfs_inv_step g A B n path stack visited :
  links_closed g → n ≠ B →
  dfs_inv g A B ((n, path) :: stack) visited →
  dfs_inv g A B
    (foldl (push_unvisited path (visited ∪ {[n]})) stack (links (heap g n)))
    (visited ∪ {[n]}).
Proof.
  intros Hcl HnB (Hst & Hvis & HB & Hclo & HA).
  apply Forall_cons in Hst as [(Hn & q & Hq & Hqv & Hnd & Hw & Hh) Hst].
  simpl in *. rewrite foldl_push_unvisited.
  assert (Hpv : ∀ x, x ∈ path → x ∈ visited ∪ {[n]}).
  { intros x. rewrite Hq. intros [Hx|Hx%list_elem_of_singleton]%elem_of_app.
    - apply elem_of_union_l. by apply Hqv.
    - set_solver. }
  assert (Hlast : last path = Some n) by (rewrite Hq; apply last_snoc).
  split_and!.
  - apply Forall_app. split.
    + apply Forall_forall. intros e He.
      apply elem_of_reverse, list_elem_of_fmap in He as (x & -> & Hx).
      apply list_elem_of_filter in Hx as [Hxv Hx]. split; simpl.
      * by eapply Hcl.
      * exists path. split_and!; try done.
        -- apply NoDup_app. split_and!; [done| |apply NoDup_singleton].
           intros y Hy ->%list_elem_of_singleton. apply Hxv. by apply Hpv.
        -- by eapply is_walk_snoc.
        -- destruct path; [done|]. done.
    + eapply Forall_impl; [exact Hst|].
      intros [m p] (Hm & q' & ? & Hq' & ? & ? & ?). split; [done|].
      exists q'. split_and!; try done. intros x Hx. apply elem_of_union_l. by apply Hq'.
  - intros v [Hv|Hv%elem_of_singleton]%elem_of_union; [by apply Hvis|by subst].
  - set_solver.
  - intros v w [Hv|Hv%elem_of_singleton]%elem_of_union Hl.
    + destruct (Hclo v w Hv Hl) as [Hw'|Hw']; [left; set_solver|].
      simpl in Hw'. apply elem_of_cons in Hw' as [->|Hw']; [left; set_solver|].
      right. rewrite fmap_app. set_solver.
    + subst v. destruct (decide (w ∈ visited ∪ {[n]})) as [Hin|Hout]; [by left|].
      right. rewrite fmap_app, fmap_reverse. apply elem_of_app. left.
      apply elem_of_reverse. rewrite <- list_fmap_compose.
      apply list_elem_of_fmap. exists w. split; [done|].
      by apply list_elem_of_filter.
  - destruct HA as [HA|HA]; [left; set_solver|].
    simpl in HA. apply elem_of_cons in HA as [->|HA]; [left; set_solver|].
    right. rewrite fmap_app. set_solver.
Qed.

(** With an empty stack the visited set is closed under links and holds the
    start, so the target, which is never visited, is out of reach. *)
Lemma dfs_inv_empty g A B visited :
  dfs_inv g A B [] visited → ¬ reachable g A B.
Proof.
  intros (_ & _ & HB & Hclo & HA) (p & Hh & Hl & Hw). apply HB.
  apply (walk_closed g (λ x, x ∈ visited) p); [| done | |by apply last_elem_of].
  - intros v w Hv Hvw. destruct (Hclo v w Hv Hvw) as [?|Hin]; [done|].
    by apply elem_of_nil in Hin.
  - intros a Ha. rewrite Hh in Ha. injection Ha as <-.
    destruct HA as [?|Hin]; [done|]. by apply elem_of_nil in Hin.
Qed.

(** *** Running the loop *)

Lemma solve_maze_loop_fuel_mono fuel fuel' g B stack visited r :
  (fuel ≤ fuel')%nat →
  solve_maze_loop fuel g B stack visited = Returns r →
  solve_maze_loop fuel' g B stack visited = Returns r.
Proof.
  revert fuel' stack visited. induction fuel as [|fuel IH]; intros fuel' stack visited Hle; [done|].
  destruct fuel' as [|fuel']; [lia|]. simpl.
  destruct stack as [|[n p] stack]; [done|].
  case_decide; [done|]. apply IH. lia.
Qed.

Lemma solve_maze_loop_runs g A B :
  links_closed g →
  ∀ fuel stack visited,
    dfs_inv g A B stack visited →
    (dfs_measure g stack visited < fuel)%nat →
    ∃ r, solve_maze_loop fuel g B stack visited = Returns r ∧ dfs_post g A B r.
Proof.
  intros Hcl. induction fuel as [|fuel IH]; intros stack visited Hinv Hm; [lia|].
  simpl. destruct stack as [|[n p] stack].
  - exists None. split; [done|]. by eapply dfs_inv_empty.
  - case_decide as HnB.
    + subst n. exists (Some p). split; [done|].
      destruct Hinv as (Hst & _). apply Forall_cons in Hst as [(_ & q & Hq & _ & Hnd & Hw & Hh) _].
      simpl in *. split; [|done]. split_and!; try done. rewrite Hq. apply last_snoc.
    + apply IH; [by apply dfs_inv_step|].
      assert (Hn : in_grid g n).
      { destruct Hinv as (Hst & _). apply Forall_cons in Hst as [(Hn & _) _]. done. }
      pose proof (dfs_measure_step g n p stack visited Hcl Hn) as Hlt. lia.
Qed.

Lemma solve_maze_runs g A B :
  links_closed g → in_grid g A →
  ∃ n r, dfs_post g A B r ∧
    ∀ fuel, (n ≤ fuel)%nat → solve_maze fuel g A B = Returns r.
Proof.
  intros Hcl HA.
  set (n := S (dfs_measure g [(A, [A])] ∅)).
  destruct (solve_maze_loop_runs g A B Hcl n [(A, [A])] ∅) as (r & Hr & Hpost);
    [by apply dfs_inv_init|lia|].
  exists n, r. split; [done|]. intros fuel Hle.
  by eapply solve_maze_loop_fuel_mono.
Qed.

(** C10: on every grid, for every node [s] and whatever its links are, the
    traversal from [s] to [s] returns the one-element sequence [[s]]. *)
Theorem C10_solve_maze_same (g : Grid) (s : cell) (fuel : nat) :
  solve_maze (S fuel) g s s = Returns (Some [s]).
Proof. unfold solve_maze. simpl. by rewrite decide_True. Qed.

(** C3: on every grid, not only spanning trees, when [B] is reachable from
    [A] via links the traversal returns a sequence that starts at [A], ends
    at [B], links every pair of consecutive nodes and repeats no node. *)
Theorem C3_solve_maze_path (g : Grid) (A B : cell) :
  links_closed g → in_grid g A → reachable g A B →
  ∃ n p, (∀ fuel, (n ≤ fuel)%nat → solve_maze fuel g A B = Returns (Some p)) ∧
         head p = Some A ∧ last p = Some B ∧ is_walk g p ∧ NoDup p.
Proof.
  intros Hcl HA Hreach.
  destruct (solve_maze_runs g A B Hcl HA) as (n & r & Hpost & Hrun).
  destruct r as [p|]; simpl in Hpost; [|done].
  destruct Hpost as ((Hh & Hl & Hw) & Hnd). by exists n, p.
Qed.

(** Without links the traversal between two distinct nodes finds nothing. *)
Lemma solve_maze_no_links g A B fuel :
  (∀ c, links (heap g c) = []) → A ≠ B →
  solve_maze (S (S fuel)) g A B = Returns None.
Proof.
  intros Hno Hne. unfold solve_maze. simpl.
  rewrite decide_False by done. by rewrite Hno.
Qed.

(** * Part III: links *)

Lemma elem_of_set_add x y s : y ∈ set_add x s ↔ y = x ∨ y ∈ s.
Proof.
  unfold set_add. case_decide; [naive_solver|].
  rewrite elem_of_app, list_elem_of_singleton. naive_solver.
Qed.

Lemma NoDup_set_add x s : NoDup s → NoDup (set_add x s).
Proof.
  intros Hnd. unfold set_add. case_decide; [done|].
  apply NoDup_app. split_and!; [done| |apply NoDup_singleton].
  by intros y Hy ->%list_elem_of_singleton.
Qed.

Lemma length_set_add x s : x ∉ s → length (set_add x s) = S (length s).
Proof.
  intros Hx. unfold set_add. rewrite decide_False by done.
  rewrite length_app. simpl. lia.
Qed.


(** The link sets after [a.link(b)]. *)
Lemma link_links a b g c :
  links (heap (link a b true g) c) =
  let la := if decide (c = a) then set_add b (links (heap g c)) else links (heap g c) in
  if decide (c = b) then set_add a la else la.
Proof. unfold link. simpl. repeat case_decide; done. Qed.

Lemma link_linked a b g x y :
  linked (link a b true g) x y ↔ linked g x y ∨ (x = a ∧ y = b) ∨ (x = b ∧ y = a).
Proof.
  unfold linked. rewrite link_links. simpl.
  repeat case_decide; rewrite ?elem_of_set_add; naive_solver.
Qed.

Lemma link_NoDup a b g c :
  NoDup (links (heap g c)) → NoDup (links (heap (link a b true g) c)).
Proof.
  intros Hnd. rewrite link_links. simpl.
  repeat case_decide; repeat apply NoDup_set_add; done.
Qed.

Lemma link_neighbor a b g c d :
  get_neighbor (link a b true g) c d = get_neighbor g c d.
Proof. unfold get_neighbor, link. simpl. repeat case_decide; done. Qed.

Lemma link_distance a b g c :
  distance (heap (link a b true g) c) = distance (heap g c).
Proof. unfold link. simpl. repeat case_decide; done. Qed.

Lemma link_previous a b g c :
  previous (heap (link a b true g) c) = previous (heap g c).
Proof. unfold link. simpl. repeat case_decide; done. Qed.

Lemma link_in_grid a b g x : in_grid (link a b true g) x ↔ in_grid g x.
Proof. done. Qed.

Lemma link_shape a b g : shape_ok g → shape_ok (link a b true g).
Proof. done. Qed.

Lemma link_wired a b g : wired g → wired (link a b true g).
Proof.
  intros Hw x d Hx. rewrite link_neighbor, Hw by done.
  repeat case_decide; done.
Qed.

(** *** Neighbours on a wired grid *)

Lemma step_geometric x d : geometric_neighbors x (step x d).
Proof.
  unfold geometric_neighbors. destruct x as [r c], d; simpl; lia.
Qed.

Lemma geometric_neighbors_sym a b : geometric_neighbors a b → geometric_neighbors b a.
Proof. unfold geometric_neighbors. lia. Qed.

Lemma wired_neighbor g x d n :
  wired g → in_grid g x → get_neighbor g x d = Some n →
  n = step x d ∧ in_grid g n.
Proof.
  intros Hw Hx. rewrite Hw by done. case_decide; [|done]. by intros [= <-].
Qed.

Lemma wired_neighbor_None g x d :
  wired g → in_grid g x → get_neighbor g x d = None ↔ ¬ in_grid g (step x d).
Proof.
  intros Hw Hx. rewrite Hw by done. case_decide; naive_solver.
Qed.

(** * Part IV: the weighted solver [DjikstraSolver] *)

Lemma set_distance_distance c d g x :
  distance (heap (set_distance c d g) x) = if decide (x = c) then d else distance (heap g x).
Proof. unfold set_distance. simpl. by case_decide. Qed.

Lemma set_distance_links c d g x :
  links (heap (set_distance c d g) x) = links (heap g x).
Proof. unfold set_distance. simpl. by case_decide. Qed.

Lemma set_distance_previous c d g x :
  previous (heap (set_distance c d g) x) = previous (heap g x).
Proof. unfold set_distance. simpl. by case_decide. Qed.

Lemma set_previous_distance c p g x :
  distance (heap (set_previous c p g) x) = distance (heap g x).
Proof. unfold set_previous. simpl. by case_decide. Qed.

Lemma set_previous_links c p g x :
  links (heap (set_previous c p g) x) = links (heap g x).
Proof. unfold set_previous. simpl. by case_decide. Qed.

Lemma set_previous_previous c p g x :
  previous (heap (set_previous c p g) x) =
  if decide (x = c) then Some p else previous (heap g x).
Proof. unfold set_previous. simpl. by case_decide. Qed.

Lemma same_maze_refl g : same_maze g g.
Proof. done. Qed.

Lemma same_maze_trans g1 g2 g3 : same_maze g1 g2 → same_maze g2 g3 → same_maze g1 g3.
Proof.
  intros (? & ? & ? & Ha) (? & ? & ? & Hb). split_and!; [congruence..|].
  intros c. by rewrite Hb, Ha.
Qed.

Lemma same_maze_set_distance c d g : same_maze g (set_distance c d g).
Proof. split_and!; try done. intros x. apply set_distance_links. Qed.

Lemma same_maze_set_previous c p g : same_maze g (set_previous c p g).
Proof. split_and!; try done. intros x. apply set_previous_links. Qed.

Lemma same_maze_in_grid g g' x : same_maze g g' → in_grid g' x ↔ in_grid g x.
Proof. intros (HR & HC & _). unfold in_grid. by rewrite HR, HC. Qed.

Lemma same_maze_linked g g' x y : same_maze g g' → linked g' x y ↔ linked g x y.
Proof. intros (_ & _ & _ & H). unfold linked. by rewrite H. Qed.

Lemma same_maze_shape g g' : same_maze g g' → shape_ok g → shape_ok g'.
Proof. intros (HR & HC & Hrows & _). unfold shape_ok. by rewrite HR, HC, Hrows. Qed.

Lemma same_maze_all_cells g g' : same_maze g g' → all_cells g' = all_cells g.
Proof. intros (_ & _ & Hrows & _). unfold all_cells. by rewrite Hrows. Qed.

Lemma shape_all_cells_universe g : shape_ok g → all_cells g = universe g.
Proof. intros Hs. unfold all_cells, universe. by rewrite Hs. Qed.

(** *** [initialize] *)

Lemma foldl_set_distance l g :
  let g' := foldl (λ g c, set_distance c 10000 g) g l in
  same_maze g g' ∧
  (∀ x, distance (heap g' x) = if decide (x ∈ l) then 10000 else distance (heap g x)) ∧
  (∀ x, previous (heap g' x) = previous (heap g x)).
Proof.
  revert g. induction l as [|c l IH]; intros g; simpl.
  - done.
  - destruct (IH (set_distance c 10000 g)) as (Hm & Hd & Hp). split_and!.
    + eapply same_maze_trans; [apply same_maze_set_distance|done].
    + intros x. rewrite Hd, set_distance_distance.
      repeat case_decide; try done; set_solver.
    + intros x. by rewrite Hp, set_distance_previous.
Qed.

Lemma initialize_spec s :
  shape_ok (grid s) → in_grid (grid s) (0, 0) →
  ∃ s', initialize s = Returns s' ∧
    same_maze (grid s) (grid s') ∧
    queue s' = queue s ∧ weight_calls s' = weight_calls s ∧
    dist s' (0, 0) = 0 ∧
    (∀ c, in_grid (grid s) c → c ≠ (0, 0) → dist s' c = 10000) ∧
    (∀ c, previous (heap (grid s') c) = previous (heap (grid s) c)).
Proof.
  intros Hs H0. unfold initialize.
  destruct (foldl_set_distance (all_cells (grid s)) (grid s)) as (Hm & Hd & Hp).
  set (g' := foldl _ _ _) in *.
  rewrite (shape_get_cell g') by (by eapply same_maze_shape).
  rewrite decide_True by (by apply (same_maze_in_grid (grid s))). simpl.
  eexists. split; [done|]. unfold dist. cbn [grid queue weight_calls].
  split_and!; try done.
  - eapply same_maze_trans; [done|apply same_maze_set_distance].
  - intros c Hc Hne. rewrite set_distance_distance, decide_False by done.
    rewrite Hd, decide_True; [done|]. by apply shape_elem_of_all_cells.
  - intros c. rewrite set_distance_previous. apply Hp.
Qed.

(** *** The sorted queue *)

Lemma insert_by_key_perm e l : insert_by_key e l ≡ₚ e :: l.
Proof.
  induction l as [|e' l IH]; simpl; [done|].
  case_decide; [done|]. rewrite IH. apply Permutation_swap.
Qed.

Lemma sort_by_key_perm l : sort_by_key l ≡ₚ l.
Proof.
  induction l as [|e l IH]; simpl; [done|].
  by rewrite insert_by_key_perm, IH.
Qed.

Lemma add_to_queue_cells c d s x :
  x ∈ (queue (add_to_queue c d s)).*2 ↔ x = c ∨ x ∈ (queue s).*2.
Proof.
  simpl. rewrite sort_by_key_perm, fmap_app, elem_of_app. simpl.
  rewrite list_elem_of_singleton. naive_solver.
Qed.

Lemma add_to_queue_length c d s :
  length (queue (add_to_queue c d s)) = S (length (queue s)).
Proof. simpl. rewrite sort_by_key_perm, length_app. simpl. lia. Qed.

(** *** One neighbour in [relax] *)

Lemma relax_neighbor_linked c s n :
  linked (grid s) c n →
  relax_neighbor c s n =
  let new_distance := dist s c + 1 in
  let calls := weight_calls s ++ [(c, n, 1)] in
  if decide (new_distance < dist s n) then
    mkSolver (set_previous n c (set_distance n new_distance (grid s)))
             (sort_by_key (queue s ++ [(new_distance, n)])) calls
  else mkSolver (grid s) (queue s) calls.
Proof.
  intros Hl. unfold relax_neighbor, weight, dist. simpl.
  destruct (decide (n ∈ links (heap (grid s) c))) as [_|Hn]; [|by destruct Hn].
  by case_decide.
Qed.

(** *** The loop of [relax] *)

Lemma foldl_prefix {A S : Type} (P : list A → S → Prop) (f : S → A → S) l s :
  P [] s →
  (∀ l1 x l2 s, l = l1 ++ x :: l2 → P l1 s → P (l1 ++ [x]) (f s x)) →
  P l (foldl f s l).
Proof.
  intros H0 Hstep.
  cut (∀ l2 l1 s, l = l1 ++ l2 → P l1 s → P l (foldl f s l2)).
  { intros Hc. by apply (Hc l [] s). }
  induction l2 as [|x l2 IH]; intros l1 s1 Hl HP; simpl.
  - by rewrite Hl, app_nil_r.
  - apply (IH (l1 ++ [x])); [by rewrite <- app_assoc|]. by eapply Hstep.
Qed.

Lemma sum_list_with_update (f f' : cell → nat) (U : list cell) w :
  NoDup U → w ∈ U → (∀ x, x ≠ w → f' x = f x) →
  (sum_list_with f' U + f w = sum_list_with f U + f' w)%nat.
Proof.
  intros Hnd. induction Hnd as [|a U Ha Hnd IH]; intros Hw Hf.
  - by apply elem_of_nil in Hw.
  - simpl. apply elem_of_cons in Hw as [->|Hw].
    + assert (sum_list_with f' U = sum_list_with f U) as ->; [|lia].
      clear IH. induction U as [|b U IH]; simpl; [done|].
      rewrite Hf by set_solver. rewrite IH; [done|set_solver|by inversion Hnd].
    + rewrite (Hf a) by (by intros ->). specialize (IH Hw Hf). lia.
Qed.

Lemma walk_from_to_snoc g a c w p :
  walk_from_to g a c p → linked g c w →
  walk_from_to g a w (p ++ [w]) ∧ edges (p ++ [w]) = edges p + 1.
Proof.
  intros (Hh & Hl & Hw) Hcw. split.
  - split_and!.
    + destruct p; [done|]. done.
    + apply last_snoc.
    + by eapply is_walk_snoc.
  - unfold edges. rewrite length_app. simpl. lia.
Qed.

Lemma walk_from_to_nil g a : walk_from_to g a a [a] ∧ edges [a] = 0.
Proof. done. Qed.

Lemma relax_inv_step g0 c dc M seen s n :
  links_closed g0 → in_grid g0 c → linked g0 c n →
  relax_inv g0 c dc M seen s →
  relax_inv g0 c dc M (seen ++ [n]) (relax_neighbor c s n).
Proof.
  intros Hcl Hc Hcn (Hm & H0 & Hrange & Hwalk & Hpend & Hq & Hcalls & Hdc & Hseen & HM).
  assert (Hn : in_grid g0 n) by (by eapply Hcl).
  rewrite relax_neighbor_linked by (by apply (same_maze_linked g0)). simpl.
  rewrite Hdc. case_decide as Hlt.
  - (* the neighbour's distance is lowered *)
    pose proof (Hrange c Hc) as Hrc. pose proof (Hrange n Hn) as Hrn.
    assert (Hnc : n ≠ c) by (intros ->; lia).
    set (s' := mkSolver _ _ _).
    assert (Hd' : ∀ x, dist s' x = if decide (x = n) then dc + 1 else dist s x).
    { intros x. unfold dist, s'. cbn [grid].
      by rewrite set_previous_distance, set_distance_distance. }
    assert (Hq' : ∀ x, x ∈ (queue s').*2 ↔ x = n ∨ x ∈ (queue s).*2).
    { intros x. apply (add_to_queue_cells n (dc + 1) s x). }
    assert (Hl' : ∀ x, links (heap (grid s') x) = links (heap (grid s) x)).
    { intros x. unfold s'. cbn [grid]. by rewrite set_previous_links, set_distance_links. }
    split_and!.
    + eapply same_maze_trans; [exact Hm|]. unfold s'. cbn [grid].
      eapply same_maze_trans; [apply same_maze_set_distance|apply same_maze_set_previous].
    + rewrite Hd'. case_decide as H00; [|done]. rewrite <- H00 in Hlt. lia.
    + intros x Hx. rewrite Hd'. case_decide; [lia|by apply Hrange].
    + intros x Hx. rewrite Hd'. case_decide as Hxn.
      * intros _. subst x. destruct (Hwalk c Hc) as (p & Hp & He); [lia|].
        destruct (walk_from_to_snoc g0 _ _ n p Hp Hcn) as (Hp' & He').
        exists (p ++ [n]). split; [done|]. lia.
      * by apply Hwalk.
    + intros x Hx Hxc. rewrite Hd'. rewrite Hq'.
      case_decide as Hxn; [by left; left|].
      intros Hlt'. destruct (Hpend x Hx Hxc Hlt') as [Hin|Hrel]; [by left; right|].
      right. intros w Hw. rewrite Hd'. specialize (Hrel w Hw).
      case_decide; [subst w; lia|done].
    + intros x. rewrite Hq'. intros [->|Hx]; [done|by apply Hq].
    + intros c1 c2 w. unfold linked. rewrite Hl'. unfold s'. cbn [weight_calls].
      intros [Hin|[= -> -> ->]%list_elem_of_singleton]%elem_of_app.
      * by apply Hcalls.
      * split; [|done]. by apply (same_maze_linked g0).
    + rewrite Hd'. by rewrite decide_False.
    + intros w. rewrite Hd'. intros [Hw| ->%list_elem_of_singleton]%elem_of_app.
      * case_decide; [lia|by apply Hseen].
      * by rewrite decide_True.
    + unfold dijkstra_measure in *.
      pose proof (add_to_queue_length n (dc + 1) s) as Hlen.
      change (queue (add_to_queue n (dc + 1) s)) with (queue s') in Hlen. rewrite Hlen.
      pose proof (sum_list_with_update (λ x, Z.to_nat (dist s x))
        (λ x, Z.to_nat (dist s' x)) (universe g0) n (NoDup_universe g0)) as Hsum.
      simpl in Hsum. rewrite Hd', decide_True in Hsum by done.
      assert (Hn' : n ∈ universe g0) by (by apply elem_of_universe).
      assert (Hsame : ∀ x, x ≠ n → Z.to_nat (dist s' x) = Z.to_nat (dist s x)).
      { intros x Hx. by rewrite Hd', decide_False. }
      specialize (Hsum Hn' Hsame). lia.
  - (* nothing changes but the record of calls *)
    split_and!; try done.
    + intros c1 c2 w. simpl.
      intros [Hin|[= -> -> ->]%list_elem_of_singleton]%elem_of_app; [by apply Hcalls|].
      split; [|done]. by apply (same_maze_linked g0).
    + intros w [Hw| ->%list_elem_of_singleton]%elem_of_app; [by apply Hseen|].
      unfold dist in *. simpl. lia.
Qed.

Lemma relax_spec g0 c s M :
  links_closed g0 → in_grid g0 c →
  relax_inv g0 c (dist s c) M [] s →
  relax_inv g0 c (dist s c) M (links (heap g0 c)) (relax c s).
Proof.
  intros Hcl Hc Hinv. unfold relax.
  assert (Hl : links (heap (grid s) c) = links (heap g0 c)).
  { destruct Hinv as ((_ & _ & _ & Hl) & _). apply Hl. }
  rewrite Hl.
  apply (foldl_prefix (relax_inv g0 c (dist s c) M)); [done|].
  intros l1 n l2 s1 Heq HP. apply relax_inv_step; try done.
  unfold linked. rewrite Heq. set_solver.
Qed.

(** One turn of the [while self.queue] loop. *)
Lemma dijkstra_pop g0 s d c rest :
  links_closed g0 → dijkstra_inv g0 s → queue s = (d, c) :: rest →
  let s' := relax c (mkSolver (grid s) rest (weight_calls s)) in
  dijkstra_inv g0 s' ∧ (dijkstra_measure g0 s' < dijkstra_measure g0 s)%nat.
Proof.
  intros Hcl (Hm & H0 & Hrange & Hwalk & Hpend & Hq & Hcalls) Hqs.
  set (s0 := mkSolver (grid s) rest (weight_calls s)).
  assert (Hc : in_grid g0 c) by (apply Hq; rewrite Hqs; set_solver).
  assert (Hinv0 : relax_inv g0 c (dist s0 c) (pred (dijkstra_measure g0 s)) [] s0).
  { split_and!; try done.
    - intros x Hx Hxc Hlt. destruct (Hpend x Hx Hlt) as [Hin|Hrel]; [|by right].
      left. rewrite Hqs in Hin. simpl in Hin. set_solver.
    - intros x Hx. apply Hq. rewrite Hqs. simpl. set_solver.
    - intros w Hw. by apply elem_of_nil in Hw.
    - unfold dijkstra_measure. rewrite Hqs. simpl. unfold dist. simpl. lia. }
  pose proof (relax_spec g0 c s0 _ Hcl Hc Hinv0)
    as (Hm' & H0' & Hrange' & Hwalk' & Hpend' & Hq' & Hcalls' & Hdc & Hseen & HM).
  simpl. split.
  - split_and!; try done.
    intros x Hx Hlt. destruct (decide (x = c)) as [->|Hxc]; [|by apply Hpend'].
    right. intros w Hw. rewrite Hdc. by apply Hseen.
  - assert (0 < dijkstra_measure g0 s)%nat; [|lia].
    unfold dijkstra_measure. rewrite Hqs. simpl. lia.
Qed.

Lemma solve_loop_fuel_mono fuel fuel' s r :
  (fuel ≤ fuel')%nat → solve_loop fuel s = Returns r → solve_loop fuel' s = Returns r.
Proof.
  revert fuel' s. induction fuel as [|fuel IH]; intros fuel' s Hle; [done|].
  destruct fuel' as [|fuel']; [lia|]. simpl.
  destruct (queue s) as [|[d c] rest]; [done|]. apply IH. lia.
Qed.

Lemma solve_loop_runs g0 :
  links_closed g0 →
  ∀ fuel s, dijkstra_inv g0 s → (dijkstra_measure g0 s < fuel)%nat →
    ∃ s', solve_loop fuel s = Returns s' ∧ dijkstra_inv g0 s' ∧ queue s' = [].
Proof.
  intros Hcl. induction fuel as [|fuel IH]; intros s Hinv Hlt; [lia|].
  simpl. destruct (queue s) as [|[d c] rest] eqn:Hq.
  - by exists s.
  - destruct (dijkstra_pop g0 s d c rest Hcl Hinv Hq) as [Hinv' Hlt'].
    apply IH; [done|lia].
Qed.

(** *** Distances when the queue is empty *)

Lemma is_walk_snoc_inv g q c' c :
  last q = Some c' → is_walk g (q ++ [c]) → is_walk g q ∧ linked g c' c.
Proof.
  induction q as [|a q IH]; [done|].
  destruct q as [|b q]; simpl.
  - intros [= ->] [? _]. done.
  - intros Hl [Hab Hw]. destruct (IH Hl Hw) as [? ?]. done.
Qed.

(** A walk from the start to [c], cut before its last link. *)
Lemma walk_from_to_split g a c p :
  walk_from_to g a c p →
  (p = [a] ∧ c = a) ∨
  ∃ q c', p = q ++ [c] ∧ walk_from_to g a c' q ∧ linked g c' c.
Proof.
  intros (Hh & Hl & Hw).
  destruct (last_Some p c) as [[q ->] _]; [done|].
  destruct q as [|a' q].
  - left. simpl in *. by simplify_eq.
  - right. destruct (last (a' :: q)) as [c'|] eqn:Hc'.
    2:{ by apply last_None in Hc'. }
    destruct (is_walk_snoc_inv g (a' :: q) c' c Hc' Hw) as [Hwq Hlk].
    exists (a' :: q), c'. split_and!; try done.
Qed.

Lemma dijkstra_final_le g0 s :
  links_closed g0 → in_grid g0 (0, 0) →
  dijkstra_inv g0 s → queue s = [] →
  ∀ p c, walk_from_to g0 (0, 0) c p → in_grid g0 c ∧ dist s c ≤ edges p.
Proof.
  intros Hcl Hin0 (Hm & H0 & Hrange & Hwalk & Hpend & Hq & Hcalls) Hempty.
  induction p as [|c0 q IH] using rev_ind; intros c Hp.
  - by destruct Hp as ([=] & _).
  - destruct (walk_from_to_split g0 _ _ _ Hp) as [[Heq ->]|(q' & c' & Heq & Hq' & Hlk)].
    + split; [done|]. rewrite H0. rewrite Heq. unfold edges. simpl. lia.
    + apply app_inj_tail in Heq as [<- ->].
      destruct (IH c' Hq') as [Hc' Hle].
      assert (Hc : in_grid g0 c) by (by eapply Hcl).
      split; [done|]. unfold edges in *. rewrite length_app. simpl.
      pose proof (Hrange c Hc). pose proof (Hrange c' Hc').
      destruct (decide (dist s c' < 10000)) as [Hlt|Hge]; [|lia].
      destruct (Hpend c' Hc' Hlt) as [Hin|Hrel].
      * rewrite Hempty in Hin. by apply elem_of_nil in Hin.
      * specialize (Hrel c Hlk). lia.
Qed.

(** *** [recover_path] *)

Lemma min_by_spec key x l :
  min_by key x l ∈ x :: l ∧ ∀ y, y ∈ x :: l → key (min_by key x l) ≤ key y.
Proof.
  revert x. induction l as [|y l IH]; intros x; simpl.
  - split; [set_solver|]. intros y ->%list_elem_of_singleton. lia.
  - case_decide as Hlt.
    + destruct (IH y) as [Hin Hmin]. split; [set_solver|].
      intros z [->|Hz]%elem_of_cons; [|by apply Hmin].
      specialize (Hmin y ltac:(set_solver)). lia.
    + destruct (IH x) as [Hin Hmin]. split; [set_solver|].
      intros z [->|[->|Hz]%elem_of_cons]%elem_of_cons.
      * apply Hmin. set_solver.
      * specialize (Hmin x ltac:(set_solver)). lia.
      * apply Hmin. set_solver.
Qed.

Lemma recover_loop_fuel_mono fuel fuel' g t acc r :
  (fuel ≤ fuel')%nat →
  recover_loop fuel g t acc = Returns r → recover_loop fuel' g t acc = Returns r.
Proof.
  revert fuel' t acc. induction fuel as [|fuel IH]; intros fuel' t acc Hle; [done|].
  destruct fuel' as [|fuel']; [lia|]. simpl.
  case_decide; [done|]. destruct (filter _ _); [done|]. apply IH. lia.
Qed.

Lemma recover_loop_spec g0 s :
  links_closed g0 → links_symmetric g0 → in_grid g0 (0, 0) →
  dijkstra_inv g0 s → queue s = [] →
  ∀ (k : nat) t acc fuel,
    in_grid g0 t → dist s t = Z.of_nat k → Z.of_nat k < 10000 → (k < fuel)%nat →
    ∃ r, recover_loop fuel (grid s) t acc = Returns (acc ++ r) ∧
         walk_from_to g0 (0, 0) t (reverse r) ∧ edges r = Z.of_nat k ∧
         (∀ x, x ∈ r → dist s x ≤ Z.of_nat k) ∧ NoDup r.
Proof.
  intros Hcl Hsym Hin0 Hinv Hempty.
  pose proof (dijkstra_final_le g0 s Hcl Hin0 Hinv Hempty) as Hfinal.
  destruct Hinv as (Hm & H0 & Hrange & Hwalk & Hpend & Hq & Hcalls).
  induction k as [|k IH]; intros t acc fuel Ht Hd Hk Hfuel;
    (destruct fuel as [|fuel]; [lia|]); simpl.
  - (* distance 0: the start *)
    destruct (Hwalk t Ht) as (p & Hp & He); [lia|].
    assert (t = (0, 0)) as ->.
    { destruct (walk_from_to_split g0 _ _ _ Hp) as [[_ ->]|(q & c' & -> & Hq' & _)]; [done|].
      destruct Hq' as (Hh & _). destruct q; [done|].
      unfold edges in He. rewrite length_app in He. simpl in He. lia. }
    rewrite decide_True by done. exists [(0, 0)]. split_and!; try done.
    + intros x ->%list_elem_of_singleton. lia.
    + apply NoDup_singleton.
  - (* distance k + 1: step to a linked cell at distance k *)
    assert (Hne : t ≠ (0, 0)) by (intros ->; lia).
    rewrite decide_False by (destruct t; simpl; intros [-> ->]; done).
    destruct (Hwalk t Ht) as (p & Hp & He); [lia|].
    destruct (walk_from_to_split g0 _ _ _ Hp) as [[_ ->]|(q & c' & -> & Hq' & Hlk)]; [done|].
    destruct (Hfinal q c' Hq') as [Hc' Hle].
    assert (Heq : edges q = Z.of_nat k).
    { unfold edges in *. rewrite length_app in He. simpl in He. lia. }
    assert (Hl : links (heap (grid s) t) = links (heap g0 t)).
    { destruct Hm as (_ & _ & _ & Hl). apply Hl. }
    rewrite Hl.
    remember (filter (λ n, distance (heap (grid s) n) < distance (heap (grid s) t))
                     (links (heap g0 t))) as cands eqn:Hcands.
    assert (Hcand : c' ∈ cands).
    { rewrite Hcands. apply list_elem_of_filter. split; [unfold dist in *; lia|]. by apply Hsym. }
    destruct cands as [|n rest]; [by apply elem_of_nil in Hcand|].
    destruct (min_by_spec (λ n, distance (heap (grid s) n)) n rest) as [Hmin_in Hmin_le].
    set (m := min_by _ n rest) in *.
    rewrite Hcands in Hmin_in.
    apply list_elem_of_filter in Hmin_in as [Hmlt Hmlink].
    assert (Hmg : in_grid g0 m) by (exact (proj2 (Hcl t) m Ht Hmlink)).
    assert (Hmk : dist s m = Z.of_nat k).
    { specialize (Hmin_le c' Hcand). unfold dist in *.
      destruct (Hpend m Hmg) as [Hin|Hrel].
      - unfold dist. pose proof (Hrange t Ht). unfold dist in *. lia.
      - rewrite Hempty in Hin. by apply elem_of_nil in Hin.
      - specialize (Hrel t (Hsym _ _ Hmlink)). unfold dist in *. lia. }
    destruct (IH m (acc ++ [t]) fuel Hmg Hmk ltac:(lia) ltac:(lia))
      as (r & Hr & Hwr & Her & Hdr & Hnd).
    exists (t :: r). split_and!.
    + rewrite Hr. by rewrite <- app_assoc.
    + rewrite reverse_cons.
      by apply (walk_from_to_snoc g0 (0, 0) m t (reverse r) Hwr), Hsym.
    + unfold edges in *. simpl. lia.
    + intros x [->|Hx]%elem_of_cons; [lia|]. specialize (Hdr x Hx). lia.
    + apply NoDup_cons. split; [|done]. intros Hx. specialize (Hdr t Hx). lia.
Qed.

(** *** [solve] *)

Lemma in_grid_target g :
  in_grid g (0, 0) → in_grid g (num_rows g - 1, num_cols g - 1).
Proof. unfold in_grid. simpl. lia. Qed.

(** [solve] up to the end of its loop. *)
Lemma solve_unfold s :
  let g := grid s in
  let t := (num_rows g - 1, num_cols g - 1) in
  shape_ok g → in_grid g (0, 0) → links_closed g →
  queue s = [] → calls_ok s →
  ∃ n s2, dijkstra_inv g s2 ∧ queue s2 = [] ∧
    ∀ fuel, (n ≤ fuel)%nat →
      solve fuel s =
      if decide (dist s2 t = 10000) then Returns ([], s2)
      else path ← recover_path fuel s2; Returns (path, s2).
Proof.
  intros g t Hs Hin0 Hcl Hq Hcalls.
  destruct (initialize_spec s Hs Hin0) as (s1 & Hinit & Hm1 & Hq1 & Hc1 & Hd0 & Hd & _).
  assert (Hs1 : shape_ok (grid s1)) by (by eapply same_maze_shape).
  assert (Hin1 : in_grid (grid s1) (0, 0)) by (by apply (same_maze_in_grid g)).
  set (s1' := add_to_queue (0, 0) 0 s1).
  assert (Hinv : dijkstra_inv g s1').
  { split_and!.
    - done.
    - done.
    - intros c Hc. destruct (decide (c = (0, 0))) as [->|Hne].
      + unfold s1', dist in *. simpl. lia.
      + unfold s1', dist in *. simpl. rewrite (Hd c Hc Hne). lia.
    - intros c Hc Hlt. destruct (decide (c = (0, 0))) as [->|Hne].
      + exists [(0, 0)]. split; [done|]. unfold s1', dist in *. simpl. by rewrite Hd0.
      + unfold s1', dist in *. simpl in *. rewrite (Hd c Hc Hne) in Hlt. lia.
    - intros c Hc Hlt. destruct (decide (c = (0, 0))) as [->|Hne].
      + left. apply add_to_queue_cells. by left.
      + unfold s1', dist in *. simpl in *. rewrite (Hd c Hc Hne) in Hlt. lia.
    - intros c [->|Hc]%add_to_queue_cells; [done|].
      rewrite Hq1, Hq in Hc. by apply elem_of_nil in Hc.
    - intros c1 c2 w. unfold s1'. simpl. rewrite Hc1. intros Hin.
      destruct (Hcalls c1 c2 w Hin) as [Hl ->]. split; [|done].
      by apply (same_maze_linked g). }
  destruct (solve_loop_runs g Hcl (S (dijkstra_measure g s1')) s1' Hinv ltac:(lia))
    as (s2 & Hloop & Hinv2 & Hq2).
  exists (S (dijkstra_measure g s1')), s2. split_and!; try done.
  intros fuel Hfuel. unfold solve. rewrite Hinit. simpl.
  rewrite (shape_get_cell (grid s1)) by done.
  rewrite decide_True by done. simpl. fold s1'.
  rewrite (solve_loop_fuel_mono _ fuel _ _ Hfuel Hloop). simpl.
  assert (Hm2 : same_maze g (grid s2)) by apply Hinv2.
  rewrite (shape_get_cell (grid s2)) by (by eapply same_maze_shape).
  destruct Hm2 as (HR & HC & _). rewrite HR, HC.
  rewrite decide_True; [done|].
  apply (same_maze_in_grid g); [apply Hinv2|]. by apply in_grid_target.
Qed.

(** Without any assumption on the symmetry of links, [recover_path] still
    returns: distances fall along its steps. *)
Lemma recover_loop_returns g0 s :
  links_closed g0 → dijkstra_inv g0 s →
  ∀ (k : nat) t acc fuel,
    in_grid g0 t → dist s t ≤ Z.of_nat k → (k < fuel)%nat →
    ∃ r, recover_loop fuel (grid s) t acc = Returns r.
Proof.
  intros Hcl (Hm & H0 & Hrange & _).
  induction k as [|k IH]; intros t acc fuel Ht Hd Hfuel;
    (destruct fuel as [|fuel]; [lia|]); simpl.
  - case_decide; [by eexists|].
    destruct (filter _ _) as [|n rest] eqn:Hf; [by eexists|].
    assert (Hn : n ∈ n :: rest) by set_solver.
    rewrite <- Hf in Hn. apply list_elem_of_filter in Hn as [Hlt Hl].
    assert (in_grid g0 n).
    { apply (proj2 (Hcl t) n Ht). unfold linked.
      destruct Hm as (_ & _ & _ & Hlinks). by rewrite <- Hlinks. }
    pose proof (Hrange n ltac:(done)). unfold dist in *. lia.
  - case_decide; [by eexists|].
    destruct (filter _ _) as [|n rest] eqn:Hf; [by eexists|].
    destruct (min_by_spec (λ n, distance (heap (grid s) n)) n rest) as [Hmin_in Hmin_le].
    set (m := min_by _ n rest) in *.
    rewrite <- Hf in Hmin_in. apply list_elem_of_filter in Hmin_in as [Hlt Hl].
    apply IH; [|unfold dist in *; lia|lia].
    apply (proj2 (Hcl t) m Ht). unfold linked.
    destruct Hm as (_ & _ & _ & Hlinks). by rewrite <- Hlinks.
Qed.

(** [solve] returns on every grid with a first cell, and what it asked of
    [weight] is recorded in the solver it leaves. *)
Lemma solve_returns s :
  let g := grid s in
  shape_ok g → in_grid g (0, 0) → links_closed g →
  queue s = [] → calls_ok s →
  ∃ n p s', (∀ fuel, (n ≤ fuel)%nat → solve fuel s = Returns (p, s')) ∧
            same_maze g (grid s') ∧ calls_ok s'.
Proof.
  intros g Hs Hin0 Hcl Hq Hcalls.
  destruct (solve_unfold s Hs Hin0 Hcl Hq Hcalls) as (n & s2 & Hinv & Hq2 & Hsolve).
  set (t := (num_rows g - 1, num_cols g - 1)) in *.
  assert (Ht : in_grid g t) by (by apply in_grid_target).
  assert (Hm2 : same_maze g (grid s2)) by apply Hinv.
  assert (Hc2 : calls_ok s2) by apply Hinv.
  destruct (decide (dist s2 t = 10000)) as [Heq|Hne].
  - exists n, [], s2. split_and!; try done.
    intros fuel Hfuel. rewrite (Hsolve fuel Hfuel). by rewrite ?decide_True by done.
  - assert (Hr : 0 ≤ dist s2 t ≤ 10000) by (by apply Hinv).
    destruct (recover_loop_returns g s2 Hcl Hinv (Z.to_nat (dist s2 t)) t []
                (S (Z.to_nat (dist s2 t))) Ht ltac:(lia) ltac:(lia)) as (r & Hrec).
    exists (n `max` S (Z.to_nat (dist s2 t)))%nat, (reverse r), s2.
    split_and!; try done.
    intros fuel Hfuel. rewrite (Hsolve fuel ltac:(lia)). rewrite ?decide_False by done.
    unfold recover_path.
    rewrite (shape_get_cell (grid s2)) by (by eapply same_maze_shape).
    destruct Hm2 as (HR & HC & _). rewrite HR, HC. fold g t.
    rewrite decide_True by (by apply (same_maze_in_grid g); [apply Hinv|]). simpl.
    by rewrite (recover_loop_fuel_mono (S (Z.to_nat (dist s2 t))) fuel _ _ _ _ ltac:(lia) Hrec).
Qed.

(** On symmetric links [solve] finds a shortest walk, or nothing when the
    target is 10000 links or more away. *)
Lemma solve_spec s :
  let g := grid s in
  let t := (num_rows g - 1, num_cols g - 1) in
  shape_ok g → in_grid g (0, 0) → links_closed g → links_symmetric g →
  queue s = [] → calls_ok s →
  ∃ n p s', (∀ fuel, (n ≤ fuel)%nat → solve fuel s = Returns (p, s')) ∧
    same_maze g (grid s') ∧
    ((p = [] ∧ ∀ q, walk_from_to g (0, 0) t q → 10000 ≤ edges q) ∨
     (walk_from_to g (0, 0) t p ∧ NoDup p ∧ edges p < 10000 ∧
      ∀ q, walk_from_to g (0, 0) t q → edges p ≤ edges q)).
Proof.
  intros g t Hs Hin0 Hcl Hsym Hq Hcalls.
  destruct (solve_unfold s Hs Hin0 Hcl Hq Hcalls) as (n & s2 & Hinv & Hq2 & Hsolve).
  fold g t in Hsolve.
  assert (Ht : in_grid g t) by (by apply in_grid_target).
  assert (Hm2 : same_maze g (grid s2)) by apply Hinv.
  pose proof (dijkstra_final_le g s2 Hcl Hin0 Hinv Hq2) as Hfinal.
  destruct (decide (dist s2 t = 10000)) as [Heq|Hne].
  - exists n, [], s2. split; [|split; [done|]].
    + intros fuel Hfuel. rewrite (Hsolve fuel Hfuel). by rewrite ?decide_True by done.
    + left. split; [done|]. intros q Hwq. destruct (Hfinal q t Hwq). lia.
  - assert (Hr : 0 ≤ dist s2 t ≤ 10000) by (by apply Hinv).
    destruct (recover_loop_spec g s2 Hcl Hsym Hin0 Hinv Hq2 (Z.to_nat (dist s2 t)) t []
                (S (Z.to_nat (dist s2 t))) Ht ltac:(lia) ltac:(lia) ltac:(lia))
      as (r & Hrec & Hwalk & Hedges & Hdr & Hnd).
    exists (n `max` S (Z.to_nat (dist s2 t)))%nat, (reverse r), s2.
    split; [|split; [done|]].
    + intros fuel Hfuel. rewrite (Hsolve fuel ltac:(lia)). rewrite ?decide_False by done.
      unfold recover_path.
      rewrite (shape_get_cell (grid s2)) by (by eapply same_maze_shape).
      destruct Hm2 as (HR & HC & _). rewrite HR, HC. fold g t.
      rewrite decide_True by (by apply (same_maze_in_grid g); [apply Hinv|]). simpl.
      by rewrite (recover_loop_fuel_mono (S (Z.to_nat (dist s2 t))) fuel _ _ _ _ ltac:(lia) Hrec).
    + right. assert (He : edges (reverse r) = dist s2 t).
      { unfold edges in *. rewrite length_reverse. lia. }
      split_and!; [done|by rewrite reverse_Permutation|lia|].
      intros q Hwq. destruct (Hfinal q t Hwq). lia.
Qed.

(** * Part V: claims about the two solvers *)

Lemma no_links_closed g : (∀ c, links (heap g c) = []) → links_closed g.
Proof.
  intros Hno a. rewrite Hno. split; [constructor|].
  intros b _ Hb. unfold linked in Hb. rewrite Hno in Hb. by apply elem_of_nil in Hb.
Qed.

Lemma no_links_symmetric g : (∀ c, links (heap g c) = []) → links_symmetric g.
Proof.
  intros Hno a b Hb. unfold linked in Hb. rewrite Hno in Hb. by apply elem_of_nil in Hb.
Qed.

Lemma no_links_walk g a b p :
  (∀ c, links (heap g c) = []) → walk_from_to g a b p → a = b.
Proof.
  intros Hno (Hh & Hl & Hw). destruct p as [|x [|y q]]; simpl in *.
  - done.
  - congruence.
  - destruct Hw as [Hxy _]. unfold linked in Hxy. rewrite Hno in Hxy.
    by apply elem_of_nil in Hxy.
Qed.

Lemma link_closed a b g :
  in_grid g a → in_grid g b → links_closed g → links_closed (link a b true g).
Proof.
  intros Ha Hb Hcl x. split.
  - apply link_NoDup, Hcl.
  - intros y Hx [Hxy|[[-> ->]|[-> ->]]]%link_linked; try done.
    by apply (proj2 (Hcl x) y).
Qed.

Lemma link_symmetric a b g : links_symmetric g → links_symmetric (link a b true g).
Proof.
  intros Hsym x y. rewrite !link_linked. intros [Hxy|[[-> ->]|[-> ->]]]; auto.
Qed.

Lemma example_1x2_closed : links_closed example_1x2.
Proof.
  destruct (Grid_init_fresh 1 2) as (g & Hg & HR & HC & Hs & Hw & Hf).
  unfold example_1x2. rewrite Hg. simpl.
  apply link_closed.
  - unfold in_grid. rewrite HR, HC. simpl. lia.
  - unfold in_grid. rewrite HR, HC. simpl. lia.
  - apply no_links_closed. intros c. apply Hf.
Qed.

Lemma example_1x2_shape : shape_ok example_1x2 ∧ in_grid example_1x2 (0, 0).
Proof.
  destruct (Grid_init_fresh 1 2) as (g & Hg & HR & HC & Hs & Hw & Hf).
  unfold example_1x2. rewrite Hg. simpl. split; [done|].
  unfold in_grid. simpl. rewrite HR, HC. simpl. lia.
Qed.

(** C6, as the specification states it, fails on the code: [initialize]
    writes distances only.  After one [solve] on a linked 1×2 grid the cell
    (0, 1) has predecessor (0, 0), and the initialization of the next solve
    leaves it there. *)
Lemma C6_predecessor_not_reset :
  ∃ s', initialize example_solved = Returns s' ∧
        (0, 1) ∈ all_cells (grid s') ∧
        previous (heap (grid s') (0, 1)) = Some (0, 0).
Proof.
  assert (Hs : shape_ok (grid example_solved)) by (vm_compute; reflexivity).
  assert (Hin : in_grid (grid example_solved) (0, 0)) by (vm_compute; intuition discriminate).
  destruct (initialize_spec example_solved Hs Hin) as (s' & Hinit & Hm & _ & _ & _ & _ & Hp).
  exists s'. split; [done|]. split.
  - rewrite (same_maze_all_cells _ _ Hm).
    assert (all_cells (grid example_solved) = [(0, 0); (0, 1)]) as ->
      by (vm_compute; reflexivity).
    apply elem_of_cons. right. apply elem_of_cons. by left.
  - rewrite Hp. vm_compute. reflexivity.
Qed.

(** C6 (amended): at the start of every weighted solve on a grid with at
    least one node, the initialization sets the distance of every node to
    the sentinel 10000, except the start node (0, 0), whose distance is set
    to 0; it leaves every predecessor as it was.  On a grid without nodes
    it raises [AttributeError]. *)
Theorem C6_initialize (s : DjikstraSolver) :
  shape_ok (grid s) →
  (1 ≤ num_rows (grid s) ∧ 1 ≤ num_cols (grid s) →
   ∃ s', initialize s = Returns s' ∧
     distance (heap (grid s') (0, 0)) = 0 ∧
     (∀ c, c ∈ all_cells (grid s) → c ≠ (0, 0) →
        distance (heap (grid s') c) = 10000) ∧
     (∀ c, previous (heap (grid s') c) = previous (heap (grid s) c))) ∧
  (num_rows (grid s) ≤ 0 ∨ num_cols (grid s) ≤ 0 →
   initialize s = Raises AttributeError).
Proof.
  intros Hs. split.
  - intros [HR HC].
    assert (Hin : in_grid (grid s) (0, 0)) by (unfold in_grid; simpl; lia).
    destruct (initialize_spec s Hs Hin) as (s' & Hinit & Hm & _ & _ & Hd0 & Hd & Hp).
    exists s'. split_and!; try done.
    intros c Hc Hne. apply Hd; [|done]. by apply shape_elem_of_all_cells.
  - intros Hle. unfold initialize.
    assert (all_cells (grid s) = []) as ->.
    { apply length_zero_iff_nil. rewrite shape_length_all_cells by done.
      destruct Hle; [replace (Z.to_nat (num_rows (grid s))) with 0%nat by lia|
                     replace (Z.to_nat (num_cols (grid s))) with 0%nat by lia]; lia. }
    cbn [foldl]. rewrite (shape_get_cell (grid s) 0 0 Hs), decide_False; [done|].
    unfold in_grid. simpl. lia.
Qed.

Lemma C6_initialize_witness :
  ∃ s', initialize (DjikstraSolver_init example_1x2) = Returns s' ∧
        distance (heap (grid s') (0, 0)) = 0 ∧
        distance (heap (grid s') (0, 1)) = 10000.
Proof.
  destruct (C6_initialize (DjikstraSolver_init example_1x2)) as [Hok _].
  - apply example_1x2_shape.
  - destruct Hok as (s' & Hi & H0 & Hd & _).
    + split; vm_compute; discriminate.
    + exists s'. split; [exact Hi|]. split; [exact H0|].
      apply Hd; [|discriminate].
      assert (all_cells (grid (DjikstraSolver_init example_1x2)) = [(0, 0); (0, 1)])
        as -> by (vm_compute; reflexivity).
      apply elem_of_cons. right. apply elem_of_cons. by left.
Defined.

(** C8: during a weighted solve, every call of [weight] is on a linked pair
    and returns 1; the branch for unlinked pairs is never taken. *)
Theorem C8_weight_calls (s : DjikstraSolver) :
  shape_ok (grid s) → in_grid (grid s) (0, 0) → links_closed (grid s) →
  queue s = [] → weight_calls s = [] →
  ∃ n p s', (∀ fuel, (n ≤ fuel)%nat → solve fuel s = Returns (p, s')) ∧
    ∀ c1 c2 w, (c1, c2, w) ∈ weight_calls s' →
      linked (grid s) c1 c2 ∧ w = 1 ∧ w ≠ 10000.
Proof.
  intros Hs Hin Hcl Hq Hcalls.
  destruct (solve_returns s Hs Hin Hcl Hq) as (n & p & s' & Hsolve & Hm & Hok).
  { intros c1 c2 w. rewrite Hcalls. intros H. by apply elem_of_nil in H. }
  exists n, p, s'. split; [done|]. intros c1 c2 w Hc.
  destruct (Hok c1 c2 w Hc) as [Hl ->]. split_and!; [|done|done].
  by apply (same_maze_linked (grid s) (grid s')).
Qed.

Lemma C8_weight_calls_witness :
  ∃ n p s', (∀ fuel, (n ≤ fuel)%nat →
               solve fuel (DjikstraSolver_init example_1x2) = Returns (p, s')) ∧
    ∀ c1 c2 w, (c1, c2, w) ∈ weight_calls s' →
      linked example_1x2 c1 c2 ∧ w = 1 ∧ w ≠ 10000.
Proof.
  apply (C8_weight_calls (DjikstraSolver_init example_1x2)).
  - apply example_1x2_shape.
  - apply example_1x2_shape.
  - apply example_1x2_closed.
  - reflexivity.
  - reflexivity.
Defined.

(** C7: on a grid on which no generator has run, solving between two
    distinct nodes returns the not-found result for both solvers ([None]
    for the traversal, the empty list for the weighted solver) and neither
    raises. *)
Theorem C7_no_links_not_found (R C : Z) (g : Grid) (A B : cell) :
  Grid_init R C = Returns g → in_grid g A → in_grid g B → A ≠ B →
  (∀ fuel, solve_maze (S (S fuel)) g A B = Returns None) ∧
  (num_rows g - 1, num_cols g - 1) ≠ (0, 0) ∧
  ∃ n s', ∀ fuel, (n ≤ fuel)%nat →
    solve fuel (DjikstraSolver_init g) = Returns ([], s').
Proof.
  intros Hg HA HB Hne.
  destruct (Grid_init_fresh R C) as (g' & Hg' & HR & HC & Hs & Hw & Hf).
  rewrite Hg in Hg'. injection Hg' as <-.
  assert (Hno : ∀ c, links (heap g c) = []) by (intros c; apply Hf).
  assert (Hin0 : in_grid g (0, 0)).
  { unfold in_grid in *. simpl. lia. }
  assert (Hdist : (num_rows g - 1, num_cols g - 1) ≠ (0, 0)).
  { intros [= Hr Hc]. apply Hne. destruct A, B. unfold in_grid in *. simpl in *.
    f_equal; lia. }
  split_and!; [|done|].
  - intros fuel. by apply solve_maze_no_links.
  - destruct (solve_spec (DjikstraSolver_init g) Hs Hin0 (no_links_closed g Hno)
                (no_links_symmetric g Hno) eq_refl)
      as (n & p & s' & Hsolve & _ & [[-> _]|(Hwalk & _)]).
    { intros c1 c2 w H. by apply elem_of_nil in H. }
    + by exists n, s'.
    + simpl in Hwalk. apply (no_links_walk g) in Hwalk; [|done]. by destruct Hdist.
Qed.

Lemma C7_no_links_not_found_witness :
  ∃ g, Grid_init 2 2 = Returns g ∧
    solve_maze 2 g (0, 0) (1, 1) = Returns None ∧
    ∃ n s', ∀ fuel, (n ≤ fuel)%nat →
      solve fuel (DjikstraSolver_init g) = Returns ([], s').
Proof.
  destruct (Grid_init_fresh 2 2) as (g & Hg & HR & HC & _).
  exists g. split; [exact Hg|].
  destruct (C7_no_links_not_found 2 2 g (0, 0) (1, 1) Hg) as (Hdfs & _ & Hdij).
  - unfold in_grid. rewrite HR, HC. simpl. lia.
  - unfold in_grid. rewrite HR, HC. simpl. lia.
  - discriminate.
  - split; [apply Hdfs|exact Hdij].
Defined.

(** * Part VI: walks, reachability and cycles *)

Lemma is_walk_app g p q :
  is_walk g (p ++ q) ↔
  is_walk g p ∧ is_walk g q ∧
  (∀ x y, last p = Some x → head q = Some y → linked g x y).
Proof.
  induction p as [|a p IH]; simpl.
  - split; [intros ?; split_and!; done|by intros (_ & ? & _)].
  - destruct p as [|b p]; simpl in *.
    + destruct q as [|c q]; simpl.
      * split; [intros _; split_and!; done|done].
      * split.
        -- intros [Hac Hq]. split_and!; try done. by intros ?? [= <-] [= <-].
        -- intros (_ & Hq & Hl). split; [|done]. by apply Hl.
    + rewrite IH. split.
      * intros (Hab & Hp & Hq & Hl). split_and!; done.
      * intros ((Hab & Hp) & Hq & Hl). split_and!; done.
Qed.

Lemma reachable_refl g a : reachable g a a.
Proof. by exists [a]. Qed.

Lemma reachable_step g a b : linked g a b → reachable g a b.
Proof. intros Hl. by exists [a; b]. Qed.

Lemma reachable_snoc g a b c : reachable g a b → linked g b c → reachable g a c.
Proof.
  intros (p & Hp) Hl. exists (p ++ [c]).
  by apply (walk_from_to_snoc g a b c p).
Qed.

Lemma reachable_trans g a b c : reachable g a b → reachable g b c → reachable g a c.
Proof.
  intros Hab (q & Hh & Hl & Hw). revert c Hl.
  induction q as [|x q IH] using rev_ind; intros c Hl; [done|].
  rewrite last_snoc in Hl. injection Hl as ->.
  destruct q as [|y q].
  - simpl in Hh. by simplify_eq.
  - destruct (last (y :: q)) as [c'|] eqn:Hc'; [|by apply last_None in Hc'].
    destruct (is_walk_snoc_inv g (y :: q) c' c Hc' Hw) as [Hwq Hlk].
    eapply reachable_snoc; [|exact Hlk]. by apply IH.
Qed.

Lemma is_walk_reverse g p : links_symmetric g → is_walk g p → is_walk g (reverse p).
Proof.
  intros Hsym. induction p as [|a p IH]; [done|].
  intros Hw. rewrite reverse_cons. destruct p as [|b p]; [done|].
  destruct Hw as [Hab Hw]. apply is_walk_app. split_and!; [by apply IH|done|].
  intros x y Hx [= <-]. rewrite last_reverse in Hx. injection Hx as <-. by apply Hsym.
Qed.

Lemma reachable_sym g a b : links_symmetric g → reachable g a b → reachable g b a.
Proof.
  intros Hsym (p & Hh & Hl & Hw). exists (reverse p). split_and!.
  - by rewrite head_reverse.
  - by rewrite last_reverse.
  - by apply is_walk_reverse.
Qed.

Lemma is_walk_mono g g' p :
  (∀ x y, linked g x y → linked g' x y) → is_walk g p → is_walk g' p.
Proof.
  intros Hsub. induction p as [|a [|b p] IH]; try done.
  intros [Hab Hw]. split; [by apply Hsub|by apply IH].
Qed.

Lemma reachable_mono g g' a b :
  (∀ x y, linked g x y → linked g' x y) → reachable g a b → reachable g' a b.
Proof.
  intros Hsub (p & Hh & Hl & Hw). exists p. split_and!; try done.
  by eapply is_walk_mono.
Qed.

Lemma reachable_link a b g x y : reachable g x y → reachable (link a b true g) x y.
Proof. apply reachable_mono. intros ???. apply link_linked. by left. Qed.

Lemma reachable_link_ends a b g : reachable (link a b true g) a b.
Proof. apply reachable_step, link_linked. right. by left. Qed.

(** A set closed under links holds whatever is reachable from its members. *)
Lemma reachable_closed g (S : cell → Prop) a b :
  (∀ v w, S v → linked g v w → S w) → S a → reachable g a b → S b.
Proof.
  intros Hcl Ha (p & Hh & Hl & Hw).
  apply (walk_closed g S p Hcl Hw); [|by apply last_elem_of].
  intros a' Ha'. rewrite Hh in Ha'. by injection Ha' as <-.
Qed.

(** Nothing but itself reaches a cell that no cell links to. *)
Lemma reachable_isolated g a b :
  (∀ x, ¬ linked g x b) → reachable g a b → a = b.
Proof.
  intros Hiso Hr. destruct (decide (a = b)) as [|Hne]; [done|].
  exfalso. apply (reachable_closed g (λ x, x ≠ b) a b); try done.
  intros v w _ Hvw ->. by eapply Hiso.
Qed.

(** *** Adding a link between two components *)

Lemma walk_link_split a b g p :
  is_walk (link a b true g) p →
  is_walk g p ∨ ∃ p1 x y p2, p = p1 ++ x :: y :: p2 ∧ new_link a b x y.
Proof.
  induction p as [|x [|y q] IH]; [by left..|].
  intros [Hxy Hw]. destruct (IH Hw) as [Hq|(p1 & x' & y' & p2 & -> & Hnew)].
  - apply link_linked in Hxy as [Hxy|Hnew].
    + by left.
    + right. exists [], x, y, q. split; [done|]. unfold new_link. tauto.
  - right. exists (x :: p1), x', y', p2. done.
Qed.

Lemma walk_link_avoid a b g y p :
  y = a ∨ y = b → y ∉ p → is_walk (link a b true g) p → is_walk g p.
Proof.
  intros Hy. induction p as [|u [|v q] IH]; try done.
  intros Hnin [Huv Hw]. split.
  - apply link_linked in Huv as [Huv|[[-> ->]|[-> ->]]]; [done|set_solver..].
  - apply IH; [set_solver|done].
Qed.

(** A duplicate-free walk of three cells or more between the two ends of
    the new link does not take the new link. *)
Lemma walk_link_between a b g x y p :
  NoDup p → (3 ≤ length p)%nat → head p = Some y → last p = Some x →
  new_link a b x y → is_walk (link a b true g) p → is_walk g p.
Proof.
  intros Hnd Hlen Hh Hl Hnew Hw.
  destruct p as [|y' [|v [|w q]]]; simpl in Hlen; try lia.
  simpl in Hh. injection Hh as ->.
  apply NoDup_cons in Hnd as [Hy Hnd].
  destruct Hw as [Hyv Hw]. split.
  - apply link_linked in Hyv as [Hyv|Hyv]; [done|].
    exfalso. assert (Hvy : v ≠ y) by (intros ->; apply Hy; apply elem_of_cons; by left).
    assert (v = x) as ->.
    { unfold new_link in *. destruct Hnew as [[? ?]|[? ?]], Hyv as [[? ?]|[? ?]];
        congruence. }
    apply NoDup_cons in Hnd as [Hx _]. apply Hx.
    rewrite !last_cons_cons in Hl. by apply last_elem_of.
  - apply (walk_link_avoid a b g y); [|done|done].
    unfold new_link in Hnew. tauto.
Qed.

Lemma link_acyclic a b g :
  links_symmetric g → acyclic g → ¬ reachable g a b → acyclic (link a b true g).
Proof.
  intros Hsym Hac Hnr p (Hnd & Hlen & Hw & h & l & Hh & Hl & Hclose).
  assert (Hreach : ∀ x y, new_link a b x y → reachable g y x → False).
  { intros x y [[-> ->]|[-> ->]] Hr; [by apply Hnr, reachable_sym|done]. }
  destruct (walk_link_split a b g p Hw) as [Hwg|(p1 & x & y & p2 & -> & Hnew)].
  - apply link_linked in Hclose as [Hclose|Hnew].
    + apply (Hac p). split_and!; try done. by exists h, l.
    + apply (Hreach l h); [unfold new_link in *; tauto|]. by exists p.
  - set (W := (y :: p2) ++ (p1 ++ [x])).
    replace (p1 ++ x :: y :: p2) with ((p1 ++ [x]) ++ (y :: p2)) in *
      by (by rewrite <- app_assoc).
    apply is_walk_app in Hw as (Hw1 & Hw2 & Hj).
    assert (HW : is_walk (link a b true g) W).
    { apply is_walk_app. split_and!; try done.
      intros u v Hu Hv. rewrite last_app in Hl. rewrite Hu in Hl. injection Hl as ->.
      rewrite head_app in Hh. rewrite Hv in Hh. by injection Hh as ->. }
    apply (Hreach x y Hnew). exists W. split_and!.
    + done.
    + unfold W. by rewrite last_app, last_snoc.
    + apply (walk_link_between a b g x y); try done.
      * unfold W. by rewrite (comm (++)).
      * unfold W. rewrite length_app in *. lia.
      * unfold W. by rewrite last_app, last_snoc.
Qed.

(** *** Rotating a cycle *)

Lemma cycle_rotate g p1 p2 : is_cycle g (p1 ++ p2) → is_cycle g (p2 ++ p1).
Proof.
  intros (Hnd & Hlen & Hw & h & l & Hh & Hl & Hclose).
  destruct p1 as [|a p1]; [by rewrite app_nil_r; repeat split; eauto|].
  destruct p2 as [|b p2] using rev_ind; [by simpl in *; rewrite app_nil_r in *; repeat split; eauto|].
  clear IHp2.
  apply is_walk_app in Hw as (Hw1 & Hw2 & Hj).
  simpl in Hh. injection Hh as ->. rewrite last_app, last_snoc in Hl. injection Hl as ->.
  split_and!.
  - by rewrite (comm (++)).
  - rewrite length_app in *. lia.
  - apply is_walk_app. split_and!; try done.
    intros x y Hx Hy. rewrite last_snoc in Hx. simpl in Hy. by simplify_eq.
  - destruct (last (h :: p1)) as [z|] eqn:Hz; [|by apply last_None in Hz].
    destruct (head (p2 ++ [l])) as [w|] eqn:Hw'; [|by apply head_None in Hw'; destruct p2].
    exists w, z. split_and!.
    + by rewrite head_app, Hw'.
    + by rewrite last_app, Hz.
    + by apply Hj.
Qed.

Lemma list_min_elem (rk : cell → Z) (p : list cell) :
  p ≠ [] → ∃ v, v ∈ p ∧ ∀ u, u ∈ p → rk v ≤ rk u.
Proof.
  induction p as [|a p IH]; [done|]. intros _.
  destruct p as [|b p].
  - exists a. split; [set_solver|]. intros u ->%list_elem_of_singleton. lia.
  - destruct IH as (v & Hv & Hmin); [done|].
    destruct (decide (rk a ≤ rk v)).
    + exists a. split; [set_solver|]. intros u [->|Hu]%elem_of_cons; [lia|].
      specialize (Hmin u Hu). lia.
    + exists v. split; [set_solver|]. intros u [->|Hu]%elem_of_cons; [lia|].
      by apply Hmin.
Qed.

(** *** Acyclicity from a rank

    If every link changes the rank by one and no cell has two linked cells
    above it, there is no cycle: the lowest cell of a cycle would have two. *)
Lemma rank_acyclic g (rk : cell → Z) :
  links_symmetric g →
  (∀ x y, linked g x y → rk y = rk x + 1 ∨ rk y = rk x - 1) →
  (∀ x y z, linked g x y → linked g x z →
     rk y = rk x + 1 → rk z = rk x + 1 → y = z) →
  acyclic g.
Proof.
  intros Hsym Hstep Huniq p Hcyc.
  assert (Hne : p ≠ []).
  { destruct Hcyc as (_ & Hlen & _). destruct p; [simpl in Hlen; lia|done]. }
  destruct (list_min_elem rk p Hne) as (v & Hv & Hmin).
  apply list_elem_of_split in Hv as (p1 & p2 & ->).
  apply cycle_rotate in Hcyc. simpl in Hcyc.
  destruct Hcyc as (Hnd & Hlen & Hw & h & l & Hh & Hl & Hclose).
  simpl in Hh. injection Hh as <-.
  destruct (p2 ++ p1) as [|s [|s' q]] eqn:Hq; simpl in Hlen; try lia.
  destruct Hw as [Hvs _].
  rewrite !last_cons_cons in Hl.
  assert (Hlin : l ∈ s' :: q) by (by apply last_elem_of).
  assert (Hsl : s ≠ l).
  { intros ->. apply NoDup_cons in Hnd as [_ Hnd]. apply NoDup_cons in Hnd as [Hnd _]. done. }
  assert (Hin : ∀ u, u ∈ s :: s' :: q → u ∈ p1 ++ v :: p2).
  { intros u Hu. rewrite <- Hq in Hu. set_solver. }
  assert (Hvl : linked g v l) by (by apply Hsym).
  apply Hsl. apply (Huniq v); try done.
  - specialize (Hmin s (Hin s ltac:(set_solver))). destruct (Hstep v s Hvs); lia.
  - specialize (Hmin l (Hin l ltac:(set_solver))). destruct (Hstep v l Hvl); lia.
Qed.

(** *** Simple walks in an acyclic maze *)

Lemma walk_from_to_app g a b c p q :
  walk_from_to g a b p → walk_from_to g b c q →
  walk_from_to g a c (p ++ tail q).
Proof.
  intros (Hh & Hl & Hw) (Hh' & Hl' & Hw').
  destruct q as [|b' q]; [done|]. simpl in Hh'. injection Hh' as ->. simpl.
  split_and!.
  - destruct p; [done|]. done.
  - destruct q as [|y q]; [rewrite app_nil_r; simpl in Hl'; congruence|].
    rewrite last_cons_cons in Hl'. rewrite last_app. by rewrite Hl'.
  - apply is_walk_app. split_and!; [done|by eapply is_walk_tail|].
    intros x y Hx Hy. destruct q as [|y' q]; [done|]. simpl in Hy.
    destruct Hw' as [Hby _]. by simplify_eq.
Qed.

Lemma walk_from_to_reverse g a b p :
  links_symmetric g → walk_from_to g a b p → walk_from_to g b a (reverse p).
Proof.
  intros Hsym (Hh & Hl & Hw). split_and!.
  - by rewrite head_reverse.
  - by rewrite last_reverse.
  - by apply is_walk_reverse.
Qed.

(** Every walk contains a walk between the same ends that repeats no cell. *)
Lemma walk_to_simple g p :
  ∀ a b, walk_from_to g a b p →
  ∃ q, walk_from_to g a b q ∧ NoDup q ∧ ∀ x, x ∈ q → x ∈ p.
Proof.
  induction p as [|a' p IH]; intros a b (Hh & Hl & Hw); [done|].
  simpl in Hh. injection Hh as ->.
  destruct p as [|c p].
  - simpl in Hl. injection Hl as <-. exists [a].
    split_and!; [done|apply NoDup_singleton|done].
  - destruct Hw as [Hac Hw]. rewrite last_cons_cons in Hl.
    destruct (IH c b) as (q & (Hqh & Hql & Hqw) & Hnd & Hsub); [done|].
    destruct (decide (a ∈ q)) as [Hin|Hnin].
    + apply list_elem_of_split in Hin as (q1 & q2 & ->).
      exists (a :: q2). split; [split_and!|split].
      * done.
      * by rewrite last_app_cons in Hql.
      * apply is_walk_app in Hqw. tauto.
      * apply NoDup_app in Hnd. tauto.
      * intros x Hx. apply elem_of_cons in Hx as [->|Hx]; [set_solver|].
        apply elem_of_cons. right. apply Hsub. set_solver.
    + exists (a :: q). split; [split_and!|split].
      * done.
      * destruct q as [|c' q]; [done|]. by rewrite last_cons_cons.
      * destruct q as [|c' q]; [done|]. simpl in Hqh. injection Hqh as ->. done.
      * by apply NoDup_cons.
      * intros x [->|Hx]%elem_of_cons; [set_solver|]. apply elem_of_cons. right. by apply Hsub.
Qed.

(** Without a cycle, two cells are joined by at most one simple walk. *)
Lemma acyclic_unique_walk g :
  links_symmetric g → acyclic g →
  ∀ p q a b, walk_from_to g a b p → NoDup p → walk_from_to g a b q → NoDup q → p = q.
Proof.
  intros Hsym Hac. induction p as [|a' p IH]; intros q a b Hp Hndp Hq Hndq.
  { by destruct Hp as ([=] & _). }
  destruct Hp as (Hh & Hl & Hw). simpl in Hh. injection Hh as ->.
  destruct q as [|a' q]; [by destruct Hq as ([=] & _)|].
  destruct Hq as (Hh' & Hl' & Hw'). simpl in Hh'. injection Hh' as ->.
  apply NoDup_cons in Hndp as [Hap Hndp]. apply NoDup_cons in Hndq as [Haq Hndq].
  destruct p as [|x p], q as [|y q].
  - done.
  - simpl in Hl. injection Hl as <-. rewrite last_cons_cons in Hl'.
    apply last_elem_of in Hl'. done.
  - simpl in Hl'. injection Hl' as <-. rewrite last_cons_cons in Hl.
    apply last_elem_of in Hl. done.
  - destruct Hw as [Hax Hw], Hw' as [Hay Hw'].
    rewrite last_cons_cons in Hl, Hl'.
    destruct (decide (x = y)) as [->|Hxy].
    + f_equal. by apply (IH (y :: q) y b).
    + exfalso.
      assert (Hxb : walk_from_to g x b (x :: p)) by done.
      assert (Hyb : walk_from_to g y b (y :: q)) by done.
      pose proof (walk_from_to_app g x b y _ _ Hxb
                    (walk_from_to_reverse g y b _ Hsym Hyb)) as Hxy'.
      destruct (walk_to_simple g _ x y Hxy') as (s & (Hsh & Hsl & Hsw) & Hsnd & Hsub).
      apply (Hac (a :: s)). split_and!.
      * apply NoDup_cons. split; [|done]. intros Has. apply Hsub in Has.
        apply elem_of_app in Has as [Has|Has]; [done|].
        apply Haq. apply elem_of_reverse.
        destruct (reverse (y :: q)); [by apply elem_of_nil in Has|].
        simpl in Has. set_solver.
      * destruct s as [|s1 [|s2 s]]; simpl in *; [done| |lia]. congruence.
      * destruct s as [|s1 s]; [done|]. simpl in Hsh. injection Hsh as ->. done.
      * exists a, y. split_and!; [done| |by apply Hsym].
        destruct s as [|s1 s]; [done|]. by rewrite last_cons_cons.
Qed.

(** * Part VII: the generators *)

(** *** Shared facts *)

Lemma random_choice_spec {A} (l : list A) r :
  l ≠ [] → ∃ x r', random_choice l r = Returns (x, r') ∧ x ∈ l.
Proof.
  intros Hne. unfold random_choice. simpl.
  assert (Hlt : (draws r (pos r) mod length l < length l)%nat).
  { apply Nat.mod_upper_bound. by destruct l. }
  destruct (lookup_lt_is_Some_2 l _ Hlt) as [x Hx]. rewrite Hx.
  eexists _, _. split; [done|]. by eapply list_elem_of_lookup_2.
Qed.

Lemma frame_link R C a b g : frame R C g → frame R C (link a b true g).
Proof. intros (? & ? & ? & ?). split_and!; try done. by apply link_wired. Qed.

Lemma frame_in_grid R C g x :
  frame R C g → in_grid g x ↔ 0 ≤ row x < R ∧ 0 ≤ col x < C.
Proof. intros (<- & <- & _). done. Qed.

Lemma frame_all_cells R C g x : frame R C g → x ∈ all_cells g ↔ in_grid g x.
Proof. intros (_ & _ & Hs & _). by apply shape_elem_of_all_cells. Qed.

Lemma frame_neighbor R C g x d :
  frame R C g → in_grid g x →
  get_neighbor g x d = if decide (in_grid g (step x d)) then Some (step x d) else None.
Proof. intros (_ & _ & _ & Hw) Hx. by apply Hw. Qed.

Lemma fresh_frame R C g : fresh_grid R C g → frame R C g.
Proof. intros (? & ? & ? & ? & _). done. Qed.

Lemma geometric_neighbors_ne a b : geometric_neighbors a b → a ≠ b.
Proof. unfold geometric_neighbors. intros H ->. lia. Qed.

(** Well-formed, symmetric, geometric links stay so when two neighbours of
    the grid are linked. *)
Lemma link_wf a b g :
  in_grid g a → in_grid g b → a ≠ b → links_wf g → links_wf (link a b true g).
Proof.
  intros Ha Hb Hne Hwf x. split.
  - apply link_NoDup, Hwf.
  - intros y [Hxy|[[-> ->]|[-> ->]]]%link_linked; [|done..].
    by apply (proj2 (Hwf x) y).
Qed.

Lemma link_geometric a b g :
  geometric_neighbors a b → links_geometric g → links_geometric (link a b true g).
Proof.
  intros Hab Hg x y [Hxy|[[-> ->]|[-> ->]]]%link_linked; [by apply Hg|done|].
  by apply geometric_neighbors_sym.
Qed.

Lemma links_wf_closed g : links_wf g → links_closed g.
Proof.
  intros Hwf a. split; [apply Hwf|]. intros b _ Hab.
  by destruct (proj2 (Hwf a) b Hab) as (_ & ? & _).
Qed.

(** *** Counting link ends *)

Lemma sum_list_with_update2 (f f' : cell → nat) (U : list cell) a b :
  NoDup U → a ∈ U → b ∈ U → a ≠ b →
  f' a = S (f a) → f' b = S (f b) → (∀ x, x ≠ a → x ≠ b → f' x = f x) →
  sum_list_with f' U = (sum_list_with f U + 2)%nat.
Proof.
  intros Hnd Ha Hb Hne Hfa Hfb Hf.
  set (f1 := λ x, if decide (x = a) then S (f a) else f x).
  assert (Hf1a : f1 a = S (f a)) by (unfold f1; by rewrite decide_True).
  assert (Hf1b : f1 b = f b) by (unfold f1; by rewrite decide_False).
  assert (E1 : (sum_list_with f1 U + f a = sum_list_with f U + f1 a)%nat).
  { apply sum_list_with_update; try done.
    intros x Hx. unfold f1. by rewrite decide_False. }
  assert (E2 : (sum_list_with f' U + f1 b = sum_list_with f1 U + f' b)%nat).
  { apply sum_list_with_update; try done.
    intros x Hx. unfold f1. case_decide; [by subst|by apply Hf]. }
  lia.
Qed.

Lemma link_ends_link a b g :
  shape_ok g → in_grid g a → in_grid g b → a ≠ b →
  ¬ linked g a b → ¬ linked g b a →
  link_ends (link a b true g) = (link_ends g + 2)%nat.
Proof.
  intros Hs Ha Hb Hne Hab Hba. unfold link_ends.
  change (all_cells (link a b true g)) with (all_cells g).
  apply (sum_list_with_update2 _ _ _ a b); try done.
  - by apply shape_NoDup_all_cells.
  - by apply shape_elem_of_all_cells.
  - by apply shape_elem_of_all_cells.
  - rewrite link_links. simpl. repeat case_decide; try congruence.
    by apply length_set_add.
  - rewrite link_links. simpl. repeat case_decide; try congruence.
    by apply length_set_add.
  - intros x Hxa Hxb. rewrite link_links. simpl. repeat case_decide; congruence.
Qed.

Lemma filter_all_in {A} (P : A → Prop) `{∀ x, Decision (P x)} (l : list A) :
  (∀ x, x ∈ l → P x) → filter P l = l.
Proof.
  induction l as [|a l IH]; intros HP; [done|].
  rewrite filter_cons, decide_True by (apply HP; set_solver).
  f_equal. apply IH. intros x Hx. apply HP. set_solver.
Qed.

Lemma length_filter_ne (U : list cell) n :
  NoDup U → n ∈ U → length U = S (length (filter (λ x, x ≠ n) U)).
Proof.
  intros Hnd. induction Hnd as [|a U Ha Hnd IH]; intros Hn.
  - by apply elem_of_nil in Hn.
  - rewrite filter_cons. apply elem_of_cons in Hn as [->|Hn].
    + rewrite decide_False by (intros ?; done). simpl. f_equal.
      f_equal. rewrite filter_all_in; [done|]. by intros x Hx ->.
    + rewrite decide_True by (by intros ->). simpl. by rewrite IH.
Qed.

(** *** Binary tree *)

Lemma step_twice_ne x d d' :
  (d = South ∨ d = East) → (d' = South ∨ d' = East) → step (step x d) d' ≠ x.
Proof.
  destruct x as [r c]. intros [-> | ->] [-> | ->]; unfold step; simpl; intros [=]; lia.
Qed.

Lemma step_ne x d : step x d ≠ x.
Proof. destruct x as [r c], d; unfold step; simpl; intros [=]; lia. Qed.

Lemma bt_inv_link R C l1 g r r' x chosen :
  bt_inv R C l1 (g, r) → in_grid g x → x ∉ l1 →
  chosen = step x South ∨ chosen = step x East → in_grid g chosen →
  bt_inv R C (l1 ++ [x]) (link x chosen true g, r').
Proof.
  intros (Hfr & Hwf & Hsym & Hgeo & Hnone & Hnotboth & Hsome & Hcount) Hx Hnin Hch Hchin.
  cbn [fst] in *.
  assert (Hxc : x ≠ chosen).
  { destruct Hch as [-> | ->]; intros Heq; symmetry in Heq; by apply step_ne in Heq. }
  assert (Hnl : ¬ linked g x chosen).
  { destruct (Hnone x Hnin). by destruct Hch as [-> | ->]. }
  assert (Hnl' : ¬ linked g chosen x) by (intros ?; by apply Hnl, Hsym).
  assert (K : ∀ y d, d = South ∨ d = East →
            linked (link x chosen true g) y (step y d) ↔
            linked g y (step y d) ∨ (y = x ∧ step x d = chosen)).
  { intros y d Hd. rewrite link_linked. split; [|naive_solver].
    intros [?|[[-> ?]|[-> Hback]]]; [by left|by right|].
    exfalso. destruct Hch as [-> | ->]; by eapply step_twice_ne in Hback; eauto. }
  assert (Hcorner : x ≠ corner R C).
  { intros ->. apply (frame_in_grid R C) in Hchin; [|done]. unfold corner in *.
    destruct Hch as [-> | ->]; simpl in Hchin; lia. }
  split_and!; cbn [fst].
  - by apply frame_link.
  - by apply link_wf.
  - by apply link_symmetric.
  - apply link_geometric; [|done]. destruct Hch as [-> | ->]; apply step_geometric.
  - intros y Hy. apply not_elem_of_app in Hy as [Hy Hyx%not_elem_of_cons].
    destruct (Hnone y Hy) as [HS HE]. rewrite !K by auto. naive_solver.
  - intros y. rewrite !K by auto. intros [[HS|[-> HS]] [HE|[? HE]]].
    + by apply (Hnotboth y).
    + subst y. by destruct (Hnone x Hnin).
    + by destruct (Hnone x Hnin).
    + rewrite <- HE in HS. destruct x as [a b]. simpl in HS. injection HS. lia.
  - intros y [Hy|Hy%list_elem_of_singleton]%elem_of_app Hyc; rewrite !K by auto.
    + destruct (Hsome y Hy Hyc); auto.
    + subst y. destruct Hch as [-> | ->]; auto.
  - rewrite link_ends_link; try done; [|apply Hfr].
    rewrite Hcount, filter_app, length_app, filter_cons, decide_True by done.
    simpl. lia.
Qed.

Lemma bt_inv_corner R C l1 g r x :
  bt_inv R C l1 (g, r) → in_grid g x →
  ¬ in_grid g (step x South) → ¬ in_grid g (step x East) →
  bt_inv R C (l1 ++ [x]) (g, r).
Proof.
  intros (Hfr & Hwf & Hsym & Hgeo & Hnone & Hnotboth & Hsome & Hcount) Hx HS HE.
  cbn [fst] in *.
  assert (x = corner R C) as ->.
  { rewrite (frame_in_grid R C) in Hx, HS, HE by done. unfold corner.
    destruct x as [a b]. simpl in *. f_equal; lia. }
  split_and!; cbn [fst]; try done.
  - intros y Hy. apply Hnone. set_solver.
  - intros y [Hy|Hy%list_elem_of_singleton]%elem_of_app Hyc; [by apply Hsome|done].
  - rewrite Hcount, filter_app, length_app, filter_cons, decide_False by (intros ?; done).
    simpl. lia.
Qed.

Lemma bt_cell_step R C l1 x st :
  bt_inv R C l1 st → in_grid st.1 x → x ∉ l1 →
  ∃ st', bt_cell x st = Returns st' ∧ bt_inv R C (l1 ++ [x]) st'.
Proof.
  destruct st as [g r]. intros Hinv Hx Hnin. cbn [fst] in Hx.
  assert (Hfr : frame R C g) by apply Hinv.
  unfold bt_cell. rewrite !(frame_neighbor R C) by done.
  destruct (decide (in_grid g (step x South))) as [HS|HS],
           (decide (in_grid g (step x East))) as [HE|HE].
  - change (option_list (Some (step x South)) ++ option_list (Some (step x East)))
      with [step x South; step x East].
    destruct (random_choice_spec [step x South; step x East] r) as (ch & r' & -> & Hch); [done|].
    eexists. split; [done|].
    apply (bt_inv_link R C l1 g r); try done; set_solver.
  - change (option_list (Some (step x South)) ++ option_list None)
      with [step x South].
    destruct (random_choice_spec [step x South] r) as (ch & r' & -> & Hch); [done|].
    eexists. split; [done|].
    apply (bt_inv_link R C l1 g r); try done; set_solver.
  - change (option_list None ++ option_list (Some (step x East)))
      with [step x East].
    destruct (random_choice_spec [step x East] r) as (ch & r' & -> & Hch); [done|].
    eexists. split; [done|].
    apply (bt_inv_link R C l1 g r); try done; set_solver.
  - eexists. split; [done|]. by apply bt_inv_corner.
Qed.

Lemma link_ends_no_links g : (∀ c, links (heap g c) = []) → link_ends g = 0%nat.
Proof.
  intros Hno. unfold link_ends. induction (all_cells g) as [|a l IH]; [done|].
  simpl. by rewrite Hno, IH.
Qed.

Lemma fresh_links_wf g : (∀ c, links (heap g c) = []) → links_wf g.
Proof.
  intros Hno a. rewrite Hno. split; [constructor|].
  intros b Hb. unfold linked in Hb. rewrite Hno in Hb. by apply elem_of_nil in Hb.
Qed.

Lemma fresh_not_linked g a b : (∀ c, links (heap g c) = []) → ¬ linked g a b.
Proof. intros Hno Hb. unfold linked in Hb. rewrite Hno in Hb. by apply elem_of_nil in Hb. Qed.

Lemma bt_inv_fresh R C g r : fresh_grid R C g → bt_inv R C [] (g, r).
Proof.
  intros Hf. pose proof (fresh_frame R C g Hf) as Hfr.
  destruct Hf as (_ & _ & _ & _ & Hf).
  assert (Hno : ∀ c, links (heap g c) = []) by (intros c; apply Hf).
  split_and!; cbn [fst]; try done.
  - by apply fresh_links_wf.
  - by apply no_links_symmetric.
  - intros a b Hab. by apply fresh_not_linked in Hab.
  - intros x _. split; by apply fresh_not_linked.
  - intros x [H _]. by apply fresh_not_linked in H.
  - intros x Hx. by apply elem_of_nil in Hx.
  - by apply link_ends_no_links.
Qed.

Lemma BinaryTree_make_maze_inv R C g r :
  fresh_grid R C g →
  ∃ g' r', BinaryTree_make_maze g r = Returns (g', r') ∧
           bt_inv R C (all_cells g) (g', r').
Proof.
  intros Hf. pose proof (fresh_frame R C g Hf) as Hfr.
  unfold BinaryTree_make_maze.
  destruct (for_each_prefix (bt_inv R C) (all_cells g) bt_cell (g, r))
    as ([g' r'] & Hrun & Hinv).
  - by apply bt_inv_fresh.
  - intros l1 x l2 st Heq Hinv.
    assert (Hnd : NoDup (all_cells g)) by (apply shape_NoDup_all_cells, Hfr).
    assert (Hx : x ∈ all_cells g) by (rewrite Heq; set_solver).
    apply (frame_all_cells R C) in Hx; [|done].
    apply bt_cell_step; [done| |].
    + apply (frame_in_grid R C); [apply Hinv|]. by apply (frame_in_grid R C g).
    + rewrite Heq in Hnd. apply NoDup_app in Hnd as (_ & Hnd & _).
      intros Hin. apply (Hnd x Hin). set_solver.
  - by exists g', r'.
Qed.

Lemma bt_reaches_corner R C g r seen :
  bt_inv R C seen (g, r) → (∀ x, in_grid g x → x ∈ seen) →
  ∀ (n : nat) x, in_grid g x →
    (R - 1 - row x) + (C - 1 - col x) = Z.of_nat n →
    reachable g x (corner R C).
Proof.
  intros (Hfr & Hwf & Hsym & Hgeo & Hnone & Hnotboth & Hsome & Hcount) Hall.
  cbn [fst] in *.
  induction n as [|n IH]; intros x Hx Hm.
  - assert (x = corner R C) as ->; [|apply reachable_refl].
    apply (frame_in_grid R C) in Hx; [|done]. unfold corner.
    destruct x as [a b]. simpl in *. f_equal; lia.
  - assert (Hxc : x ≠ corner R C).
    { intros ->. unfold corner in Hm. simpl in Hm. lia. }
    assert (Hnext : ∀ d, d = South ∨ d = East → linked g x (step x d) →
              reachable g x (corner R C)).
    { intros d Hd Hl. eapply reachable_trans; [by apply reachable_step|].
      apply IH; [by apply (proj2 (Hwf x) _ Hl)|].
      destruct x as [a b]. destruct Hd as [-> | ->]; unfold step; simpl in *; lia. }
    destruct (Hsome x (Hall x Hx) Hxc); eauto.
Qed.

Lemma bt_acyclic R C g r seen : bt_inv R C seen (g, r) → acyclic g.
Proof.
  intros (Hfr & Hwf & Hsym & Hgeo & Hnone & Hnotboth & Hsome & Hcount).
  cbn [fst] in *.
  assert (Hup : ∀ x y, linked g x y → row y + col y = row x + col x + 1 →
            y = step x South ∨ y = step x East).
  { intros [a b] [c d] Hl Hrk. apply Hgeo in Hl. unfold geometric_neighbors, step in *.
    simpl in *. destruct Hl as [[-> Hl]|[-> Hl]]; [right|left]; f_equal; lia. }
  apply (rank_acyclic g (λ x, row x + col x)); [done| |].
  - intros [a b] [c d] Hl. apply Hgeo in Hl. unfold geometric_neighbors in Hl.
    simpl in *. lia.
  - intros x y z Hxy Hxz Hy Hz.
    destruct (Hup x y Hxy Hy) as [-> | ->], (Hup x z Hxz Hz) as [-> | ->]; try done.
    + destruct (Hnotboth x). done.
    + destruct (Hnotboth x). done.
Qed.

Lemma bt_spanning_tree R C g r :
  1 ≤ R → 1 ≤ C → bt_inv R C (all_cells g) (g, r) → spanning_tree g.
Proof.
  intros HR HC Hinv.
  pose proof (bt_acyclic R C g r _ Hinv) as Hac.
  assert (Hall : ∀ x, in_grid g x → x ∈ all_cells g).
  { intros x Hx. apply (frame_all_cells R C); [apply Hinv|done]. }
  pose proof (bt_reaches_corner R C g r _ Hinv Hall) as Hreach.
  destruct Hinv as (Hfr & Hwf & Hsym & Hgeo & Hnone & Hnotboth & Hsome & Hcount).
  cbn [fst] in *.
  split_and!; try done.
  - rewrite Hcount. destruct Hfr as (HRg & HCg & Hs & _).
    pose proof (shape_length_all_cells g Hs) as Hlen.
    pose proof (length_filter_ne (all_cells g) (corner R C)
                  (shape_NoDup_all_cells g Hs)) as Hf.
    rewrite Hf in Hlen.
    + rewrite HRg, HCg in *. nia.
    + apply shape_elem_of_all_cells; [done|]. unfold in_grid, corner. simpl. lia.
  - intros a b Ha Hb.
    assert (Hrc : ∀ x, in_grid g x → reachable g x (corner R C)).
    { intros x Hx.
      apply (Hreach (Z.to_nat ((R - 1 - row x) + (C - 1 - col x))) x Hx).
      apply (frame_in_grid R C) in Hx; [|done]. lia. }
    eapply reachable_trans; [by apply Hrc|]. apply reachable_sym; [done|]. by apply Hrc.
Qed.

(** *** Growing a forest *)

Lemma forest_link a b g :
  forest g → in_grid g a → in_grid g b → geometric_neighbors a b →
  ¬ reachable g a b → forest (link a b true g).
Proof.
  intros (Hwf & Hsym & Hgeo & Hac) Ha Hb Hab Hnr. split_and!.
  - apply link_wf; try done. by apply geometric_neighbors_ne.
  - by apply link_symmetric.
  - by apply link_geometric.
  - by apply link_acyclic.
Qed.

Lemma link_ends_link_Z a b g :
  shape_ok g → links_symmetric g → in_grid g a → in_grid g b →
  ¬ reachable g a b →
  Z.of_nat (link_ends (link a b true g)) = Z.of_nat (link_ends g) + 2.
Proof.
  intros Hs Hsym Ha Hb Hnr. rewrite link_ends_link; try done; [lia| | |].
  - intros ->. apply Hnr, reachable_refl.
  - intros Hl. by apply Hnr, reachable_step.
  - intros Hl. by apply Hnr, reachable_step, Hsym.
Qed.

Lemma no_links_not_reachable g a b :
  links_symmetric g → links (heap g b) = [] → a ≠ b → ¬ reachable g a b.
Proof.
  intros Hsym Hb Hne Hr. apply Hne. apply (reachable_isolated g a b); [|done].
  intros x Hx. apply Hsym in Hx. unfold linked in Hx. rewrite Hb in Hx.
  by apply elem_of_nil in Hx.
Qed.

(** *** Rows and lines of the table *)

Lemma line_split (r C : Z) l1 x l2 :
  (λ c, (r, c)) <$> range C = l1 ++ x :: l2 →
  x = (r, Z.of_nat (length l1)) ∧ Z.of_nat (length l1) < C.
Proof.
  intros Heq.
  assert (Hx : ((λ c, (r, c)) <$> range C) !! length l1 = Some x).
  { rewrite Heq. by rewrite list_lookup_middle. }
  rewrite list_lookup_fmap, range_lookup in Hx.
  case_decide; [|done]. simpl in Hx. by injection Hx as <-.
Qed.

Lemma rows_split g L1 line L2 :
  shape_ok g → rows g = L1 ++ line :: L2 →
  line = (λ c, (Z.of_nat (length L1), c)) <$> range (num_cols g) ∧
  Z.of_nat (length L1) < num_rows g.
Proof.
  intros Hs Heq. rewrite Hs in Heq.
  assert (Hx : ((λ r, (λ c, (r, c)) <$> range (num_cols g)) <$> range (num_rows g))
                 !! length L1 = Some line).
  { rewrite Heq. by rewrite list_lookup_middle. }
  rewrite list_lookup_fmap, range_lookup in Hx.
  case_decide; [|done]. simpl in Hx. by injection Hx as <-.
Qed.

Lemma seqZ_snoc (s n : Z) : 0 ≤ n → seqZ s (n + 1) = seqZ s n ++ [s + n].
Proof. intros Hn. by rewrite seqZ_app by lia. Qed.

(** *** Sidewinder *)

Lemma link_links_other a b g x :
  x ≠ a → x ≠ b → links (heap (link a b true g) x) = links (heap g x).
Proof. intros. rewrite link_links. simpl. by rewrite !decide_False. Qed.

Lemma run_elem_of (r s j : Z) (m : cell) :
  m ∈ ((λ c, (r, c)) <$> seqZ s (j - s)) ++ [(r, j)] → s ≤ j →
  ∃ c, m = (r, c) ∧ s ≤ c ≤ j.
Proof.
  intros [Hm|Hm%list_elem_of_singleton]%elem_of_app Hsj.
  - apply list_elem_of_fmap in Hm as (c & -> & Hc%elem_of_seqZ). exists c. split; [done|lia].
  - exists j. split; [done|lia].
Qed.

(** The cell is linked to its east neighbour and stays in the run. *)
Lemma sw_step_east R C r j g rnd rnd' run :
  sw_inv R C r j (g, rnd, run) → in_grid g (r, j) → in_grid g (r, j + 1) →
  sw_inv R C r (j + 1) (link (r, j) (r, j + 1) true g, rnd', run ++ [(r, j)]).
Proof.
  intros (s & Hs & Hfr & Hfo & Hrun & Htop & Hend & Hclosed & Hopen & Hiso & Hconn & Hcount)
    Hx He.
  cbn [fst snd] in *.
  assert (Hsym : links_symmetric g) by apply Hfo.
  assert (Hiso_e : links (heap g (r, j + 1)) = []).
  { apply Hiso; [done|]. right. simpl. lia. }
  assert (Hne : (r, j) ≠ (r, j + 1)) by (intros [=]; lia).
  assert (Hnr : ¬ reachable g (r, j) (r, j + 1)) by (by apply no_links_not_reachable).
  assert (HjC : j + 1 < C) by (apply (frame_in_grid R C) in He; [simpl in He; lia|done]).
  exists s. cbn [fst snd]. split; [lia|]. split_and!.
  - by apply frame_link.
  - apply forest_link; try done. left. simpl. lia.
  - rewrite Hrun. replace (j + 1 - s) with (j - s + 1) by lia.
    rewrite seqZ_snoc, fmap_app by lia. simpl. do 3 f_equal. lia.
  - intros Hr _. apply Htop; [done|lia].
  - lia.
  - intros c y Hc [Hl|[[Heq ->]|[Heq ->]]]%link_linked.
    + destruct (decide (c = j + 1)) as [->|Hcj].
      * unfold linked in Hl. rewrite Hiso_e in Hl. by apply elem_of_nil in Hl.
      * destruct (Hclosed c y ltac:(lia) Hl) as (c' & -> & Hc'). exists c'. split; [done|lia].
    + exists (j + 1). split; [done|lia].
    + exists j. split; [done|lia].
  - intros c Hc Hin. destruct (decide (c = j + 1)) as [->|Hcj].
    + eapply reachable_snoc.
      * apply reachable_link. apply (Hopen j); [lia|done].
      * apply link_linked. right. by left.
    + apply reachable_link. apply Hopen; [lia|done].
  - intros x Hin Hpos. rewrite link_links_other.
    + apply Hiso; [done|]. lia.
    + intros ->. simpl in Hpos. lia.
    + intros ->. simpl in Hpos. lia.
  - intros x Hin Hpos. apply reachable_link. by apply Hconn.
  - rewrite link_ends_link_Z; try done; [|apply Hfr]. rewrite Hcount.
    case_decide; lia.
Qed.

(** The run is closed and one of its cells is linked to the row above. *)
Lemma sw_step_close_north R C r j g rnd rnd' run m :
  sw_inv R C r j (g, rnd, run) → in_grid g (r, j) →
  m ∈ run ++ [(r, j)] → in_grid g (step m North) →
  sw_inv R C r (j + 1) (link m (step m North) true g, rnd', []).
Proof.
  intros (s & Hs & Hfr & Hfo & Hrun & Htop & Hend & Hclosed & Hopen & Hiso & Hconn & Hcount)
    Hx Hm Hn.
  cbn [fst snd] in *.
  assert (Hsym : links_symmetric g) by apply Hfo.
  assert (Hwf : links_wf g) by apply Hfo.
  rewrite Hrun in Hm. apply run_elem_of in Hm as (cm & -> & Hcm); [|lia].
  change (step (r, cm) North) with (r - 1, cm) in *.
  assert (Hr : 1 ≤ r) by (apply (frame_in_grid R C) in Hn; [simpl in Hn; lia|done]).
  assert (Hmg : in_grid g (r, cm)).
  { apply (frame_in_grid R C) in Hn, Hx; try done. apply (frame_in_grid R C); [done|].
    simpl in *. lia. }
  assert (Hnr : ¬ reachable g (r, cm) (r - 1, cm)).
  { intros Hreach.
    destruct (reachable_closed g (λ y, ∃ c, y = (r, c) ∧ s ≤ c ≤ j) _ _
                ltac:(intros v w (c & -> & Hc) Hl; by apply (Hclosed c))
                ltac:(by exists cm) Hreach) as (c & [= Hrow _] & _). lia. }
  assert (Hnext : ∀ y, ¬ linked g (r, j + 1) y).
  { intros y Hl. destruct (proj2 (Hwf _) _ Hl) as (Hin & _).
    unfold linked in Hl. rewrite Hiso in Hl; [by apply elem_of_nil in Hl|done|].
    right. simpl. lia. }
  exists (j + 1). cbn [fst snd]. split; [lia|]. split_and!.
  - by apply frame_link.
  - apply forest_link; try done. right. simpl. lia.
  - by rewrite Z.sub_diag.
  - lia.
  - done.
  - intros c y Hc [Hl|[[[= Hcj] ->]|[[= Hrow] ->]]]%link_linked; [|lia..].
    assert (c = j + 1) as -> by lia. by apply Hnext in Hl.
  - intros c Hc Hin. assert (c = j + 1) as -> by lia. apply reachable_refl.
  - intros x Hin Hpos. rewrite link_links_other.
    + apply Hiso; [done|]. lia.
    + intros ->. simpl in Hpos. lia.
    + intros ->. simpl in Hpos. lia.
  - intros x Hin Hpos.
    destruct (decide (row x < r ∨ (row x = r ∧ col x < s))) as [Hold|Hnew].
    { apply reachable_link. by apply Hconn. }
    destruct x as [xr xc]. simpl in *. assert (xr = r) as -> by lia.
    assert (Hxm : reachable g (r, xc) (r, cm)).
    { eapply reachable_trans; [apply reachable_sym; [done|]|].
      - apply (Hopen xc); [lia|done].
      - apply Hopen; [lia|done]. }
    eapply reachable_trans; [by apply reachable_link|].
    eapply reachable_trans; [apply reachable_link_ends|].
    apply reachable_link. apply Hconn; [done|]. left. simpl. lia.
  - rewrite link_ends_link_Z; try done; [|apply Hfr]. rewrite Hcount.
    rewrite !decide_False by lia. lia.
Qed.

(** The run of the first row is closed at the east end; nothing is linked. *)
Lemma sw_step_close_top R C r j g rnd rnd' run m :
  sw_inv R C r j (g, rnd, run) → in_grid g (r, j) →
  m ∈ run ++ [(r, j)] → ¬ in_grid g (step m North) → j + 1 = C →
  sw_inv R C r (j + 1) (g, rnd', []).
Proof.
  intros (s & Hs & Hfr & Hfo & Hrun & Htop & Hend & Hclosed & Hopen & Hiso & Hconn & Hcount)
    Hx Hm Hn HjC.
  cbn [fst snd] in *.
  assert (Hsym : links_symmetric g) by apply Hfo.
  assert (Hwf : links_wf g) by apply Hfo.
  rewrite Hrun in Hm. apply run_elem_of in Hm as (cm & -> & Hcm); [|lia].
  change (step (r, cm) North) with (r - 1, cm) in *.
  assert (Hr : r = 0).
  { rewrite (frame_in_grid R C) in Hn, Hx by done. simpl in *. lia. }
  assert (Hs0 : s = 0) by (apply Htop; [done|lia]).
  subst r s.
  exists (j + 1). cbn [fst snd]. split; [lia|]. split_and!; try done.
  - by rewrite Z.sub_diag.
  - lia.
  - intros c y Hc Hl. destruct (proj2 (Hwf _) _ Hl) as (Hin & _).
    apply (frame_in_grid R C) in Hin; [|done]. simpl in Hin. lia.
  - intros c Hc Hin. assert (c = j + 1) as -> by lia. apply reachable_refl.
  - intros x Hin Hpos. apply Hiso; [done|]. lia.
  - intros x Hin Hpos. destruct x as [xr xc].
    pose proof Hin as Hin'. apply (frame_in_grid R C) in Hin'; [|done]. simpl in *.
    assert (xr = 0) as -> by lia.
    apply reachable_sym; [done|]. apply Hopen; [lia|done].
  - rewrite Hcount. rewrite !decide_True by done. lia.
Qed.

Lemma sw_close R C r j g rnd rnd1 run :
  sw_inv R C r j (g, rnd, run) → in_grid g (r, j) →
  in_grid g (step (r, j) North) ∨ j + 1 = C →
  ∃ st',
    ('(member, r0) ← random_choice (run ++ [(r, j)]) rnd1;
     Returns (match get_neighbor g member North with
              | Some n => link member n true g
              | None => g
              end, r0, [])) = Returns st' ∧
    sw_inv R C r (j + 1) st'.
Proof.
  intros Hinv Hx Hcase.
  destruct (random_choice_spec (run ++ [(r, j)]) rnd1) as (m & r' & -> & Hm);
    [by destruct run|].
  cbn [mbind outcome_bind].
  assert (Hfr : frame R C g) by (destruct Hinv as (s & _ & Hfr & _); exact Hfr).
  assert (Hmg : in_grid g m).
  { destruct Hinv as (s & Hs & _ & _ & Hrun & _). cbn [fst snd] in *.
    pose proof Hm as Hm'. rewrite Hrun in Hm'.
    apply run_elem_of in Hm' as (cm & -> & Hcm); [|lia].
    apply (frame_in_grid R C) in Hx; [|done]. apply (frame_in_grid R C); [done|].
    simpl in *. lia. }
  rewrite (frame_neighbor R C) by done.
  destruct (decide (in_grid g (step m North))) as [Hn|Hn].
  - eexists. split; [done|]. by eapply sw_step_close_north.
  - eexists. split; [done|]. eapply sw_step_close_top; try done.
    destruct Hcase as [Hxn|]; [|done]. exfalso. apply Hn.
    destruct Hinv as (s & Hs & _ & _ & Hrun & _). cbn [fst snd] in *.
    rewrite Hrun in Hm. apply run_elem_of in Hm as (cm & -> & Hcm); [|lia].
    rewrite (frame_in_grid R C) in Hxn, Hmg |- * by done.
    unfold step in *. simpl in *. lia.
Qed.

Lemma sw_cell_step R C r j st :
  sw_inv R C r j st → in_grid st.1.1 (r, j) →
  ∃ st', sw_cell (r, j) st = Returns st' ∧ sw_inv R C r (j + 1) st'.
Proof.
  destruct st as [[g rnd] run]. intros Hinv Hx. cbn [fst snd] in Hx.
  assert (Hfr : frame R C g) by (destruct Hinv as (s & _ & Hfr & _); exact Hfr).
  unfold sw_cell. rewrite !(frame_neighbor R C) by done.
  change (step (r, j) East) with (r, j + 1).
  assert (Heast : in_grid g (r, j + 1) →
    ∃ st', (g0 ← link_opt (r, j) (Some (r, j + 1)) g; Returns (g0, rnd, run ++ [(r, j)]))
           = Returns st' ∧ sw_inv R C r (j + 1) st').
  { intros He. eexists. split; [done|]. by apply (sw_step_east R C r j g rnd). }
  assert (HC : ¬ in_grid g (r, j + 1) → j + 1 = C).
  { rewrite !(frame_in_grid R C) in * by done. simpl in *. lia. }
  destruct (decide (in_grid g (r, j + 1))) as [He|He].
  - rewrite bool_decide_eq_false_2 by done.
    destruct (decide (in_grid g (step (r, j) North))) as [Hn|Hn].
    + rewrite bool_decide_eq_false_2 by done.
      destruct (random_randint01 rnd) as [coin rnd1].
      destruct (bool_decide (coin = 0)).
      * apply (sw_close R C r j g rnd); auto.
      * destruct (Heast He) as (st' & Hst' & Hinv'). eexists. split; [done|].
        by apply (sw_step_east R C r j g rnd).
    + rewrite bool_decide_eq_true_2 by done. by apply Heast.
  - rewrite bool_decide_eq_true_2 by done.
    apply (sw_close R C r j g rnd); auto.
Qed.

(** *** Sidewinder: row and outer loops *)


Lemma no_links_acyclic g : (∀ c, links (heap g c) = []) → acyclic g.
Proof.
  intros Hno p (_ & Hlen & Hw & _).
  destruct p as [|x [|y p]]; simpl in Hlen; try lia.
  destruct Hw as [Hxy _]. by apply fresh_not_linked in Hxy.
Qed.

Lemma no_links_forest g : (∀ c, links (heap g c) = []) → forest g.
Proof.
  intros Hno. split_and!.
  - by apply fresh_links_wf.
  - by apply no_links_symmetric.
  - intros a b Hab. by apply fresh_not_linked in Hab.
  - by apply no_links_acyclic.
Qed.

Lemma sw_inv_row_start R C k g rnd :
  1 ≤ C → 0 ≤ k → sw_rows_inv R C k (g, rnd) → sw_inv R C k 0 (g, rnd, []).
Proof.
  intros HC Hk (Hfr & Hfo & Hiso & Hconn & Hcount). cbn [fst snd] in *.
  assert (Hwf : links_wf g) by apply Hfo.
  exists 0. cbn [fst snd]. split; [lia|]. split_and!; try done.
  - intros c y Hc Hl. destruct (proj2 (Hwf _) _ Hl) as (Hin & _).
    unfold linked in Hl. rewrite Hiso in Hl; [by apply elem_of_nil in Hl|done|].
    simpl. lia.
  - intros c Hc _. assert (c = 0) as -> by lia. apply reachable_refl.
  - intros x Hin Hpos. apply Hiso; [done|lia].
  - intros x Hin [Hpos|Hpos]; [by apply Hconn|].
    apply (frame_in_grid R C) in Hin; [|done]. lia.
  - rewrite Hcount. repeat case_decide; lia.
Qed.

Lemma sw_inv_row_end R C k g rnd run :
  0 ≤ k → sw_inv R C k C (g, rnd, run) → sw_rows_inv R C (k + 1) (g, rnd).
Proof.
  intros Hk (s & Hs & Hfr & Hfo & Hrun & Htop & Hend & Hclosed & Hopen & Hiso & Hconn & Hcount).
  cbn [fst snd] in *. specialize (Hend eq_refl). subst s.
  split_and!; cbn [fst]; try done.
  - intros x Hin Hpos. apply Hiso; [done|lia].
  - intros x Hin Hpos. apply Hconn; [done|].
    pose proof Hin as Hin'. apply (frame_in_grid R C) in Hin'; [|done]. lia.
  - rewrite Hcount. repeat case_decide; lia.
Qed.

Lemma sw_row_step R C k st :
  1 ≤ C → 0 ≤ k < R → sw_rows_inv R C k st →
  ∃ st', sw_row ((λ c, (k, c)) <$> range C) st = Returns st' ∧
         sw_rows_inv R C (k + 1) st'.
Proof.
  destruct st as [g rnd]. intros HC Hk Hinv. unfold sw_row. cbn [fst snd].
  destruct (for_each_prefix (λ l1, sw_inv R C k (Z.of_nat (length l1)))
              ((λ c, (k, c)) <$> range C) sw_cell (g, rnd, []))
    as ([[g' rnd'] run'] & -> & Hinv').
  - apply sw_inv_row_start; [done|lia|done].
  - intros l1 x l2 st Heq Hst.
    destruct (line_split k C l1 x l2 Heq) as [-> Hlt].
    rewrite length_app. simpl length. rewrite Nat2Z.inj_add. simpl Z.of_nat.
    apply sw_cell_step; [done|].
    destruct Hst as (s & _ & Hfr & _). apply (frame_in_grid R C); [done|]. simpl.
    clear -Hk Hlt. unfold cell in *. lia.
  - cbn [mbind outcome_bind]. eexists. split; [done|].
    rewrite length_fmap, length_range in Hinv'. rewrite Z2Nat.id in Hinv' by lia.
    eapply sw_inv_row_end; [lia|done].
Qed.

Lemma Sidewinder_make_maze_inv R C g r :
  1 ≤ C → fresh_grid R C g →
  ∃ g' r', Sidewinder_make_maze g r = Returns (g', r') ∧
           sw_rows_inv R C (Z.of_nat (length (rows g))) (g', r').
Proof.
  intros HC Hf. pose proof (fresh_frame R C g Hf) as Hfr.
  unfold Sidewinder_make_maze.
  destruct (for_each_prefix (λ L1, sw_rows_inv R C (Z.of_nat (length L1)))
              (rows g) sw_row (g, r)) as ([g' r'] & Hrun & Hinv).
  - destruct Hf as (_ & _ & _ & _ & Hf).
    assert (Hno : ∀ c, links (heap g c) = []) by (intros c; apply Hf).
    split_and!; cbn [fst]; try done.
    + by apply no_links_forest.
    + intros x Hin Hpos. apply (frame_in_grid R C) in Hin; [|done]. simpl in Hpos. lia.
    + by rewrite link_ends_no_links.
  - intros L1 line L2 st Heq Hst.
    destruct Hfr as (HR & HC' & Hs & _).
    destruct (rows_split g L1 line L2 Hs Heq) as [-> Hlt].
    rewrite length_app. simpl length. rewrite Nat2Z.inj_add. simpl Z.of_nat.
    rewrite HC'. apply sw_row_step; [done|lia|done].
  - by exists g', r'.
Qed.

Lemma sw_spanning_tree R C g r :
  1 ≤ R → sw_rows_inv R C R (g, r) → spanning_tree g.
Proof.
  intros HR (Hfr & (Hwf & Hsym & Hgeo & Hac) & Hiso & Hconn & Hcount).
  cbn [fst] in *. split_and!; try done.
  - rewrite Hcount, decide_False by lia. destruct Hfr as (-> & -> & _). done.
  - intros a b Ha Hb.
    assert (Hrc : ∀ x, in_grid g x → reachable g x (0, 0)).
    { intros x Hx. apply Hconn; [done|].
      apply (frame_in_grid R C) in Hx; [lia|done]. }
    eapply reachable_trans; [by apply Hrc|]. apply reachable_sym; [done|]. by apply Hrc.
Qed.

(** * Part VIII: Eller's generator *)

Lemma set_id_insert sets x k u :
  set_id (<[x := k]> sets) u = if decide (u = x) then Some k else set_id sets u.
Proof.
  unfold set_id. case_decide as Hu.
  - rewrite Hu. apply lookup_insert_eq.
  - by apply lookup_insert_ne.
Qed.

Lemma set_id_rename a b sets x :
  set_id (rename a b <$> sets) x = rename a b <$> set_id sets x.
Proof. apply lookup_fmap. Qed.

Lemma set_id_empty x : set_id ∅ x = None.
Proof. apply lookup_empty. Qed.

Lemma sets_get_id sets x :
  sets_get sets x =
  match set_id sets x with Some k => Returns k | None => Raises KeyError end.
Proof. done. Qed.

Lemma row_get_line y C i :
  0 ≤ i < C → row_get (line_of y C) i = Returns (y, i).
Proof.
  intros Hi. unfold row_get, line_of.
  rewrite list_lookup_fmap, range_lookup, decide_True by lia. simpl.
  do 2 f_equal. lia.
Qed.

Lemma length_line_of y C : 0 ≤ C → Z.of_nat (length (line_of y C)) = C.
Proof. intros. unfold line_of. rewrite length_fmap, length_range. lia. Qed.

Lemma line_of_split y C l1 x l2 :
  line_of y C = l1 ++ x :: l2 →
  x = (y, Z.of_nat (length l1)) ∧ Z.of_nat (length l1) < C.
Proof. apply line_split. Qed.

Lemma core_not_linked R C s x :
  eller_core R C s → set_id (e_sets s) x = None →
  ∀ u v, linked (e_grid s) u v → u ≠ x ∧ v ≠ x.
Proof.
  intros (_ & (_ & Hsym & _) & _ & _ & Hiso & _) Hx u v Huv.
  split; intros ->.
  - unfold linked in Huv. rewrite (Hiso _ Hx) in Huv. by apply elem_of_nil in Huv.
  - apply Hsym in Huv. unfold linked in Huv.
    rewrite (Hiso _ Hx) in Huv. by apply elem_of_nil in Huv.
Qed.

Lemma eller_assign_step R C y j s :
  eller_assign_inv R C y j s → in_grid (e_grid s) (y, j) →
  ∃ s', eller_assign (y, j) s = Returns s' ∧ eller_assign_inv R C y (j + 1) s'.
Proof.
  intros (Hcore & Hdone & Hrows & Hrow & Huniq & Hsurv & Hcount) Hin.
  unfold eller_assign.
  change (e_sets s !! (y, j)) with (set_id (e_sets s) (y, j)).
  destruct (set_id (e_sets s) (y, j)) as [k|] eqn:Hk.
  - exists s. split; [done|]. split; [done|]. split_and!; try done.
    intros c Hc. destruct (decide (c = j)) as [->|]; [by rewrite Hk|].
    apply Hrow. lia.
  - eexists; split; [reflexivity|].
    pose proof (core_not_linked R C s _ Hcore Hk) as Hnl.
    destruct Hcore as (Hfr & Hfo & Hcol & Hsame & Hiso & Hbnd).
    unfold eller_assign_inv, eller_core. cbn [e_grid e_sets e_counter].
    split_and!; try done.
    + intros u v Huv. destruct (Hnl u v Huv).
      rewrite !set_id_insert, !decide_False by done. by apply Hcol.
    + intros u v k. rewrite !set_id_insert.
      case_decide as Hu'; case_decide as Hv'; intros Hu Hv.
      * rewrite Hu', Hv'. apply reachable_refl.
      * injection Hu as <-. apply Hbnd in Hv. lia.
      * injection Hv as <-. apply Hbnd in Hu. lia.
      * by eapply Hsame.
    + intros u. rewrite set_id_insert. case_decide; [done|]. apply Hiso.
    + intros u k. rewrite set_id_insert. case_decide as Hu'.
      * intros [= <-]. rewrite Hu'. split; [lia|done].
      * intros Hu%Hbnd. split; [lia|tauto].
    + intros u Hu Hr. rewrite set_id_insert. case_decide; [done|]. by apply Hdone.
    + intros u. rewrite set_id_insert. case_decide as Hu'.
      * intros _. rewrite Hu'. simpl. lia.
      * apply Hrows.
    + intros c Hc. rewrite set_id_insert. case_decide; [done|].
      apply Hrow. assert (c ≠ j) by congruence. lia.
    + intros c c' k. rewrite !set_id_insert.
      case_decide as Hj; case_decide as Hj'; intros Hc Hc'.
      * congruence.
      * injection Hc as <-. apply Hbnd in Hc'. lia.
      * injection Hc' as <-. apply Hbnd in Hc. lia.
      * by eapply Huniq.
    + intros u k. rewrite set_id_insert. case_decide as Hu'.
      * intros [= <-]. exists j. by rewrite set_id_insert, decide_True.
      * intros Hu. destruct (Hsurv u k Hu) as (c & Hc). exists c.
        rewrite set_id_insert, decide_False; [done|]. congruence.
Qed.

Lemma eller_assign_loop R C y s :
  0 ≤ y < R → eller_assign_inv R C y 0 s →
  ∃ s', for_each (line_of y C) eller_assign s = Returns s' ∧
        eller_assign_inv R C y C s'.
Proof.
  intros Hy Hinv.
  destruct (for_each_prefix
              (λ l1, eller_assign_inv R C y (Z.of_nat (length l1)))
              (line_of y C) eller_assign s) as (s' & Hrun & Hs'); [done| |].
  - intros l1 x l2 s1 Heq Hs1.
    destruct (line_of_split _ _ _ _ _ Heq) as [-> Hlt].
    rewrite length_app. simpl length. rewrite Nat2Z.inj_add. simpl Z.of_nat.
    apply eller_assign_step; [done|].
    destruct Hs1 as ((Hfr & _) & _). apply (frame_in_grid R C); [done|]. simpl.
    unfold cell in *. lia.
  - exists s'. split; [done|].
    destruct (decide (0 ≤ C)).
    + by rewrite length_line_of in Hs'.
    + unfold line_of, range in *. rewrite seqZ_nil in * by lia. simpl in *.
      destruct Hs' as (? & ? & ? & ? & ? & ? & ?).
      repeat (split; [done|]). split; [intros; lia|done].
Qed.

(** *** The horizontal pass *)


Lemma core_reachable R C s x z :
  eller_core R C s → reachable (e_grid s) x z → set_id (e_sets s) x = set_id (e_sets s) z.
Proof.
  intros (_ & _ & Hcol & _) Hr.
  apply (reachable_closed (e_grid s) (λ v, set_id (e_sets s) x = set_id (e_sets s) v) x z);
    [|done|done].
  intros v w Hv Hvw. rewrite Hv. by apply Hcol.
Qed.

Lemma boundaries_snoc sets y i :
  0 ≤ i →
  boundaries sets y (i + 1) =
  boundaries sets y i + (if decide (set_id sets (y, i) ≠ set_id sets (y, i + 1)) then 1 else 0).
Proof.
  intros Hi. unfold boundaries, range.
  rewrite seqZ_snoc, filter_app, length_app by done.
  rewrite Z.add_0_l, filter_cons, filter_nil.
  repeat case_decide; try done; simpl; lia.
Qed.

Lemma boundaries_ext sets sets' y i :
  (∀ c, 0 ≤ c < i →
     set_id sets (y, c) ≠ set_id sets (y, c + 1) ↔ set_id sets' (y, c) ≠ set_id sets' (y, c + 1)) →
  boundaries sets y i = boundaries sets' y i.
Proof.
  intros Hext. unfold boundaries. do 2 f_equal.
  apply filter_ext_in. intros c Hc%elem_of_range. by apply Hext.
Qed.

Lemma boundaries_0 sets y : boundaries sets y 0 = 0.
Proof. done. Qed.

Lemma rename_eq a b k k' :
  k ≠ b → k' ≠ b → rename a b k = rename a b k' → k = k'.
Proof. unfold rename. repeat case_decide; congruence. Qed.

Lemma eller_horizontal_start R C y s :
  eller_assign_inv R C y C s → 0 ≤ y →
  eller_horizontal_inv R C y 0 s.
Proof.
  intros (Hcore & Hdone & Hrows & Hrow & Huniq & Hsurv & Hcount) Hy.
  split_and!; try done.
  - intros x Hx Hr. destruct (decide (row x < y)); [by apply Hdone|].
    destruct Hcore as (Hfr & _). apply (frame_in_grid R C) in Hx; [|done].
    destruct x as [xr xc]. simpl in *. assert (xr = y) as -> by lia.
    apply Hrow. lia.
  - intros c c' k _. apply Huniq.
  - intros a b c k Habc Ha Hc. pose proof (Huniq _ _ _ Ha Hc). lia.
  - rewrite Hcount, boundaries_0. lia.
Qed.

Lemma eller_skip_inv R C y i s r' :
  eller_horizontal_inv R C y i s → 0 ≤ i →
  set_id (e_sets s) (y, i) ≠ set_id (e_sets s) (y, i + 1) →
  eller_horizontal_inv R C y (i + 1)
    (mkEller (e_grid s) r' (e_sets s) (e_counter s)).
Proof.
  intros (Hcore & Hdone & Hrows & Hsuf & Hint & Hsurv & Hcount) Hi Hne.
  split_and!; try done.
  - intros c c' k Hc'. apply Hsuf. lia.
  - cbn [e_grid e_sets]. rewrite Hcount, boundaries_snoc, decide_True by done. lia.
Qed.

Lemma eller_merge_inv R C y i s r' a b :
  eller_horizontal_inv R C y i s → 0 ≤ i →
  in_grid (e_grid s) (y, i) → in_grid (e_grid s) (y, i + 1) →
  set_id (e_sets s) (y, i) = Some a → set_id (e_sets s) (y, i + 1) = Some b →
  eller_horizontal_inv R C y (i + 1)
    (mkEller (link (y, i) (y, i + 1) true (e_grid s)) r'
             (rename a b <$> e_sets s) (e_counter s)).
Proof.
  intros (Hcore & Hdone & Hrows & Hsuf & Hint & Hsurv & Hcount) Hi Hin Hin' Ha Hb.
  assert (Hab : a ≠ b).
  { intros ->. pose proof (Hsuf i (i + 1) b ltac:(lia) Ha Hb). lia. }
  assert (Hnr : ¬ reachable (e_grid s) (y, i) (y, i + 1)).
  { intros Hr%(core_reachable R C); [|done]. congruence. }
  assert (Hnb : ∀ c k, c ≤ i → set_id (e_sets s) (y, c) = Some k → k ≠ b).
  { intros c k Hc Hk ->. pose proof (Hsuf c (i + 1) b ltac:(lia) Hk Hb). lia. }
  destruct Hcore as (Hfr & Hfo & Hcol & Hsame & Hiso & Hbnd).
  unfold eller_horizontal_inv, eller_core. cbn [e_grid e_sets e_counter].
  pose proof (set_id_rename a b (e_sets s)) as Hlk.
  split_and!.
  - by apply frame_link.
  - apply forest_link; try done. left. simpl. lia.
  - intros x z [Hxz|[[-> ->]|[-> ->]]]%link_linked.
    + rewrite !Hlk. f_equal. by apply Hcol.
    + rewrite !Hlk. rewrite Ha, Hb. simpl. unfold rename.
      repeat case_decide; congruence.
    + rewrite !Hlk. rewrite Ha, Hb. simpl. unfold rename.
      repeat case_decide; congruence.
  - intros x z k. rewrite !Hlk.
    destruct (set_id (e_sets s) x) as [kx|] eqn:Hx; [|done].
    destruct (set_id (e_sets s) z) as [kz|] eqn:Hz; [|done].
    simpl. intros [= Hkx] [= Hkz].
    destruct (decide (kx = kz)) as [->|Hne].
    { apply reachable_link. by eapply Hsame. }
    unfold rename in Hkx, Hkz.
    destruct (decide (kx = a)) as [Hxa|Hxa], (decide (kz = a)) as [Hza|Hza];
      [congruence| | |congruence].
    + assert (kz = b) as Hzb by congruence. rewrite Hxa in Hx. rewrite Hzb in Hz.
      eapply reachable_trans; [|eapply reachable_trans].
      * apply reachable_link. by apply (Hsame x (y, i) a).
      * apply reachable_link_ends.
      * apply reachable_link. by apply (Hsame (y, i + 1) z b).
    + assert (kx = b) as Hxb by congruence. rewrite Hxb in Hx. rewrite Hza in Hz.
      eapply reachable_trans; [|eapply reachable_trans].
      * apply reachable_link. by apply (Hsame x (y, i + 1) b).
      * apply reachable_sym; [|apply reachable_link_ends].
        apply link_symmetric. apply Hfo.
      * apply reachable_link. by apply (Hsame (y, i) z a).
  - intros x. rewrite Hlk. intros Hx.
    destruct (set_id (e_sets s) x) as [kx|] eqn:Hx'; [done|].
    rewrite link_links_other; [by apply Hiso| |]; intros ->; congruence.
  - intros x k. rewrite Hlk.
    destruct (set_id (e_sets s) x) as [kx|] eqn:Hx; [|done]. simpl. intros [= <-].
    destruct (Hbnd x kx Hx) as [Hle Hinx]. split; [|done].
    unfold rename. destruct (Hbnd (y, i + 1) b Hb). case_decide; lia.
  - intros x Hx Hr. rewrite Hlk. apply fmap_is_Some. by apply Hdone.
  - intros x. rewrite Hlk, fmap_is_Some. apply Hrows.
  - intros c c' k Hc'. rewrite !Hlk.
    destruct (set_id (e_sets s) (y, c)) as [kc|] eqn:Hkc; [|done].
    destruct (set_id (e_sets s) (y, c')) as [kc'|] eqn:Hkc'; [|done].
    simpl. intros [= Hk] [= Hk'].
    assert (kc' ≠ a).
    { intros Hca. rewrite Hca in Hkc'.
      pose proof (Hsuf i c' a ltac:(lia) Ha Hkc'). lia. }
    unfold rename in Hk, Hk'. rewrite decide_False in Hk' by done.
    case_decide.
    + assert (kc' = b) as Hcb by congruence. rewrite Hcb in Hkc'.
      pose proof (Hsuf (i + 1) c' b ltac:(lia) Hb Hkc'). lia.
    + assert (kc = kc') as Hcc by congruence. rewrite Hcc in Hkc.
      apply (Hsuf c c' kc'); [lia|done|done].
  - intros p q t k Hpqt. rewrite !Hlk.
    destruct (set_id (e_sets s) (y, p)) as [kp|] eqn:Hkp; [|done].
    destruct (set_id (e_sets s) (y, t)) as [kt|] eqn:Hkt; [|done].
    simpl. intros [= Hk] [= Hk'].
    assert (Hq : ∃ kq, set_id (e_sets s) (y, q) = Some kq ∧ rename a b kq = k);
      [|by destruct Hq as (kq & -> & <-)].
    destruct (decide (i + 1 < t)).
    { (* [t] is alone in its set *)
      exfalso.
      assert (kt ≠ a).
      { intros Hta. rewrite Hta in Hkt.
        pose proof (Hsuf i t a ltac:(lia) Ha Hkt). lia. }
      unfold rename in Hk, Hk'. rewrite decide_False in Hk' by done.
      case_decide.
      - assert (kt = b) as Htb by congruence. rewrite Htb in Hkt.
        pose proof (Hsuf (i + 1) t b ltac:(lia) Hb Hkt). lia.
      - assert (kp = kt) as Hpt by congruence. rewrite Hpt in Hkp.
        pose proof (Hsuf p t kt ltac:(lia) Hkp Hkt). lia. }
    destruct (decide (t = i + 1)) as [Ht|].
    { rewrite Ht in Hkt. assert (kt = b) as Htb by congruence.
      assert (k = b) as Hkb.
      { unfold rename in Hk'. case_decide; congruence. }
      assert (kp = a) as Hpa.
      { unfold rename in Hk. case_decide; [done|]. exfalso.
        apply (Hnb p kp); [lia|done|congruence]. }
      exists a. split; [|unfold rename; case_decide; congruence].
      rewrite Hpa in Hkp.
      destruct (decide (q = i)) as [->|]; [done|].
      apply (Hint p q i a); [lia|done|done]. }
    assert (kp ≠ b) by (apply (Hnb p); [lia|done]).
    assert (kt ≠ b) by (apply (Hnb t); [lia|done]).
    assert (kp = kt) as Hpt by (apply (rename_eq a b); congruence).
    rewrite Hpt in Hkp.
    exists kt. split; [|done]. apply (Hint p q t kt); [lia|done|done].
  - intros x k. rewrite Hlk.
    destruct (set_id (e_sets s) x) as [kx|] eqn:Hx; [|done]. simpl. intros [= <-].
    destruct (decide (kx = a)) as [->|Hxa].
    + exists (i + 1). rewrite Hlk, Hb. simpl.
      unfold rename. repeat case_decide; congruence.
    + destruct (Hsurv x kx Hx) as (c & Hc). exists c. rewrite Hlk, Hc. done.
  - rewrite link_ends_link_Z; try done; [|apply Hfr|apply Hfo].
    rewrite Hcount, boundaries_snoc by done.
    rewrite decide_False.
    2:{ intros Hne. apply Hne. rewrite !Hlk. rewrite Ha, Hb. simpl.
        unfold rename.
        repeat case_decide; congruence. }
    rewrite (boundaries_ext (rename a b <$> e_sets s) (e_sets s) y i); [lia|].
    intros c Hc. rewrite !Hlk.
    destruct (Hdone (y, c)) as [kc Hkc].
    { apply (frame_in_grid R C); [done|]. apply (frame_in_grid R C) in Hin; [|done].
      simpl in *. lia. }
    { apply (frame_in_grid R C) in Hin; [|done]. simpl in *. lia. }
    destruct (Hdone (y, c + 1)) as [kc' Hkc'].
    { apply (frame_in_grid R C); [done|]. apply (frame_in_grid R C) in Hin; [|done].
      simpl in *. lia. }
    { apply (frame_in_grid R C) in Hin; [|done]. simpl in *. lia. }
    rewrite Hkc, Hkc'. simpl.
    assert (kc ≠ b) by (apply (Hnb c); [lia|done]).
    assert (kc' ≠ b) by (apply (Hnb (c + 1)); [lia|done]).
    split; intros Hne; [congruence|].
    intros [= Heq]. apply Hne. f_equal. by apply (rename_eq a b).
Qed.

Lemma eller_horizontal_step R C y i s :
  eller_horizontal_inv R C y i s → 0 ≤ y < R → 0 ≤ i → i + 1 < C →
  ∃ s', eller_horizontal (line_of y C) i s = Returns s' ∧
        eller_horizontal_inv R C y (i + 1) s'.
Proof.
  intros Hinv Hy Hi Hi1.
  pose proof Hinv as (Hcore & Hdone & Hrows & Hsuf & Hint & Hsurv & Hcount).
  assert (Hin : in_grid (e_grid s) (y, i)).
  { apply (frame_in_grid R C); [apply Hcore|]. simpl. lia. }
  assert (Hin' : in_grid (e_grid s) (y, i + 1)).
  { apply (frame_in_grid R C); [apply Hcore|]. simpl. lia. }
  destruct (Hdone (y, i)) as [a Ha]; [done|simpl; lia|].
  destruct (Hdone (y, i + 1)) as [b Hb]; [done|simpl; lia|].
  assert (Hab : a ≠ b).
  { intros ->. pose proof (Hsuf i (i + 1) b ltac:(lia) Ha Hb). lia. }
  unfold eller_horizontal. rewrite !row_get_line by lia.
  cbn [mbind outcome_bind]. rewrite !sets_get_id. unfold cell in *.
  rewrite Ha, Hb. cbn [mbind outcome_bind]. rewrite decide_True by done.
  destruct (random_choice_spec [true; false] (e_rand s)) as (coin & r' & -> & _);
    [done|].
  cbn [mbind outcome_bind]. destruct coin.
  - unfold merge_sets. rewrite !sets_get_id. rewrite Ha, Hb.
    cbn [mbind outcome_bind]. eexists; split; [reflexivity|].
    by apply eller_merge_inv.
  - eexists; split; [reflexivity|]. apply eller_skip_inv; [done..|].
    congruence.
Qed.

Lemma eller_horizontal_loop R C y s :
  0 ≤ y < R → eller_horizontal_inv R C y 0 s → 1 ≤ C →
  ∃ s', for_each (range (Z.of_nat (length (line_of y C)) - 1))
          (eller_horizontal (line_of y C)) s = Returns s' ∧
        eller_horizontal_inv R C y (C - 1) s'.
Proof.
  intros Hy Hinv HC. rewrite length_line_of by lia.
  destruct (for_each_prefix
              (λ l1, eller_horizontal_inv R C y (Z.of_nat (length l1)))
              (range (C - 1)) (eller_horizontal (line_of y C)) s)
    as (s' & Hrun & Hs'); [done| |].
  - intros l1 x l2 s1 Heq Hs1.
    assert (x = Z.of_nat (length l1) ∧ Z.of_nat (length l1) < C - 1) as [-> Hlt].
    { pose proof (f_equal (λ l, l !! length l1) Heq) as Hl. simpl in Hl.
      rewrite list_lookup_middle, range_lookup in Hl by done.
      case_decide; [|done]. by injection Hl as <-. }
    rewrite length_app. simpl length. rewrite Nat2Z.inj_add. simpl Z.of_nat.
    apply eller_horizontal_step; [done|done|lia|lia].
  - exists s'. split; [done|]. rewrite length_range in Hs'.
    by replace (Z.of_nat (Z.to_nat (C - 1))) with (C - 1) in Hs' by lia.
Qed.

(** *** Grouping a row by set id *)

Lemma groups_append_keys k x gs :
  (groups_append k x gs).*1 = if decide (k ∈ gs.*1) then gs.*1 else gs.*1 ++ [k].
Proof.
  induction gs as [|[k' m] gs IH].
  - done.
  - cbn [groups_append]. rewrite !fmap_cons. cbn [fst].
    destruct (decide (k' = k)) as [->|Hne].
    + rewrite decide_True; [done|]. apply elem_of_cons. by left.
    + rewrite fmap_cons, IH. cbn [fst].
      destruct (decide (k ∈ gs.*1)) as [Hin|Hin].
      * rewrite decide_True; [done|]. apply elem_of_cons. by right.
      * rewrite decide_False; [done|]. rewrite elem_of_cons. naive_solver.
Qed.

Lemma groups_append_elem k x gs k' m' :
  (k', m') ∈ groups_append k x gs →
  (k', m') ∈ gs ∨ (k' = k ∧ ∃ m, m' = m ++ [x] ∧ ((k, m) ∈ gs ∨ m = [])).
Proof.
  induction gs as [|[k0 m0] gs IH]; simpl.
  - intros [= -> ->]%list_elem_of_singleton. right. split; [done|]. exists []. auto.
  - destruct (decide (k0 = k)) as [->|Hne].
    + intros [[= -> ->]|Hin]%elem_of_cons.
      * right. split; [done|]. exists m0. split; [done|]. left. apply elem_of_cons. by left.
      * left. apply elem_of_cons. by right.
    + intros [[= -> ->]|Hin]%elem_of_cons.
      * left. apply elem_of_cons. by left.
      * destruct (IH Hin) as [?|(-> & m & -> & [?| ->])].
        -- left. apply elem_of_cons. by right.
        -- right. split; [done|]. exists m. split; [done|]. left.
           apply elem_of_cons. by right.
        -- right. split; [done|]. exists []. auto.
Qed.

Lemma groups_key_member (gs : list (Z * list cell)) k :
  k ∈ gs.*1 → ∃ m, (k, m) ∈ gs.
Proof.
  intros ([k' m] & -> & Hin)%list_elem_of_fmap. by exists m.
Qed.

Lemma groups_inv_step sets y j gs k :
  0 ≤ j → intervals sets y → groups_inv sets y j gs →
  set_id sets (y, j) = Some k →
  groups_inv sets y (j + 1) (groups_append k (y, j) gs).
Proof.
  intros Hj Hint (Hnd & Hmem & Hcov & Hlen) Hk.
  assert (Hkeys : k ∈ gs.*1 ↔ j ≠ 0 ∧ set_id sets (y, j - 1) = Some k).
  { split.
    - intros (m & Hm)%groups_key_member.
      destruct (Hmem k m Hm) as [Hne Hx].
      destruct m as [|x m]; [done|].
      destruct (Hx x) as (c & -> & Hc & Hid); [apply elem_of_cons; by left|].
      split; [lia|].
      destruct (decide (c = j - 1)) as [->|]; [done|].
      apply (Hint c (j - 1) j k); [lia|done|done].
    - intros [Hj0 Hid]. apply (Hcov (j - 1)); [lia|done]. }
  split_and!.
  - rewrite groups_append_keys. destruct (decide (k ∈ gs.*1)); [done|].
    apply NoDup_app. split_and!; [done| |apply NoDup_singleton].
    by intros k' Hk' ->%list_elem_of_singleton.
  - intros k' m' [Hin|(-> & m & -> & Hm)]%groups_append_elem.
    + destruct (Hmem k' m' Hin) as [Hne Hx]. split; [done|].
      intros x (c & -> & Hc & Hid)%Hx. exists c. split_and!; try done; lia.
    + split; [by destruct m|].
      intros x [Hx| ->%list_elem_of_singleton]%elem_of_app.
      * destruct Hm as [Hm| ->]; [|by apply elem_of_nil in Hx].
        destruct (Hmem k m Hm) as [_ Hxm].
        destruct (Hxm x Hx) as (c & -> & Hc & Hid). exists c.
        split_and!; try done; lia.
      * exists j. split_and!; try done; lia.
  - intros c k' Hc Hid. rewrite groups_append_keys.
    destruct (decide (c = j)) as [->|].
    + assert (k' = k) as -> by congruence.
      destruct (decide (k ∈ gs.*1)); [done|].
      apply elem_of_app. right. by apply list_elem_of_singleton.
    + assert (k' ∈ gs.*1) by (apply (Hcov c); [lia|done]).
      destruct (decide (k ∈ gs.*1)); [done|]. apply elem_of_app. by left.
  - rewrite decide_False by lia.
    replace (j + 1 - 1) with j by lia.
    assert (length (groups_append k (y, j) gs) = length (groups_append k (y, j) gs).*1)
      as -> by (by rewrite length_fmap).
    rewrite groups_append_keys.
    destruct (decide (j = 0)) as [->|Hj0].
    + destruct gs; [|simpl in Hlen; lia]. done.
    + assert (boundaries sets y j = boundaries sets y (j - 1) +
                (if decide (set_id sets (y, j - 1) ≠ set_id sets (y, j))
                 then 1 else 0)) as ->.
      { pose proof (boundaries_snoc sets y (j - 1) ltac:(lia)) as Hb.
        by replace (j - 1 + 1) with j in Hb by lia. }
      destruct (decide (k ∈ gs.*1)) as [Hin|Hin].
      * rewrite length_fmap, Hlen. apply Hkeys in Hin as [_ Hid].
        rewrite decide_False; [lia|]. intros Hne. apply Hne. congruence.
      * rewrite length_app, length_fmap. simpl length.
        rewrite Nat2Z.inj_add, Hlen. rewrite decide_True; [simpl; lia|].
        intros Heq. apply Hin, Hkeys. split; [done|]. congruence.
Qed.

Lemma group_sets_by_id_spec sets y C :
  0 ≤ C → intervals sets y →
  (∀ c, 0 ≤ c < C → is_Some (set_id sets (y, c))) →
  ∃ gs, group_sets_by_id sets (line_of y C) = Returns gs ∧ groups_inv sets y C gs.
Proof.
  intros HC Hint Hdom. unfold group_sets_by_id.
  destruct (for_each_prefix
              (λ l1, groups_inv sets y (Z.of_nat (length l1)))
              (line_of y C)
              (λ x groups, k ← sets_get sets x; Returns (groups_append k x groups)) [])
    as (gs & Hrun & Hgs).
  - split_and!; simpl; [apply NoDup_nil_2| | |done].
    + intros k m Hin. by apply elem_of_nil in Hin.
    + intros; lia.
  - intros l1 x l2 gs Heq Hgs.
    destruct (line_of_split _ _ _ _ _ Heq) as [-> Hlt].
    rewrite length_app. simpl length. rewrite Nat2Z.inj_add. simpl Z.of_nat.
    destruct (Hdom (Z.of_nat (length l1))) as [k Hk]; [lia|].
    rewrite sets_get_id, Hk. cbn [mbind outcome_bind].
    eexists; split; [reflexivity|]. apply groups_inv_step; [lia|done..].
  - exists gs. split; [done|]. by rewrite length_line_of in Hgs.
Qed.

(** *** Carving south *)

Lemma eller_south_start R C y s :
  eller_horizontal_inv R C y (C - 1) s →
  eller_south_inv R C y (e_sets s) [] s.
Proof.
  intros (Hcore & Hdone & Hrows & Hsuf & Hint & Hsurv & Hcount).
  assert (Hnone : ∀ c k, set_id (e_sets s) (y + 1, c) = Some k → False).
  { intros c k Hk.
    assert (is_Some (set_id (e_sets s) (y + 1, c))) as Hs by (by rewrite Hk).
    apply Hrows in Hs. simpl in Hs. lia. }
  split_and!; try done.
  - intros x Hx. apply Hrows in Hx. lia.
  - intros c k Hk. by destruct (Hnone c k).
  - intros c c' k Hk. by destruct (Hnone c k).
  - intros k Hk. by apply elem_of_nil in Hk.
  - rewrite Hcount. simpl. lia.
Qed.

Lemma eller_south_link_inv R C y sets0 G1 k m c r' s :
  eller_south_inv R C y sets0 G1 s →
  0 ≤ y → y + 1 < R → 0 ≤ c < C →
  set_id (e_sets s) (y, c) = Some k → k ∉ G1.*1 →
  eller_south_inv R C y sets0 (G1 ++ [(k, m)])
    (mkEller (link (y, c) (y + 1, c) true (e_grid s)) r'
             (<[(y + 1, c) := k]> (e_sets s)) (e_counter s)).
Proof.
  intros (Hcore & Hdone & Hrows & Hfix & Hsurv & Hsrow & Hsuniq & Hsdone & Hcount)
    Hy HyR Hc Hid Hk.
  assert (Hsc : set_id (e_sets s) (y + 1, c) = None).
  { destruct (set_id (e_sets s) (y + 1, c)) as [k'|] eqn:E; [|done].
    destruct (Hsrow c k' E) as [E1 E2]. congruence. }
  assert (Hne : ∀ c', (y, c') ≠ (y + 1, c)) by (intros c' [= ?]; lia).
  pose proof (core_not_linked R C s _ Hcore Hsc) as Hnl.
  destruct Hcore as (Hfr & Hfo & Hcol & Hsame & Hiso & Hbnd).
  assert (Hina : in_grid (e_grid s) (y, c)).
  { apply (frame_in_grid R C); [done|]. simpl. lia. }
  assert (Hinsc : in_grid (e_grid s) (y + 1, c)).
  { apply (frame_in_grid R C); [done|]. simpl. lia. }
  assert (Hnr : ¬ reachable (e_grid s) (y, c) (y + 1, c)).
  { apply no_links_not_reachable; [apply Hfo|by apply Hiso|apply Hne]. }
  assert (Hsym' : links_symmetric (link (y, c) (y + 1, c) true (e_grid s))).
  { apply link_symmetric, Hfo. }
  unfold eller_south_inv, eller_core. cbn [e_grid e_sets e_counter].
  split_and!.
  - by apply frame_link.
  - apply forest_link; try done. right. simpl. lia.
  - intros u v [Huv|[[-> ->]|[-> ->]]]%link_linked.
    + destruct (Hnl u v Huv). rewrite !set_id_insert.
      repeat case_decide; try done. by apply Hcol.
    + rewrite !set_id_insert. repeat case_decide; try done; by destruct (Hne c).
    + rewrite !set_id_insert. repeat case_decide; try done; by destruct (Hne c).
  - intros u v k'. rewrite !set_id_insert.
    case_decide as Hu; case_decide as Hv; intros Eu Ev.
    + rewrite Hu, Hv. apply reachable_refl.
    + rewrite Hu. injection Eu as <-. apply reachable_sym; [done|].
      eapply reachable_trans; [|apply reachable_link_ends].
      apply reachable_link. by apply (Hsame v (y, c) k).
    + rewrite Hv. injection Ev as <-.
      eapply reachable_trans; [|apply reachable_link_ends].
      apply reachable_link. by apply (Hsame u (y, c) k).
    + apply reachable_link. by apply (Hsame u v k').
  - intros u. rewrite set_id_insert. case_decide as Hu; [done|]. intros Eu.
    rewrite link_links_other; [by apply Hiso| |done].
    intros ->. congruence.
  - intros u k'. rewrite set_id_insert. case_decide as Hu.
    + intros [= <-]. rewrite Hu. split; [|done]. by destruct (Hbnd _ _ Hid).
    + apply Hbnd.
  - intros u Hu Hr. rewrite set_id_insert. case_decide; [done|]. by apply Hdone.
  - intros u. rewrite set_id_insert. case_decide as Hu.
    + intros _. rewrite Hu. simpl. lia.
    + apply Hrows.
  - intros u Hr. rewrite set_id_insert, decide_False; [by apply Hfix|].
    intros ->. simpl in Hr. lia.
  - intros u k'. rewrite set_id_insert. case_decide as Hu.
    + intros [= <-]. exists c. by rewrite set_id_insert, decide_False.
    + intros Eu. destruct (Hsurv u k' Eu) as (c' & Hc'). exists c'.
      by rewrite set_id_insert, decide_False.
  - intros c' k'. rewrite !set_id_insert.
    rewrite (decide_False (P := (y, c') = (y + 1, c))) by done.
    case_decide as Hc'.
    + intros [= <-]. assert (c' = c) as -> by congruence. split; [done|].
      rewrite fmap_app. apply elem_of_app. right. by apply list_elem_of_singleton.
    + intros E. destruct (Hsrow c' k' E) as [E1 E2]. split; [done|].
      rewrite fmap_app. apply elem_of_app. by left.
  - intros c1 c2 k'. rewrite !set_id_insert.
    case_decide as H1; case_decide as H2; intros E1 E2.
    + congruence.
    + injection E1 as <-. destruct (Hsrow c2 k E2) as [_ ?]. done.
    + injection E2 as <-. destruct (Hsrow c1 k E1) as [_ ?]. done.
    + by apply (Hsuniq c1 c2 k').
  - intros k'. rewrite fmap_app, elem_of_app. intros [Hk'|Hk'].
    + destruct (Hsdone k' Hk') as (c' & E). exists c'.
      rewrite set_id_insert, decide_False; [done|]. intros Heq.
      rewrite Heq in E. congruence.
    + apply list_elem_of_singleton in Hk'. simpl in Hk'. subst k'.
      exists c. by rewrite set_id_insert, decide_True.
  - rewrite link_ends_link_Z; try done; [|apply Hfr|apply Hfo].
    rewrite Hcount, length_app. simpl length. lia.
Qed.

Lemma eller_south_step R C y sets0 G1 k m G2 s :
  0 ≤ y → y + 1 < R →
  groups_inv sets0 y C (G1 ++ (k, m) :: G2) →
  eller_south_inv R C y sets0 G1 s →
  ∃ s', eller_south y (k, m) s = Returns s' ∧
        eller_south_inv R C y sets0 (G1 ++ [(k, m)]) s'.
Proof.
  intros Hy HyR (Hnd & Hmem & Hcov & Hlen) Hinv.
  pose proof Hinv as
    (Hcore & Hdone & Hrows & Hfix & Hsurv & Hsrow & Hsuniq & Hsdone & Hcount).
  pose proof Hcore as (Hfr & Hfo & Hcol & Hsame & Hiso & Hbnd).
  destruct (Hmem k m) as [Hne Hm].
  { apply elem_of_app. right. apply elem_of_cons. by left. }
  assert (Hk : k ∉ G1.*1).
  { rewrite fmap_app, fmap_cons in Hnd. apply NoDup_app in Hnd as (_ & Hnd & _).
    intros Hin. apply (Hnd k Hin). apply elem_of_cons. by left. }
  unfold eller_south.
  assert (num_rows (e_grid s) = R) as -> by apply Hfr.
  rewrite decide_True by lia. cbn [snd].
  destruct (random_choice_spec m (e_rand s) Hne) as (a & r' & -> & Ha).
  cbn [mbind outcome_bind].
  destruct (Hm a Ha) as (c & -> & Hc & Hid0).
  assert (Hid : set_id (e_sets s) (y, c) = Some k).
  { rewrite Hfix; [done|]. simpl. lia. }
  cbn [row col fst snd].
  rewrite shape_get_cell by apply Hfr.
  rewrite decide_True.
  2:{ apply (frame_in_grid R C); [done|]. simpl. lia. }
  cbn [mbind outcome_bind link_opt]. rewrite sets_get_id, Hid.
  cbn [mbind outcome_bind].
  eexists; split; [reflexivity|]. by apply eller_south_link_inv.
Qed.

Lemma eller_south_loop R C y s gs :
  0 ≤ y → y + 1 < R → 1 ≤ C →
  eller_horizontal_inv R C y (C - 1) s →
  groups_inv (e_sets s) y C gs →
  ∃ s', for_each gs (eller_south y) s = Returns s' ∧
        eller_assign_inv R C (y + 1) 0 s'.
Proof.
  intros Hy HyR HC Hh Hgs.
  destruct (for_each_prefix (eller_south_inv R C y (e_sets s)) gs (eller_south y) s)
    as (s' & Hrun & Hs').
  - by apply eller_south_start.
  - intros G1 [k m] G2 s1 -> Hs1. by apply (eller_south_step R C y _ G1 k m G2).
  - exists s'. split; [done|].
    destruct Hs' as
      (Hcore & Hdone & Hrows & Hfix & Hsurv & Hsrow & Hsuniq & Hsdone & Hcount).
    destruct Hgs as (Hnd & Hmem & Hcov & Hlen).
    split_and!; try done.
    + intros x Hx Hr. apply Hdone; [done|lia].
    + intros c Hc. lia.
    + intros x k Hx. destruct (Hsurv x k Hx) as (c & Hc).
      apply Hsdone. apply (Hcov c).
      * destruct Hcore as (Hfr & _ & _ & _ & _ & Hbnd).
        destruct (Hbnd _ _ Hc) as [_ Hin].
        apply (frame_in_grid R C) in Hin; [|done]. simpl in Hin. lia.
      * rewrite <- Hfix; [done|]. simpl. lia.
    + rewrite Hcount, Hlen, decide_False by lia. lia.
Qed.

(** In the last row the loop over the groups changes nothing. *)
Lemma eller_south_last y gs s :
  y = num_rows (e_grid s) - 1 →
  for_each gs (eller_south y) s = Returns s.
Proof.
  intros Hy. induction gs as [|grp gs IH]; [done|].
  cbn [for_each].
  assert (eller_south y grp s = Returns s) as ->; [|exact IH].
  unfold eller_south. destruct (decide (y < num_rows (e_grid s) - 1)); [lia|done].
Qed.

(** *** The closing pass of the last row *)

Lemma for_each_range {S : Type} (P : Z → S → Prop) (n : Z)
    (body : Z → S → outcome S) (s : S) :
  0 ≤ n → P 0 s →
  (∀ i s, 0 ≤ i < n → P i s → ∃ s', body i s = Returns s' ∧ P (i + 1) s') →
  ∃ s', for_each (range n) body s = Returns s' ∧ P n s'.
Proof.
  intros Hn H0 Hstep.
  destruct (for_each_prefix (λ l1, P (Z.of_nat (length l1))) (range n) body s)
    as (s' & Hrun & Hs'); [done| |].
  - intros l1 x l2 s1 Heq Hs1.
    assert (x = Z.of_nat (length l1) ∧ Z.of_nat (length l1) < n) as [-> Hlt].
    { pose proof (f_equal (λ l, l !! length l1) Heq) as Hl. simpl in Hl.
      rewrite list_lookup_middle, range_lookup in Hl by done.
      case_decide; [|done]. by injection Hl as <-. }
    rewrite length_app. simpl length. rewrite Nat2Z.inj_add. simpl Z.of_nat.
    apply Hstep; [lia|done].
  - exists s'. split; [done|]. rewrite length_range in Hs'.
    by replace (Z.of_nat (Z.to_nat n)) with n in Hs' by lia.
Qed.

Lemma merged_mono sets y i x : merged sets y i x → merged sets y (i + 1) x.
Proof. intros (c & Hc & E). exists c. split; [lia|done]. Qed.

Lemma last_reachable R C y i s x z :
  eller_last_inv R C y i s → reachable (e_grid s) x z →
  set_id (e_sets s) x = set_id (e_sets s) z ∨
  (merged (e_sets s) y i x ∧ merged (e_sets s) y i z).
Proof.
  intros (_ & _ & _ & _ & _ & _ & HE & _) Hr.
  apply (reachable_closed (e_grid s)
           (λ v, set_id (e_sets s) x = set_id (e_sets s) v ∨
                 (merged (e_sets s) y i x ∧ merged (e_sets s) y i v)) x z);
    [|by left|done].
  intros v w [Hv|[Hx Hv]] Hvw; destruct (HE v w Hvw) as [Hw|[Hv' Hw]].
  - left. congruence.
  - right. split; [|done]. destruct Hv' as (c & Hc & E). exists c.
    split; [done|congruence].
  - right. split; [done|]. destruct Hv as (c & Hc & E). exists c.
    split; [done|congruence].
  - by right.
Qed.

Lemma eller_last_start R C y s :
  eller_horizontal_inv R C y (C - 1) s → y = R - 1 →
  eller_last_inv R C y 0 s.
Proof.
  intros (Hcore & Hdone & Hrows & Hsuf & Hint & Hsurv & Hcount) Hy.
  destruct Hcore as (Hfr & Hfo & Hcol & Hsame & Hiso & Hbnd).
  split_and!; try done.
  - intros x. split.
    + intros Hx. apply Hdone; [done|]. apply (frame_in_grid R C) in Hx; [lia|done].
    + intros [k Hk]. by destruct (Hbnd x k Hk).
  - intros x z Hxz. left. by apply Hcol.
  - intros c Hc HcC. assert (c = 0) as -> by lia. apply reachable_refl.
  - rewrite Hcount, boundaries_0. lia.
Qed.

Lemma eller_last_step R C y i s :
  eller_last_inv R C y i s → 0 ≤ y < R → 0 ≤ i → i + 1 < C →
  ∃ s', eller_last (line_of y C) i s = Returns s' ∧
        eller_last_inv R C y (i + 1) s'.
Proof.
  intros Hinv Hy Hi Hi1.
  pose proof Hinv as (Hfr & Hfo & Hsame & Hdom & Hint & Hsurv & HE & Hpref & Hcount).
  assert (Hin : in_grid (e_grid s) (y, i)).
  { apply (frame_in_grid R C); [done|]. simpl. lia. }
  assert (Hin' : in_grid (e_grid s) (y, i + 1)).
  { apply (frame_in_grid R C); [done|]. simpl. lia. }
  destruct (proj1 (Hdom (y, i)) Hin) as [a Ha].
  destruct (proj1 (Hdom (y, i + 1)) Hin') as [b Hb].
  unfold eller_last. rewrite !row_get_line by lia.
  cbn [mbind outcome_bind]. rewrite !sets_get_id, Ha, Hb.
  cbn [mbind outcome_bind].
  destruct (decide (a ≠ b)) as [Hab|Hab].
  - eexists; split; [reflexivity|].
    assert (Hnr : ¬ reachable (e_grid s) (y, i) (y, i + 1)).
    { intros Hr. apply (last_reachable R C y i s) in Hr; [|done].
      destruct Hr as [E|[_ (c & Hc & E)]]; [congruence|].
      rewrite Hb in E. destruct (decide (c = i)) as [->|]; [congruence|].
      assert (set_id (e_sets s) (y, i) = Some b); [|congruence].
      apply (Hint c i (i + 1) b); [lia|by symmetry|done]. }
    unfold eller_last_inv. cbn [e_grid e_sets].
    split_and!; try done.
    + by apply frame_link.
    + apply forest_link; try done. left. simpl. lia.
    + intros x z k Hx Hz. apply reachable_link. by eapply Hsame.
    + intros x z [Hxz|[[-> ->]|[-> ->]]]%link_linked.
      * destruct (HE x z Hxz) as [?|[? ?]]; [by left|].
        right. split; by apply merged_mono.
      * right. split; [exists i|exists (i + 1)]; (split; [lia|done]).
      * right. split; [exists (i + 1)|exists i]; (split; [lia|done]).
    + intros c Hc HcC. destruct (decide (c = i + 1)) as [->|].
      * apply (reachable_trans _ _ (y, i)); [|apply reachable_link_ends].
        apply reachable_link, Hpref; lia.
      * apply reachable_link, Hpref; lia.
    + rewrite link_ends_link_Z; try done; [|apply Hfr|apply Hfo].
      rewrite Hcount, boundaries_snoc, decide_True; [lia|congruence|done].
  - assert (a = b) as <- by (destruct (decide (a = b)); [done|by destruct Hab]).
    exists s. split; [done|].
    split_and!; try done.
    + intros x z Hxz. destruct (HE x z Hxz) as [?|[? ?]]; [by left|].
      right. split; by apply merged_mono.
    + intros c Hc HcC. destruct (decide (c = i + 1)) as [->|].
      * apply (reachable_trans _ _ (y, i)); [apply Hpref; lia|].
        by apply (Hsame _ _ a).
      * apply Hpref; lia.
    + rewrite Hcount, boundaries_snoc, decide_False; [lia| |done].
      intros Hne. apply Hne. congruence.
Qed.

Lemma eller_last_loop R C y s :
  0 ≤ y < R → 1 ≤ C → eller_last_inv R C y 0 s →
  ∃ s', for_each (range (Z.of_nat (length (line_of y C)) - 1))
          (eller_last (line_of y C)) s = Returns s' ∧
        eller_last_inv R C y (C - 1) s'.
Proof.
  intros Hy HC Hinv. rewrite length_line_of by lia.
  apply (for_each_range (eller_last_inv R C y)); [lia|done|].
  intros i s1 Hi Hs1. apply eller_last_step; [done|done|lia|lia].
Qed.

Lemma eller_last_spanning R C y s :
  eller_last_inv R C y (C - 1) s → y = R - 1 → 1 ≤ R → 1 ≤ C →
  spanning_tree (e_grid s).
Proof.
  intros (Hfr & Hfo & Hsame & Hdom & Hint & Hsurv & HE & Hpref & Hcount) Hy HR HC.
  destruct Hfo as (Hwf & Hsym & Hgeo & Hac).
  assert (Hr0 : ∀ x, in_grid (e_grid s) x → reachable (e_grid s) x (y, 0)).
  { intros x Hx. destruct (proj1 (Hdom x) Hx) as [k Hk].
    destruct (Hsurv x k Hk) as (c & Hc).
    assert (in_grid (e_grid s) (y, c)) as Hin by (apply Hdom; by rewrite Hc).
    apply (frame_in_grid R C) in Hin; [|done]. simpl in Hin.
    eapply reachable_trans; [by apply (Hsame x (y, c) k)|].
    apply reachable_sym; [done|]. apply Hpref; lia. }
  split_and!; try done.
  - rewrite Hcount. destruct Hfr as (-> & -> & _). lia.
  - intros a b Ha Hb.
    eapply reachable_trans; [by apply Hr0|]. apply reachable_sym; [done|]. by apply Hr0.
Qed.

(** *** One row, and all rows *)

Lemma eller_row_step R C y s :
  0 ≤ y < R → 1 ≤ C → eller_assign_inv R C y 0 s →
  ∃ s', eller_row (y, line_of y C) s = Returns s' ∧ eller_rows_inv R C (y + 1) s'.
Proof.
  intros Hy HC Hinv. unfold eller_row.
  destruct (eller_assign_loop R C y s Hy Hinv) as (s1 & -> & H1).
  cbn [mbind outcome_bind].
  apply eller_horizontal_start in H1; [|lia].
  destruct (eller_horizontal_loop R C y s1 Hy H1 HC) as (s2 & -> & H2).
  cbn [mbind outcome_bind].
  pose proof H2 as (Hcore & Hdone & Hrows & Hsuf & Hint & Hsurv & Hcount).
  assert (HR2 : num_rows (e_grid s2) = R) by apply Hcore.
  destruct (group_sets_by_id_spec (e_sets s2) y C) as (gs & -> & Hgs); [lia|done| |].
  { intros c Hc. apply Hdone; [|simpl; lia].
    apply (frame_in_grid R C); [apply Hcore|]. simpl. lia. }
  cbn [mbind outcome_bind]. unfold eller_rows_inv.
  destruct (decide (y + 1 = R)) as [HyR|HyR].
  - rewrite eller_south_last by lia. cbn [mbind outcome_bind].
    rewrite decide_True by lia.
    destruct (eller_last_loop R C y s2) as (s3 & -> & H3);
      [done|done|apply eller_last_start; [done|lia]|].
    exists s3. split; [done|]. split; [apply H3|]. split; [apply H3|].
    apply (eller_last_spanning R C y); [done|lia..].
  - destruct (eller_south_loop R C y s2 gs) as (s3 & -> & H3); [lia|lia|done..|].
    cbn [mbind outcome_bind].
    assert (num_rows (e_grid s3) = R) as -> by apply H3.
    rewrite decide_False by lia. by exists s3.
Qed.

Lemma enumerate_split {A} (l : list A) L1 y x L2 :
  enumerate l = L1 ++ (y, x) :: L2 →
  y = Z.of_nat (length L1) ∧ l !! length L1 = Some x.
Proof.
  intros Heq. pose proof (f_equal (λ l, l !! length L1) Heq) as Hl. simpl in Hl.
  rewrite list_lookup_middle in Hl by done.
  unfold enumerate in Hl. rewrite list_lookup_imap in Hl.
  destruct (l !! length L1); simpl in Hl; [|done]. by injection Hl as <- <-.
Qed.

Lemma length_enumerate {A} (l : list A) : length (enumerate l) = length l.
Proof. apply length_imap. Qed.

Lemma shape_rows_lookup g k line :
  shape_ok g → rows g !! k = Some line →
  line = line_of (Z.of_nat k) (num_cols g) ∧ Z.of_nat k < num_rows g.
Proof.
  intros Hs. rewrite Hs, list_lookup_fmap, range_lookup.
  case_decide; [|done]. simpl. by intros [= <-].
Qed.

Lemma eller_inv_fresh R C g r :
  fresh_grid R C g → eller_assign_inv R C 0 0 (mkEller g r ∅ 0).
Proof.
  intros Hf. pose proof (fresh_frame R C g Hf) as Hfr.
  destruct Hf as (_ & _ & _ & _ & Hf).
  assert (Hno : ∀ c, links (heap g c) = []) by (intros c; apply Hf).
  unfold eller_assign_inv, eller_core. cbn [e_grid e_sets e_counter].
  split_and!; try done.
  - by apply no_links_forest.
  - intros x Hx Hr. apply (frame_in_grid R C) in Hx; [lia|done].
  - intros x. rewrite set_id_empty. by intros [? ?].
  - intros c Hc. lia.
  - rewrite link_ends_no_links by done. simpl. lia.
Qed.

Lemma Eller_make_maze_inv R C g r :
  1 ≤ R → 1 ≤ C → fresh_grid R C g →
  ∃ g' r', Eller_make_maze g r = Returns (g', r') ∧
           frame R C g' ∧ forest g' ∧ spanning_tree g'.
Proof.
  intros HR HC Hf. unfold Eller_make_maze.
  pose proof Hf as (HnR & HnC & Hshape & _).
  destruct (for_each_prefix (λ L1, eller_rows_inv R C (Z.of_nat (length L1)))
              (enumerate (rows g)) eller_row (mkEller g r ∅ 0))
    as (s' & -> & Hs').
  - unfold eller_rows_inv. simpl length. rewrite decide_False by lia.
    by apply eller_inv_fresh.
  - intros L1 [y line] L2 s Heq Hs.
    destruct (enumerate_split _ _ _ _ _ Heq) as [-> Hl].
    destruct (shape_rows_lookup g _ _ Hshape Hl) as [-> Hlt].
    rewrite HnC. rewrite HnR in Hlt.
    unfold eller_rows_inv in Hs. rewrite decide_False in Hs by lia.
    rewrite length_app. simpl length. rewrite Nat2Z.inj_add. simpl Z.of_nat.
    apply eller_row_step; [lia|done|done].
  - rewrite length_enumerate, Hshape, length_fmap, length_range, HnR in Hs'.
    unfold eller_rows_inv in Hs'. rewrite decide_True in Hs' by lia.
    cbn [mbind outcome_bind]. by eexists _, _.
Qed.

(** * Part IX: the generators end to end, and the two solvers compared *)

Lemma fresh_rows_empty R C g line :
  fresh_grid R C g → C ≤ 0 → line ∈ rows g → line = [].
Proof.
  intros (_ & HC & Hs & _) HC0 Hin. rewrite Hs in Hin.
  apply list_elem_of_fmap in Hin as (r & -> & _).
  rewrite HC. unfold range. by rewrite (seqZ_nil 0 C) by lia.
Qed.

Lemma fresh_no_rows R C g : fresh_grid R C g → R ≤ 0 → rows g = [].
Proof.
  intros (HR & _ & Hs & _) HR0. rewrite Hs, HR. unfold range.
  by rewrite (seqZ_nil 0 R) by lia.
Qed.

Lemma fresh_no_cells R C g : fresh_grid R C g → R ≤ 0 ∨ C ≤ 0 → all_cells g = [].
Proof.
  intros Hf Hle. destruct (fresh_grid_cells R C g Hf) as (_ & _ & Hlen).
  apply length_zero_iff_nil. rewrite Hlen.
  destruct Hle; [replace (Z.to_nat R) with 0%nat by lia|
                 replace (Z.to_nat C) with 0%nat by lia]; lia.
Qed.

Lemma for_each_neutral {A S} (l : list A) (body : A → S → outcome S) s :
  (∀ x s, x ∈ l → body x s = Returns s) → for_each l body s = Returns s.
Proof.
  induction l as [|x l IH]; intros H; simpl; [done|].
  rewrite H by (apply elem_of_cons; by left). simpl.
  apply IH. intros y s' Hy. apply H. apply elem_of_cons. by right.
Qed.

Lemma sw_row_nil st : sw_row [] st = Returns st.
Proof. by destruct st. Qed.

Lemma eller_row_nil y s : eller_row (y, []) s = Returns s.
Proof. unfold eller_row. simpl. by case_decide. Qed.

(** On a grid without cells every generator returns at once and changes
    nothing. *)
Lemma make_maze_empty m R C g r :
  fresh_grid R C g → R ≤ 0 ∨ C ≤ 0 → make_maze m g r = Returns (g, r).
Proof.
  intros Hf Hle. destruct m; simpl.
  - unfold BinaryTree_make_maze. by rewrite (fresh_no_cells R C g).
  - unfold Sidewinder_make_maze. apply for_each_neutral. intros line st Hin.
    destruct Hle as [HR|HC].
    + rewrite (fresh_no_rows R C g) in Hin by done. by apply elem_of_nil in Hin.
    + rewrite (fresh_rows_empty R C g line) by done. apply sw_row_nil.
  - unfold Eller_make_maze. rewrite for_each_neutral; [done|].
    intros [y line] s Hin.
    apply elem_of_lookup_imap in Hin as (i & line' & [= -> ->] & Hl).
    apply list_elem_of_lookup_2 in Hl.
    destruct Hle as [HR|HC].
    + rewrite (fresh_no_rows R C g) in Hl by done. by apply elem_of_nil in Hl.
    + rewrite (fresh_rows_empty R C g line') by done. apply eller_row_nil.
Qed.

Lemma frame_rows_eq R C g g' : frame R C g → frame R C g' → rows g' = rows g.
Proof.
  intros (HR & HC & Hs & _) (HR' & HC' & Hs' & _).
  by rewrite Hs, Hs', HR, HC, HR', HC'.
Qed.

Lemma frame_length_rows R C g : 0 ≤ R → frame R C g → Z.of_nat (length (rows g)) = R.
Proof.
  intros HR0 (HR & _ & Hs & _). rewrite Hs, length_fmap, length_range. lia.
Qed.

Lemma no_links_geometric g : (∀ c, links (heap g c) = []) → links_geometric g.
Proof. intros Hno a b Hab. by destruct (fresh_not_linked g a b Hno). Qed.

(** Every generator returns on every freshly constructed grid; it keeps
    the table, links only neighbouring cells, in both directions; on a grid
    with a cell the links form a spanning tree. *)
Lemma make_maze_inv m R C g r :
  fresh_grid R C g →
  ∃ g' r', make_maze m g r = Returns (g', r') ∧
    frame R C g' ∧ links_wf g' ∧ links_symmetric g' ∧ links_geometric g' ∧
    (1 ≤ R → 1 ≤ C → spanning_tree g').
Proof.
  intros Hf. pose proof (fresh_frame R C g Hf) as Hfr.
  destruct (decide (1 ≤ R ∧ 1 ≤ C)) as [[HR HC]|Hle].
  - destruct m; simpl.
    + destruct (BinaryTree_make_maze_inv R C g r Hf) as (g' & r' & Hrun & Hinv).
      exists g', r'. split; [done|].
      pose proof Hinv as (Hfr' & Hwf & Hsym & Hgeo & _).
      split_and!; try done. intros _ _.
      apply (bt_spanning_tree R C g' r'); [done|done|].
      unfold all_cells in *. by rewrite (frame_rows_eq R C g g').
    + destruct (Sidewinder_make_maze_inv R C g r HC Hf) as (g' & r' & Hrun & Hinv).
      exists g', r'. split; [done|].
      rewrite (frame_length_rows R C g) in Hinv by (done || lia).
      pose proof Hinv as (Hfr' & (Hwf & Hsym & Hgeo & _) & _).
      split_and!; try done. intros _ _. by apply (sw_spanning_tree R C g' r').
    + destruct (Eller_make_maze_inv R C g r HR HC Hf)
        as (g' & r' & Hrun & Hfr' & (Hwf & Hsym & Hgeo & _) & Hst).
      exists g', r'. by split_and!.
  - exists g, r. rewrite (make_maze_empty m R C g r) by (done || lia).
    destruct Hf as (_ & _ & _ & _ & Hf).
    assert (Hno : ∀ c, links (heap g c) = []) by (intros c; apply Hf).
    split_and!; try done.
    + by apply fresh_links_wf.
    + by apply no_links_symmetric.
    + by apply no_links_geometric.
    + intros. lia.
Qed.

(** C1: for every R ≥ 1 and C ≥ 1 and every sequence of random draws, each
    of the three generators, run once on the grid [Grid(R, C)] has just
    built, returns and leaves an R×C grid whose links form a spanning tree:
    link sets are symmetric and without self-links, they hold
    2·(R·C − 1) entries, that is R·C − 1 undirected links, no cycle exists,
    and every cell reaches every other cell. *)
Theorem C1_generators_spanning_tree (m : generator) (R C : Z) (g : Grid)
    (r : RandomSource) :
  1 ≤ R → 1 ≤ C → Grid_init R C = Returns g →
  ∃ g' r', make_maze m g r = Returns (g', r') ∧
    num_rows g' = R ∧ num_cols g' = C ∧ all_cells g' = all_cells g ∧
    links_wf g' ∧ links_symmetric g' ∧
    Z.of_nat (link_ends g') = 2 * (R * C - 1) ∧
    acyclic g' ∧ connected g'.
Proof.
  intros HR HC Hg. destruct (Grid_init_fresh R C) as (g0 & Hg0 & Hf).
  rewrite Hg in Hg0. injection Hg0 as <-.
  destruct (make_maze_inv m R C g r Hf) as (g' & r' & Hrun & Hfr & _ & _ & _ & Hst).
  destruct (Hst HR HC) as (Hwf & Hsym & Hcount & Hac & Hconn).
  exists g', r'. split; [done|].
  pose proof (frame_rows_eq R C g g' (fresh_frame R C g Hf) Hfr) as Hrows.
  destruct Hfr as (HR' & HC' & _). rewrite HR', HC' in Hcount.
  split_and!; try done. unfold all_cells. by rewrite Hrows.
Qed.

Lemma C1_generators_spanning_tree_witness :
  ∃ g g' r', Grid_init 2 3 = Returns g ∧
    make_maze Eller g (mkRandom (λ _, 0%nat) 0) = Returns (g', r') ∧
    Z.of_nat (link_ends g') = 2 * (2 * 3 - 1) ∧ acyclic g' ∧ connected g'.
Proof.
  destruct (Grid_init_fresh 2 3) as (g & Hg & _).
  destruct (C1_generators_spanning_tree Eller 2 3 g (mkRandom (λ _, 0%nat) 0))
    as (g' & r' & Hrun & _ & _ & _ & _ & _ & Hcount & Hac & Hconn);
    [lia|lia|exact Hg|].
  exists g, g', r'. split; [exact Hg|]. split; [exact Hrun|].
  split; [exact Hcount|]. split; [exact Hac|exact Hconn].
Defined.

(** C4: whatever the dimensions and the random draws, after any of the
    three generators has run on a freshly constructed grid, two linked cells
    are geometric neighbours (their coordinates differ by exactly 1 in
    exactly one coordinate) and [B] is in the link set of [A] if and only if
    [A] is in the link set of [B]. *)
Theorem C4_links_geometric_symmetric (m : generator) (R C : Z) (r : RandomSource) :
  ∃ g g' r', Grid_init R C = Returns g ∧ make_maze m g r = Returns (g', r') ∧
    ∀ A B, (linked g' A B → geometric_neighbors A B) ∧
           (linked g' A B ↔ linked g' B A).
Proof.
  destruct (Grid_init_fresh R C) as (g & Hg & Hf).
  destruct (make_maze_inv m R C g r Hf) as (g' & r' & Hrun & _ & _ & Hsym & Hgeo & _).
  exists g, g', r'. split; [done|]. split; [done|].
  intros A B. split; [apply Hgeo|]. split; apply Hsym.
Qed.

(** *** The two solvers on a spanning tree *)

(** A walk moves at most one column per link. *)
Lemma walk_col_bound g p :
  links_geometric g →
  ∀ a b, walk_from_to g a b p → Z.abs (col b - col a) ≤ edges p.
Proof.
  intros Hgeo. unfold edges.
  induction p as [|x [|y q] IH]; intros a b (Hh & Hl & Hw).
  - done.
  - simpl in *. injection Hh as <-. injection Hl as <-. lia.
  - simpl in Hh. injection Hh as <-.
    destruct Hw as [Hxy Hw].
    assert (Hyb : walk_from_to g y b (y :: q)).
    { split; [done|]. split; [|done]. by rewrite last_cons_cons in Hl. }
    specialize (IH y b Hyb). apply Hgeo in Hxy.
    unfold geometric_neighbors in Hxy. simpl length in *. lia.
Qed.

Lemma walk_row_bound g p :
  links_geometric g →
  ∀ a b, walk_from_to g a b p → Z.abs (row b - row a) ≤ edges p.
Proof.
  intros Hgeo. unfold edges.
  induction p as [|x [|y q] IH]; intros a b (Hh & Hl & Hw).
  - done.
  - simpl in *. injection Hh as <-. injection Hl as <-. lia.
  - simpl in Hh. injection Hh as <-.
    destruct Hw as [Hxy Hw].
    assert (Hyb : walk_from_to g y b (y :: q)).
    { split; [done|]. split; [|done]. by rewrite last_cons_cons in Hl. }
    specialize (IH y b Hyb). apply Hgeo in Hxy.
    unfold geometric_neighbors in Hxy. simpl length in *. lia.
Qed.

Lemma calls_ok_init g : calls_ok (DjikstraSolver_init g).
Proof. intros c1 c2 w H. by apply elem_of_nil in H. Qed.

(** C2, as the specification states it, fails on the code: distances are
    capped by the sentinel 10000.  On the 1×10001 grid the only spanning
    tree is the corridor, which every generator builds; its two ends are
    10000 links apart, the weighted solver returns the empty list, and the
    traversal returns the corridor. *)
Lemma C2_sentinel_hides_long_path :
  let g := maze_of (BinaryTree_make_maze (the_grid (Grid_init 1 10001))
                      (mkRandom (λ _, 0%nat) 0)) in
  num_rows g = 1 ∧ num_cols g = 10001 ∧ spanning_tree g ∧
  (∃ n s', ∀ fuel, (n ≤ fuel)%nat →
     solve fuel (DjikstraSolver_init g) = Returns ([], s')) ∧
  (∃ n p, (∀ fuel, (n ≤ fuel)%nat →
     solve_maze fuel g (0, 0) (0, 10000) = Returns (Some p)) ∧
     walk_from_to g (0, 0) (0, 10000) p ∧ 10000 ≤ edges p).
Proof.
  intros g. subst g.
  assert (Hlit : Z.abs (10000 - 0) = 10000) by reflexivity.
  destruct (Grid_init_fresh 1 10001) as (g0 & Hg0 & Hf). rewrite Hg0.
  cbn [the_grid].
  destruct (make_maze_inv BinaryTree 1 10001 g0 (mkRandom (λ _, 0%nat) 0) Hf)
    as (g & r' & Hrun & Hfr & Hwf & Hsym & Hgeo & Hst).
  cbn [make_maze] in Hrun. rewrite Hrun. cbn [maze_of].
  specialize (Hst ltac:(lia) ltac:(lia)).
  pose proof Hfr as (HR & HC & Hs & _).
  assert (Hin0 : in_grid g (0, 0)).
  { apply (frame_in_grid 1 10001); [done|]. simpl. lia. }
  assert (Hcl : links_closed g) by (by apply links_wf_closed).
  assert (Hlong : ∀ q, walk_from_to g (0, 0) (0, 10000) q → 10000 ≤ edges q).
  { intros q Hq. pose proof (walk_col_bound g q Hgeo _ _ Hq) as Hb.
    unfold col in Hb. cbn [snd] in Hb. rewrite Hlit in Hb. exact Hb. }
  split; [exact HR|]. split; [exact HC|]. split; [exact Hst|]. split.
  - destruct (solve_spec (DjikstraSolver_init g) Hs Hin0 Hcl Hsym eq_refl
                (calls_ok_init g))
      as (n & p & s' & Hsolve & _ & [[-> _]|(Hwalk & _ & Hlt & _)]).
    + by exists n, s'.
    + simpl in Hwalk. rewrite HR, HC in Hwalk. simpl in Hwalk.
      apply Hlong in Hwalk. lia.
  - destruct (solve_maze_runs g (0, 0) (0, 10000) Hcl Hin0) as (n & res & Hpost & Hres).
    destruct res as [p|]; simpl in Hpost.
    + destruct Hpost as [Hwalk _]. exists n, p. split_and!; [done|done|by apply Hlong].
    + destruct Hpost. apply Hst; [done|].
      apply (frame_in_grid 1 10001); [done|]. simpl. lia.
Qed.

(** C2 (amended): on a grid whose links form a spanning tree and whose
    first cell (0, 0) and last cell (R − 1, C − 1) are joined by a walk of
    fewer than 10000 links, the weighted solver returns a walk between the
    two without repetition; its number of links is the tree distance (no
    walk has fewer links, and every walk without repetition is this one);
    and the traversal between the same two cells returns the same
    sequence. *)
Theorem C2_solvers_agree (g : Grid) (q : list cell) :
  let t := (num_rows g - 1, num_cols g - 1) in
  shape_ok g → in_grid g (0, 0) → spanning_tree g →
  walk_from_to g (0, 0) t q → edges q < 10000 →
  ∃ n p s',
    (∀ fuel, (n ≤ fuel)%nat →
       solve fuel (DjikstraSolver_init g) = Returns (p, s') ∧
       solve_maze fuel g (0, 0) t = Returns (Some p)) ∧
    walk_from_to g (0, 0) t p ∧ NoDup p ∧
    (∀ q', walk_from_to g (0, 0) t q' → edges p ≤ edges q') ∧
    (∀ q', walk_from_to g (0, 0) t q' → NoDup q' → q' = p).
Proof.
  intros t Hs Hin0 (Hwf & Hsym & _ & Hac & _) Hq Hlt.
  assert (Hcl : links_closed g) by (by apply links_wf_closed).
  destruct (solve_spec (DjikstraSolver_init g) Hs Hin0 Hcl Hsym eq_refl
              (calls_ok_init g))
    as (n1 & p & s' & Hsolve & _ & [[_ Hfar]|(Hwalk & Hnd & _ & Hmin)]).
  { apply Hfar in Hq. lia. }
  simpl in Hwalk, Hmin. fold t in Hwalk, Hmin.
  destruct (solve_maze_runs g (0, 0) t Hcl Hin0) as (n2 & res & Hpost & Hres).
  destruct res as [p'|]; simpl in Hpost.
  - destruct Hpost as [Hwalk' Hnd'].
    assert (p' = p) as -> by (by apply (acyclic_unique_walk g Hsym Hac p' p (0, 0) t)).
    exists (n1 `max` n2)%nat, p, s'. split_and!; try done.
    + intros fuel Hfuel. split; [apply Hsolve; lia|apply Hres; lia].
    + intros q' Hq' Hnd''.
      by apply (acyclic_unique_walk g Hsym Hac q' p (0, 0) t).
  - destruct Hpost. by exists p.
Qed.

Lemma example_1x2_spanning_tree : spanning_tree example_1x2.
Proof.
  destruct (Grid_init_fresh 1 2) as (g & Hg & Hf).
  pose proof (fresh_frame 1 2 g Hf) as Hfr.
  unfold example_1x2. rewrite Hg. cbn [the_grid].
  pose proof Hf as (HR & HC & Hs & Hw & Hno').
  assert (Hno : ∀ c, links (heap g c) = []) by (intros c; apply Hno').
  assert (Ha : in_grid g (0, 0)) by (unfold in_grid; rewrite HR, HC; simpl; lia).
  assert (Hb : in_grid g (0, 1)) by (unfold in_grid; rewrite HR, HC; simpl; lia).
  assert (Hnr : ¬ reachable g (0, 0) (0, 1)).
  { apply no_links_not_reachable; [by apply no_links_symmetric|done|done]. }
  destruct (forest_link (0, 0) (0, 1) g) as (Hwf & Hsym & _ & Hac); try done.
  { by apply no_links_forest. }
  { left. simpl. lia. }
  split_and!; try done.
  - rewrite link_ends_link_Z; try done; [|by apply no_links_symmetric].
    rewrite link_ends_no_links by done. simpl. rewrite HR, HC. lia.
  - intros [r1 c1] [r2 c2] [Hr1 Hc1] [Hr2 Hc2]. simpl in *.
    rewrite HR, HC in *.
    assert (r1 = 0) as -> by lia. assert (r2 = 0) as -> by lia.
    assert (c1 = 0 ∨ c1 = 1) as [-> | ->] by lia;
      assert (c2 = 0 ∨ c2 = 1) as [-> | ->] by lia.
    + apply reachable_refl.
    + apply reachable_link_ends.
    + apply reachable_sym; [done|]. apply reachable_link_ends.
    + apply reachable_refl.
Qed.

Lemma example_1x2_walk :
  num_rows example_1x2 = 1 ∧ num_cols example_1x2 = 2 ∧
  walk_from_to example_1x2 (0, 0) (0, 1) [(0, 0); (0, 1)].
Proof.
  destruct (Grid_init_fresh 1 2) as (g & Hg & HR & HC & _).
  unfold example_1x2. rewrite Hg. cbn [the_grid].
  split; [done|]. split; [done|].
  split; [done|]. split; [done|]. split; [|done].
  apply link_linked. right. by left.
Qed.

Lemma C2_solvers_agree_witness :
  ∃ n p s', (∀ fuel, (n ≤ fuel)%nat →
       solve fuel (DjikstraSolver_init example_1x2) = Returns (p, s') ∧
       solve_maze fuel example_1x2 (0, 0) (0, 1) = Returns (Some p)) ∧
    p = [(0, 0); (0, 1)].
Proof.
  destruct example_1x2_walk as (HR & HC & Hwalk).
  destruct (C2_solvers_agree example_1x2 [(0, 0); (0, 1)])
    as (n & p & s' & Hrun & _ & _ & _ & Huniq).
  - apply example_1x2_shape.
  - apply example_1x2_shape.
  - apply example_1x2_spanning_tree.
  - rewrite HR, HC. exact Hwalk.
  - unfold edges. simpl. lia.
  - exists n, p, s'. rewrite HR, HC in Hrun, Huniq. split; [exact Hrun|].
    symmetry. apply Huniq; [exact Hwalk|].
    apply NoDup_cons. split; [|apply NoDup_singleton].
    intros Hin%list_elem_of_singleton. discriminate Hin.
Defined.

Lemma C3_solve_maze_path_witness :
  ∃ n p, (∀ fuel, (n ≤ fuel)%nat →
            solve_maze fuel example_1x2 (0, 0) (0, 1) = Returns (Some p)) ∧
         head p = Some (0, 0) ∧ last p = Some (0, 1) ∧
         is_walk example_1x2 p ∧ NoDup p.
Proof.
  apply (C3_solve_maze_path example_1x2 (0, 0) (0, 1)).
  - apply example_1x2_closed.
  - apply example_1x2_shape.
  - exists [(0, 0); (0, 1)]. apply example_1x2_walk.
Defined.

(** * Part X: further properties of the code *)

(** *** Construction *)

(** X1: [Grid.__init__] wires the four neighbour slots of every cell: north
    is the cell one row up, south one row down, east one column right, west
    one column left, and a slot whose cell would lie outside the grid holds
    [None]. *)
Theorem configure_cells_wiring (R C : Z) :
  ∃ g, Grid_init R C = Returns g ∧
    ∀ r c, 0 ≤ r < R → 0 ≤ c < C →
      get_neighbor g (r, c) North = (if decide (0 < r) then Some (r - 1, c) else None) ∧
      get_neighbor g (r, c) South = (if decide (r + 1 < R) then Some (r + 1, c) else None) ∧
      get_neighbor g (r, c) East = (if decide (c + 1 < C) then Some (r, c + 1) else None) ∧
      get_neighbor g (r, c) West = (if decide (0 < c) then Some (r, c - 1) else None).
Proof.
  destruct (Grid_init_fresh R C) as (g & Hg & HR & HC & Hs & Hw & _).
  exists g. split; [done|]. intros r c Hr Hc.
  assert (Hin : in_grid g (r, c)) by (unfold in_grid; simpl; lia).
  rewrite !Hw by done. subst R C.
  split_and!;
    (destruct (decide (in_grid _ _)) as [Hi|Hi]; unfold in_grid, step in Hi;
     simpl in Hi; case_decide; try done; lia).
Qed.

(** X2: [all_cells] lists the cells row by row, each row from west to
    east: the cell (r, c) of an R×C grid is at index r·C + c. *)
Theorem all_cells_row_major (R C : Z) (g : Grid) (r c : Z) :
  Grid_init R C = Returns g → 0 ≤ r < R → 0 ≤ c < C →
  all_cells g !! Z.to_nat (r * C + c) = Some (r, c).
Proof.
  intros Hg Hr Hc.
  destruct (Grid_init_fresh R C) as (g' & Hg' & HR & HC & Hs & _).
  rewrite Hg in Hg'. injection Hg' as <-.
  unfold all_cells. rewrite Hs, HR, HC.
  replace (Z.to_nat (r * C + c)) with (Z.to_nat r * Z.to_nat C + Z.to_nat c)%nat by nia.
  apply (join_lookup_Some_same_length' (Z.to_nat C)).
  - apply Forall_forall. intros l (r' & -> & _)%list_elem_of_fmap.
    by rewrite length_fmap, length_range.
  - lia.
  - exists ((λ c', (r, c')) <$> range C). split.
    + rewrite list_lookup_fmap, range_lookup, decide_True by lia. simpl.
      by replace (Z.of_nat (Z.to_nat r)) with r by lia.
    + rewrite list_lookup_fmap, range_lookup, decide_True by lia. simpl.
      by replace (Z.of_nat (Z.to_nat c)) with c by lia.
Qed.

Lemma all_cells_row_major_witness :
  ∃ g, Grid_init 2 3 = Returns g ∧ all_cells g !! 5%nat = Some (1, 2).
Proof.
  destruct (Grid_init_fresh 2 3) as (g & Hg & _).
  exists g. split; [exact Hg|].
  apply (all_cells_row_major 2 3 g 1 2 Hg); lia.
Defined.

Lemma configure_cells_wiring_witness :
  ∃ g, Grid_init 2 2 = Returns g ∧
    get_neighbor g (0, 1) North = None ∧ get_neighbor g (0, 1) South = Some (1, 1) ∧
    get_neighbor g (0, 1) East = None ∧ get_neighbor g (0, 1) West = Some (0, 0).
Proof.
  destruct (configure_cells_wiring 2 2) as (g & Hg & Hw).
  exists g. split; [exact Hg|]. apply (Hw 0 1); lia.
Defined.

(** *** Linking and unlinking *)

Lemma link_one_way_links a b g c :
  links (heap (link a b false g) c) =
  if decide (c = a) then set_add b (links (heap g c)) else links (heap g c).
Proof. unfold link. simpl. by case_decide. Qed.

(** X3: after [a.link(b)] each of the two cells is linked to the other and
    no other pair of cells has changed; with [bidirectional=False] only
    [b] is added to the links of [a]. *)
Theorem link_is_linked (g : Grid) (a b x y : cell) :
  is_linked (link a b true g) x y =
    (is_linked g x y || bool_decide ((x = a ∧ y = b) ∨ (x = b ∧ y = a))) ∧
  is_linked (link a b false g) x y =
    (is_linked g x y || bool_decide (x = a ∧ y = b)).
Proof.
  unfold is_linked. split; apply Bool.eq_true_iff_eq.
  - rewrite Bool.orb_true_iff, !bool_decide_eq_true. apply (link_linked a b g x y).
  - rewrite Bool.orb_true_iff, !bool_decide_eq_true, link_one_way_links.
    case_decide; rewrite ?elem_of_set_add; naive_solver.
Qed.


Lemma elem_of_set_discard x y s : y ∈ set_discard x s ↔ y ∈ s ∧ y ≠ x.
Proof. unfold set_discard. rewrite list_elem_of_filter. tauto. Qed.

Lemma unlink_links a b g c :
  links (heap (unlink a b true g) c) =
  let la := if decide (c = a) then set_discard b (links (heap g c))
            else links (heap g c) in
  if decide (c = b) then set_discard a la else la.
Proof. unfold unlink. simpl. repeat case_decide; done. Qed.

Lemma unlink_linked a b g x y :
  linked (unlink a b true g) x y ↔
  linked g x y ∧ ¬ ((x = a ∧ y = b) ∨ (x = b ∧ y = a)).
Proof.
  unfold linked. rewrite unlink_links. simpl.
  repeat case_decide; rewrite ?elem_of_set_discard; naive_solver.
Qed.

(** X5: after [a.unlink(b)] neither of the two cells is linked to the
    other and no other pair of cells has changed; unlinking cells that are
    not linked raises nothing. *)
Theorem unlink_is_linked (g : Grid) (a b x y : cell) :
  is_linked (unlink a b true g) x y =
  (is_linked g x y && negb (bool_decide ((x = a ∧ y = b) ∨ (x = b ∧ y = a)))).
Proof.
  unfold is_linked. apply Bool.eq_true_iff_eq.
  rewrite Bool.andb_true_iff, Bool.negb_true_iff, bool_decide_eq_false,
    !bool_decide_eq_true.
  apply (unlink_linked a b g x y).
Qed.

(** X6: unlinking undoes linking: when [a] and [b] were not linked,
    [a.link(b)] followed by [a.unlink(b)] leaves every cell linked to
    exactly the cells it was linked to before, and touches no other
    attribute. *)
Theorem unlink_link_round_trip (g : Grid) (a b c : cell) :
  ¬ linked g a b → ¬ linked g b a →
  (∀ y, is_linked (unlink a b true (link a b true g)) c y = is_linked g c y) ∧
  distance (heap (unlink a b true (link a b true g)) c) = distance (heap g c) ∧
  previous (heap (unlink a b true (link a b true g)) c) = previous (heap g c) ∧
  ∀ d, get_neighbor (unlink a b true (link a b true g)) c d = get_neighbor g c d.
Proof.
  intros Hab Hba. split.
  - intros y. unfold is_linked. apply Bool.eq_true_iff_eq.
    rewrite !bool_decide_eq_true.
    change (linked (unlink a b true (link a b true g)) c y ↔ linked g c y).
    rewrite unlink_linked, link_linked. split.
    + intros [[Hcy|Hnew] Hnot]; [done|]. by destruct Hnot.
    + intros Hcy. split; [by left|].
      intros [[-> ->]|[-> ->]]; [by apply Hab|by apply Hba].
  - unfold unlink, link, get_neighbor. simpl. repeat case_decide; done.
Qed.

Lemma unlink_link_round_trip_witness :
  ∃ g, Grid_init 1 2 = Returns g ∧
    is_linked (unlink (0, 0) (0, 1) true (link (0, 0) (0, 1) true g)) (0, 0) (0, 1)
    = false.
Proof.
  destruct (Grid_init_fresh 1 2) as (g & Hg & _ & _ & _ & _ & Hf).
  exists g. split; [exact Hg|].
  destruct (unlink_link_round_trip g (0, 0) (0, 1) (0, 0)) as (Hl & _).
  - unfold linked. destruct (Hf (0, 0)) as (-> & _). apply not_elem_of_nil.
  - unfold linked. destruct (Hf (0, 1)) as (-> & _). apply not_elem_of_nil.
  - rewrite Hl. unfold is_linked. destruct (Hf (0, 0)) as (-> & _).
    apply bool_decide_eq_false. apply not_elem_of_nil.
Defined.

(** *** Neighbours *)

Lemma elem_of_neighbors g c x :
  x ∈ neighbors g c ↔ ∃ d, get_neighbor g c d = Some x.
Proof.
  unfold neighbors, get_neighbor. rewrite list_elem_of_omap. split.
  - intros (d & _ & Hd). by exists d.
  - intros (d & Hd). exists d. split; [|done]. destruct d; set_solver.
Qed.

(** X7: on a constructed grid, [neighbors()] of a cell holds exactly the
    cells of the grid one step north, south, east or west of it, each
    once; links play no part. *)
Theorem neighbors_wired (g : Grid) (c x : cell) :
  wired g → in_grid g c →
  (x ∈ neighbors g c ↔ in_grid g x ∧ geometric_neighbors c x) ∧
  NoDup (neighbors g c).
Proof.
  intros Hw Hc. split.
  - rewrite elem_of_neighbors. split.
    + intros (d & Hd). apply (wired_neighbor g c d x Hw Hc) in Hd as [-> Hin].
      split; [done|]. apply step_geometric.
    + intros [Hx Hgeo].
      assert (∃ d, x = step c d) as [d ->].
      { destruct c as [r k], x as [r' k']. unfold geometric_neighbors in Hgeo.
        simpl in Hgeo. unfold step. simpl.
        destruct Hgeo as [[-> Hk]|[-> Hr]].
        - destruct (decide (k' = k + 1)) as [->|]; [by exists East|].
          exists West. f_equal. lia.
        - destruct (decide (r' = r + 1)) as [->|]; [by exists South|].
          exists North. f_equal. lia. }
      exists d. rewrite Hw by done. by rewrite decide_True.
  - unfold neighbors.
    change (neighbor_cells (heap g c)) with (get_neighbor g c).
    simpl. rewrite !Hw by done.
    assert (Hne : ∀ d d', d ≠ d' → step c d ≠ step c d').
    { intros d d' Hdd. destruct c as [r k], d, d'; unfold step; simpl;
        try done; intros [= ?]; lia. }
    repeat case_decide; simpl;
      repeat (apply NoDup_cons; split;
                [repeat (apply not_elem_of_cons; split; [by apply Hne|]);
                 apply not_elem_of_nil|]);
      apply NoDup_nil_2.
Qed.

Lemma neighbors_wired_witness :
  ∃ g, Grid_init 2 2 = Returns g ∧ (1, 0) ∈ neighbors g (0, 0) ∧ (1, 1) ∉ neighbors g (0, 0).
Proof.
  destruct (Grid_init_fresh 2 2) as (g & Hg & HR & HC & Hs & Hw & _).
  exists g. split; [exact Hg|].
  assert (Hin : in_grid g (0, 0)) by (unfold in_grid; rewrite HR, HC; simpl; lia).
  split.
  - apply (neighbors_wired g (0, 0) (1, 0) Hw Hin). split.
    + unfold in_grid. rewrite HR, HC. simpl. lia.
    + right. simpl. lia.
  - intros Hx. apply (neighbors_wired g (0, 0) (1, 1) Hw Hin) in Hx as [_ Hgeo].
    unfold geometric_neighbors in Hgeo. simpl in Hgeo. lia.
Defined.

Lemma min_by_ext (key key' : cell → Z) x l :
  (∀ y, key y = key' y) → min_by key x l = min_by key' x l.
Proof.
  intros Hk. revert x. induction l as [|y l IH]; intros x; [done|].
  cbn [min_by]. rewrite !Hk, !IH. done.
Qed.

Lemma get_closest_cell_neighbors g c :
  get_closest_cell g c =
  match neighbors g c with
  | [] => None
  | n :: rest => Some (min_by (λ n, distance (heap g n)) n rest)
  end.
Proof. done. Qed.

(** X8: [get_closest_cell] answers [None] exactly when the cell has no
    neighbour; otherwise it answers a neighbour whose distance is smallest
    among all neighbours, whether or not the cell is linked to it:
    linking or unlinking cells never changes the answer. *)
Theorem get_closest_cell_ignores_links (g : Grid) (c a b : cell) :
  (get_closest_cell g c = None ↔ neighbors g c = []) ∧
  (∀ n, get_closest_cell g c = Some n →
     n ∈ neighbors g c ∧
     ∀ m, m ∈ neighbors g c → distance (heap g n) ≤ distance (heap g m)) ∧
  get_closest_cell (link a b true g) c = get_closest_cell g c ∧
  get_closest_cell (unlink a b true g) c = get_closest_cell g c.
Proof.
  rewrite !get_closest_cell_neighbors. split_and!.
  - by destruct (neighbors g c).
  - intros n. destruct (neighbors g c) as [|n0 rest]; [done|].
    intros [= <-]. apply (min_by_spec (λ n, distance (heap g n)) n0 rest).
  - assert (neighbors (link a b true g) c = neighbors g c) as ->.
    { unfold neighbors. f_equal.
      change (neighbor_cells (heap ?g c)) with (get_neighbor g c).
      unfold link, get_neighbor. simpl. repeat case_decide; done. }
    assert (∀ n, distance (heap (link a b true g) n) = distance (heap g n)) as Hd
      by (intros; apply link_distance).
    destruct (neighbors g c) as [|n0 rest]; [done|]. f_equal.
    by apply min_by_ext.
  - assert (neighbors (unlink a b true g) c = neighbors g c) as ->.
    { unfold neighbors. f_equal. unfold unlink. simpl. repeat case_decide; done. }
    assert (∀ n, distance (heap (unlink a b true g) n) = distance (heap g n)) as Hd.
    { intros n. unfold unlink. simpl. repeat case_decide; done. }
    destruct (neighbors g c) as [|n0 rest]; [done|]. f_equal.
    by apply min_by_ext.
Qed.

(** *** The two solvers on arbitrary link relations *)

(** X9: the traversal answers [None] exactly when the end cell cannot be
    reached from the start cell through links; otherwise it answers a
    path. *)
Theorem solve_maze_none_iff_unreachable (g : Grid) (A B : cell) :
  links_closed g → in_grid g A →
  ∃ n r, (∀ fuel, (n ≤ fuel)%nat → solve_maze fuel g A B = Returns r) ∧
         (r = None ↔ ¬ reachable g A B).
Proof.
  intros Hcl HA.
  destruct (solve_maze_runs g A B Hcl HA) as (n & r & Hpost & Hrun).
  exists n, r. split; [done|].
  destruct r as [p|]; simpl in Hpost.
  - split; [done|]. intros Hnr. destruct Hnr. exists p. apply Hpost.
  - done.
Qed.

Lemma solve_maze_none_iff_unreachable_witness :
  ∃ g, Grid_init 2 2 = Returns g ∧
    ∃ n, ∀ fuel, (n ≤ fuel)%nat → solve_maze fuel g (0, 0) (1, 1) = Returns None.
Proof.
  destruct (Grid_init_fresh 2 2) as (g & Hg & HR & HC & _ & _ & Hf).
  exists g. split; [exact Hg|].
  assert (Hno : ∀ c, links (heap g c) = []) by (intros c; apply Hf).
  destruct (solve_maze_none_iff_unreachable g (0, 0) (1, 1)) as (n & r & Hrun & Hr).
  - by apply no_links_closed.
  - unfold in_grid. rewrite HR, HC. simpl. lia.
  - exists n. intros fuel Hfuel. rewrite (Hrun fuel Hfuel). f_equal.
    apply Hr. intros (p & Hp). by apply (no_links_walk g) in Hp.
Defined.



(** X11: when the weighted solver returns, the distance attribute of every
    cell holds the number of links of a shortest walk from (0, 0) to it,
    or 10000 when there is no walk of fewer than 10000 links. *)
Theorem solve_distances (g : Grid) :
  shape_ok g → in_grid g (0, 0) → links_closed g →
  ∃ n p s',
    (∀ fuel, (n ≤ fuel)%nat → solve fuel (DjikstraSolver_init g) = Returns (p, s')) ∧
    ∀ c, in_grid g c →
      0 ≤ dist s' c ≤ 10000 ∧
      (∀ q, walk_from_to g (0, 0) c q → dist s' c ≤ edges q) ∧
      (dist s' c < 10000 → ∃ q, walk_from_to g (0, 0) c q ∧ edges q = dist s' c).
Proof.
  intros Hs Hin0 Hcl.
  destruct (solve_unfold (DjikstraSolver_init g) Hs Hin0 Hcl eq_refl (calls_ok_init g))
    as (n1 & s2 & Hinv & Hq2 & Hsolve).
  destruct (solve_returns (DjikstraSolver_init g) Hs Hin0 Hcl eq_refl (calls_ok_init g))
    as (n2 & p & s' & Hret & _).
  assert (s' = s2) as ->.
  { specialize (Hsolve (n1 `max` n2)%nat ltac:(lia)).
    rewrite (Hret (n1 `max` n2)%nat) in Hsolve by lia.
    case_decide; [congruence|].
    destruct (recover_path _ s2); simpl in Hsolve; congruence. }
  exists n2, p, s2. split; [done|]. intros c Hc.
  simpl in Hinv.
  pose proof (dijkstra_final_le g s2 Hcl Hin0 Hinv Hq2) as Hfinal.
  destruct Hinv as (_ & _ & Hrange & Hwalk & _).
  split_and!.
  - by apply Hrange.
  - by apply Hrange.
  - intros q Hq. by destruct (Hfinal q c Hq).
  - by apply Hwalk.
Qed.

Lemma solve_distances_witness :
  ∃ n p s', (∀ fuel, (n ≤ fuel)%nat →
     solve fuel (DjikstraSolver_init example_1x2) = Returns (p, s')) ∧
     dist s' (0, 1) = 1.
Proof.
  destruct example_1x2_walk as (HR & HC & Hwalk).
  destruct (solve_distances example_1x2) as (n & p & s' & Hrun & Hd).
  - apply example_1x2_shape.
  - apply example_1x2_shape.
  - apply example_1x2_closed.
  - exists n, p, s'. split; [exact Hrun|].
    destruct (Hd (0, 1)) as (Hrange & Hle & Hex).
    + unfold in_grid. rewrite HR, HC. simpl. lia.
    + pose proof (Hle _ Hwalk) as Hle1. unfold edges in Hle1. simpl in Hle1.
      destruct (decide (dist s' (0, 1) = 1)) as [|Hne]; [done|].
      destruct Hex as (q & Hq & Hedges); [lia|].
      assert (dist s' (0, 1) = 0) as H0 by lia. rewrite H0 in Hedges.
      destruct Hq as (Hh & Hl & _). unfold edges in Hedges.
      destruct q as [|x [|y q]]; simpl in *; try lia. congruence.
Defined.

(** X12: on a grid without cells the weighted solver fails: [get_cell(0, 0)]
    answers [None] and writing its distance raises [AttributeError]. *)
Theorem solve_empty_grid_raises (R C : Z) (g : Grid) (fuel : nat) :
  Grid_init R C = Returns g → R ≤ 0 ∨ C ≤ 0 →
  solve fuel (DjikstraSolver_init g) = Raises AttributeError.
Proof.
  intros Hg Hle. destruct (Grid_init_fresh R C) as (g' & Hg' & Hf).
  rewrite Hg in Hg'. injection Hg' as <-.
  unfold solve, initialize. cbn [grid DjikstraSolver_init].
  rewrite (fresh_no_cells R C g Hf Hle). cbn [foldl].
  destruct Hf as (HR & HC & Hs & _).
  rewrite (shape_get_cell g 0 0 Hs), decide_False; [done|].
  unfold in_grid. simpl. lia.
Qed.

Lemma solve_empty_grid_raises_witness :
  ∃ g, Grid_init 0 3 = Returns g ∧
       solve 5 (DjikstraSolver_init g) = Raises AttributeError.
Proof.
  destruct (Grid_init_fresh 0 3) as (g & Hg & _).
  exists g. split; [exact Hg|].
  apply (solve_empty_grid_raises 0 3 g 5 Hg). lia.
Defined.

(** *** The queue of the weighted solver *)

Lemma insert_by_key_sorted e q : keys_sorted q → keys_sorted (insert_by_key e q).
Proof.
  induction q as [|e' q IH]; intros Hq; simpl.
  - split; [|done]. intros x Hx. by apply elem_of_nil in Hx.
  - destruct Hq as [Hle Hq]. case_decide as He.
    + split; [|by split]. intros x [->|Hx]%elem_of_cons; [done|].
      specialize (Hle x Hx). lia.
    + split; [|by apply IH].
      intros x Hx. rewrite insert_by_key_perm in Hx.
      apply elem_of_cons in Hx as [->|Hx]; [lia|by apply Hle].
Qed.

Lemma sort_by_key_sorted q : keys_sorted (sort_by_key q).
Proof.
  induction q as [|e q IH]; [done|]. simpl. by apply insert_by_key_sorted.
Qed.

Lemma with_key_insert k e q :
  with_key k (insert_by_key e q) = with_key k (e :: q).
Proof.
  unfold with_key. induction q as [|e' q IH]; [done|]. simpl.
  case_decide as He; [done|].
  rewrite (filter_cons _ e'), IH, !filter_cons.
  repeat case_decide; try done; lia.
Qed.

Lemma with_key_sort k q : with_key k (sort_by_key q) = with_key k q.
Proof.
  induction q as [|e q IH]; [done|]. simpl.
  rewrite with_key_insert. unfold with_key in *. by rewrite !filter_cons, IH.
Qed.

(** X13: [add_to_queue] keeps every entry, leaves the queue sorted by
    distance whatever its order was, and is stable: entries with equal
    distance stay in the order they were added, the new entry behind
    them. *)
Theorem add_to_queue_sorted_stable (s : DjikstraSolver) (c : cell) (d : Z) :
  keys_sorted (queue (add_to_queue c d s)) ∧
  queue (add_to_queue c d s) ≡ₚ queue s ++ [(d, c)] ∧
  ∀ k, with_key k (queue (add_to_queue c d s)) = with_key k (queue s ++ [(d, c)]).
Proof.
  unfold add_to_queue. cbn [queue]. split_and!.
  - apply sort_by_key_sorted.
  - apply sort_by_key_perm.
  - intros k. apply with_key_sort.
Qed.

(** *** Generated mazes *)



Lemma make_maze_returns m R C g r g' r' :
  1 ≤ R → 1 ≤ C → Grid_init R C = Returns g → make_maze m g r = Returns (g', r') →
  frame R C g' ∧ links_geometric g' ∧ spanning_tree g'.
Proof.
  intros HR HC Hg Hrun. destruct (Grid_init_fresh R C) as (g0 & Hg0 & Hf).
  rewrite Hg in Hg0. injection Hg0 as <-.
  destruct (make_maze_inv m R C g r Hf) as (g1 & r1 & Hrun1 & Hfr & _ & _ & Hgeo & Hst).
  rewrite Hrun in Hrun1. injection Hrun1 as <- <-. auto.
Qed.

(** X14: every maze a generator builds can be solved between any two of
    its cells: the traversal returns a path, and it is the only path
    between them that repeats no cell. *)
Theorem generated_maze_solvable (m : generator) (R C : Z) (g g' : Grid)
    (r r' : RandomSource) (A B : cell) :
  1 ≤ R → 1 ≤ C → Grid_init R C = Returns g → make_maze m g r = Returns (g', r') →
  in_grid g' A → in_grid g' B →
  ∃ n p, (∀ fuel, (n ≤ fuel)%nat → solve_maze fuel g' A B = Returns (Some p)) ∧
    walk_from_to g' A B p ∧ NoDup p ∧
    ∀ q, walk_from_to g' A B q → NoDup q → q = p.
Proof.
  intros HR HC Hg Hrun HA HB.
  destruct (make_maze_returns m R C g r g' r' HR HC Hg Hrun)
    as (Hfr & _ & Hwf & Hsym & _ & Hac & Hconn).
  destruct (solve_maze_runs g' A B (links_wf_closed g' Hwf) HA)
    as (n & res & Hpost & Hres).
  destruct res as [p|]; simpl in Hpost.
  - destruct Hpost as [Hwalk Hnd]. exists n, p. split_and!; try done.
    intros q Hq Hndq. by apply (acyclic_unique_walk g' Hsym Hac q p A B).
  - destruct Hpost. by apply Hconn.
Qed.

Lemma generated_maze_solvable_witness :
  ∃ g g' r', Grid_init 2 2 = Returns g ∧
    make_maze Sidewinder g (mkRandom (λ _, 1%nat) 0) = Returns (g', r') ∧
    ∃ n p, ∀ fuel, (n ≤ fuel)%nat → solve_maze fuel g' (0, 0) (1, 1) = Returns (Some p).
Proof.
  destruct (Grid_init_fresh 2 2) as (g & Hg & Hf).
  destruct (make_maze_inv Sidewinder 2 2 g (mkRandom (λ _, 1%nat) 0) Hf)
    as (g' & r' & Hrun & Hfr & _).
  exists g, g', r'. split; [exact Hg|]. split; [exact Hrun|].
  destruct (generated_maze_solvable Sidewinder 2 2 g g' (mkRandom (λ _, 1%nat) 0)
              r' (0, 0) (1, 1))
    as (n & p & Hp & _); [lia|lia|exact Hg|exact Hrun| | |].
  - apply (frame_in_grid 2 2); [exact Hfr|]. simpl. lia.
  - apply (frame_in_grid 2 2); [exact Hfr|]. simpl. lia.
  - exists n, p. exact Hp.
Defined.



(** X16: in a maze built by the binary-tree generator the last row and
    the last column are corridors: every cell of the last row but the
    corner is linked to its east neighbour, every cell of the last column
    but the corner to its south neighbour. *)
Theorem binary_tree_corridors (R C : Z) (g g' : Grid) (r r' : RandomSource)
    (x : cell) :
  Grid_init R C = Returns g → BinaryTree_make_maze g r = Returns (g', r') →
  in_grid g' x → x ≠ (R - 1, C - 1) →
  (row x = R - 1 → linked g' x (row x, col x + 1)) ∧
  (col x = C - 1 → linked g' x (row x + 1, col x)).
Proof.
  intros Hg Hrun Hx Hne. destruct (Grid_init_fresh R C) as (g0 & Hg0 & Hf).
  rewrite Hg in Hg0. injection Hg0 as <-.
  destruct (BinaryTree_make_maze_inv R C g r Hf) as (g1 & r1 & Hrun1 & Hinv).
  rewrite Hrun in Hrun1. injection Hrun1 as <- <-.
  destruct Hinv as (Hfr & Hwf & _ & _ & _ & _ & Hone & _). cbn [fst] in *.
  assert (Hseen : x ∈ all_cells g).
  { apply (frame_all_cells R C); [by apply fresh_frame|].
    apply (frame_in_grid R C); [by apply fresh_frame|].
    by apply (frame_in_grid R C) in Hx. }
  specialize (Hone x Hseen Hne).
  assert (Hin : ∀ y, linked g' x y → 0 ≤ row y < R ∧ 0 ≤ col y < C).
  { intros y Hy. destruct (Hwf x) as [_ Hwfx]. destruct (Hwfx y Hy) as (_ & Hiny & _).
    by apply (frame_in_grid R C) in Hiny. }
  unfold step in Hone. split; intros Hlast.
  - destruct Hone as [Hs|He]; [|done]. apply Hin in Hs. simpl in Hs. lia.
  - destruct Hone as [Hs|He]; [done|]. apply Hin in He. simpl in He. lia.
Qed.

Lemma binary_tree_corridors_witness :
  ∃ g g' r', Grid_init 2 2 = Returns g ∧
    BinaryTree_make_maze g (mkRandom (λ _, 0%nat) 0) = Returns (g', r') ∧
    linked g' (1, 0) (1, 1) ∧ linked g' (0, 1) (1, 1).
Proof.
  destruct (Grid_init_fresh 2 2) as (g & Hg & Hf).
  destruct (BinaryTree_make_maze_inv 2 2 g (mkRandom (λ _, 0%nat) 0) Hf)
    as (g' & r' & Hrun & Hfr & _).
  exists g, g', r'. split; [exact Hg|]. split; [exact Hrun|]. split.
  - apply (binary_tree_corridors 2 2 g g' (mkRandom (λ _, 0%nat) 0) r' (1, 0) Hg Hrun); [|discriminate|reflexivity].
    apply (frame_in_grid 2 2); [exact Hfr|]. simpl. lia.
  - apply (binary_tree_corridors 2 2 g g' (mkRandom (λ _, 0%nat) 0) r' (0, 1) Hg Hrun); [|discriminate|reflexivity].
    apply (frame_in_grid 2 2); [exact Hfr|]. simpl. lia.
Defined.

(** X17: on a grid without cells (a non-positive number of rows or of
    columns) every generator returns without an error, draws nothing and
    leaves the grid as it is. *)
Theorem generators_on_empty_grid (m : generator) (R C : Z) (g : Grid)
    (r : RandomSource) :
  Grid_init R C = Returns g → R ≤ 0 ∨ C ≤ 0 → make_maze m g r = Returns (g, r).
Proof.
  intros Hg Hle. destruct (Grid_init_fresh R C) as (g0 & Hg0 & Hf).
  rewrite Hg in Hg0. injection Hg0 as <-. by apply (make_maze_empty m R C).
Qed.

Lemma generators_on_empty_grid_witness :
  ∃ g, Grid_init 4 0 = Returns g ∧
    make_maze Eller g (mkRandom (λ _, 0%nat) 0) = Returns (g, mkRandom (λ _, 0%nat) 0).
Proof.
  destruct (Grid_init_fresh 4 0) as (g & Hg & _).
  exists g. split; [exact Hg|].
  apply (generators_on_empty_grid Eller 4 0 g (mkRandom (λ _, 0%nat) 0) Hg). lia.
Defined.

(** X18: in a generated maze with at least two cells no cell is walled in:
    every cell has a link. *)
Theorem generated_maze_no_isolated_cell (m : generator) (R C : Z) (g g' : Grid)
    (r r' : RandomSource) (x : cell) :
  1 ≤ R → 1 ≤ C → 2 ≤ R * C →
  Grid_init R C = Returns g → make_maze m g r = Returns (g', r') →
  in_grid g' x → links (heap g' x) ≠ [].
Proof.
  intros HR HC H2 Hg Hrun Hx.
  destruct (make_maze_returns m R C g r g' r' HR HC Hg Hrun)
    as (Hfr & _ & _ & _ & _ & _ & Hconn).
  set (y := if decide (x = (0, 0)) then (R - 1, C - 1) else (0, 0)).
  assert (Hy : in_grid g' y ∧ x ≠ y).
  { unfold y. case_decide as Hx0.
    - split; [apply (frame_in_grid R C); [done|]; simpl; lia|].
      rewrite Hx0. intros [= ? ?]. nia.
    - split; [apply (frame_in_grid R C); [done|]; simpl; lia|done]. }
  destruct Hy as [Hy Hne].
  destruct (Hconn x y Hx Hy) as (p & Hh & Hl & Hw).
  destruct p as [|a [|b p]]; simpl in *.
  - done.
  - congruence.
  - injection Hh as ->. destruct Hw as [Hxb _]. intros Hnil.
    unfold linked in Hxb. rewrite Hnil in Hxb. by apply elem_of_nil in Hxb.
Qed.

Lemma generated_maze_no_isolated_cell_witness :
  ∃ g g' r', Grid_init 1 2 = Returns g ∧
    make_maze BinaryTree g (mkRandom (λ _, 0%nat) 0) = Returns (g', r') ∧
    links (heap g' (0, 1)) ≠ [].
Proof.
  destruct (Grid_init_fresh 1 2) as (g & Hg & Hf).
  destruct (make_maze_inv BinaryTree 1 2 g (mkRandom (λ _, 0%nat) 0) Hf)
    as (g' & r' & Hrun & Hfr & _).
  exists g, g', r'. split; [exact Hg|]. split; [exact Hrun|].
  apply (generated_maze_no_isolated_cell BinaryTree 1 2 g g'
           (mkRandom (λ _, 0%nat) 0) r' (0, 1));
    [lia|lia|lia|exact Hg|exact Hrun|].
  apply (frame_in_grid 1 2); [exact Hfr|]. simpl. lia.
Defined.

(** *** The set dictionary of Eller's generator *)

Lemma rename_same a b kc kd :
  rename a b kc = rename a b kd ↔ kc = kd ∨ (kc = a ∧ kd = b) ∨ (kc = b ∧ kd = a).
Proof. unfold rename. repeat case_decide; lia. Qed.

(** X19: [merge_sets] raises [KeyError] when one of the two cells has no
    set; otherwise it unites their two sets and leaves all others alone:
    afterwards two cells are in the same set exactly when they were before
    or when one was in the set of [cell] and the other in the set of
    [other_cell]. *)
Theorem merge_sets_union (sets : gmap cell Z) (x other : cell) :
  (set_id sets other = None ∨ set_id sets x = None →
   merge_sets sets x other = Raises KeyError) ∧
  (is_Some (set_id sets x) → is_Some (set_id sets other) →
   ∃ sets', merge_sets sets x other = Returns sets' ∧
     ∀ c d, same_set sets' c d ↔
            same_set sets c d ∨
            (same_set sets c x ∧ same_set sets d other) ∨
            (same_set sets c other ∧ same_set sets d x)).
Proof.
  unfold merge_sets. rewrite !sets_get_id. split.
  - intros [Ho|Hx].
    + by rewrite Ho.
    + destruct (set_id sets other); [|done]. simpl. by rewrite Hx.
  - intros [a Ha] [b Hb]. rewrite Ha, Hb. simpl.
    exists (rename a b <$> sets). split; [reflexivity|]. intros c d.
    unfold same_set. rewrite !set_id_rename, Ha, Hb.
    destruct (set_id sets c) as [kc|], (set_id sets d) as [kd|]; simpl.
    + split.
      * intros (k & [= Hc] & [= Hd]).
        assert (Hr : rename a b kc = rename a b kd) by congruence.
        apply rename_same in Hr as [->|[[-> ->]|[-> ->]]].
        -- left. by exists kd.
        -- right. left. split; [by exists a|by exists b].
        -- right. right. split; [by exists b|by exists a].
      * intros Hcases. exists (rename a b kc). split; [done|].
        apply (f_equal Some). symmetry. apply rename_same.
        destruct Hcases as [(k & [= ->] & [= ->])|
                            [[(k & [= ->] & [= ->]) (k' & [= ->] & [= ->])]|
                             [(k & [= ->] & [= ->]) (k' & [= ->] & [= ->])]]]; auto.
    + split; [by intros (k & _ & ?)|].
      intros [(k & _ & ?)|[[_ (k & ? & _)]|[_ (k & ? & _)]]]; done.
    + split; [by intros (k & ? & _)|].
      intros [(k & ? & _)|[[(k & ? & _) _]|[(k & ? & _) _]]]; done.
    + split; [by intros (k & ? & _)|].
      intros [(k & ? & _)|[[(k & ? & _) _]|[(k & ? & _) _]]]; done.
Qed.

Lemma merge_sets_union_witness :
  ∃ sets', merge_sets (<[(0, 1) := 2]> (<[(0, 0) := 1]> ∅)) (0, 0) (0, 1) = Returns sets' ∧
           same_set sets' (0, 0) (0, 1).
Proof.
  destruct (merge_sets_union (<[(0, 1) := 2]> (<[(0, 0) := 1]> ∅)) (0, 0) (0, 1))
    as [_ Hm].
  destruct Hm as (sets' & Hrun & Hsame).
  - exists 1. reflexivity.
  - exists 2. reflexivity.
  - exists sets'. split; [exact Hrun|]. apply Hsame. right. left.
    split; [exists 1|exists 2]; split; reflexivity.
Defined.

Lemma groups_append_elem_ne k x gs k' m' :
  (k', m') ∈ groups_append k x gs → k' ≠ k → (k', m') ∈ gs.
Proof.
  intros [Hin|[-> _]]%groups_append_elem Hne; done.
Qed.

Lemma groups_append_elem_eq k x gs m' :
  NoDup gs.*1 → (k, m') ∈ groups_append k x gs →
  ∃ m, m' = m ++ [x] ∧ ((k, m) ∈ gs ∨ (m = [] ∧ k ∉ gs.*1)).
Proof.
  induction gs as [|[k0 m0] gs IH]; intros Hnd Hin.
  - cbn [groups_append] in Hin. apply list_elem_of_singleton in Hin as [= ->].
    exists []. split; [done|]. right. split; [done|]. apply not_elem_of_nil.
  - rewrite fmap_cons in Hnd. apply NoDup_cons in Hnd as [Hk0 Hnd]. cbn [fst] in Hk0.
    cbn [groups_append] in Hin. destruct (decide (k0 = k)) as [->|Hne].
    + apply elem_of_cons in Hin as [[= ->]|Hin].
      * exists m0. split; [done|]. left. apply elem_of_cons. by left.
      * destruct Hk0. apply list_elem_of_fmap. by exists (k, m').
    + apply elem_of_cons in Hin as [[= ? ?]|Hin]; [congruence|].
      destruct (IH Hnd Hin) as (m & -> & [Hm|[-> Hk]]).
      * exists m. split; [done|]. left. apply elem_of_cons. by right.
      * exists []. split; [done|]. right. split; [done|].
        rewrite fmap_cons. cbn [fst]. rewrite elem_of_cons. naive_solver.
Qed.

Lemma group_sets_by_id_missing sets line gs :
  (∃ x, x ∈ line ∧ set_id sets x = None) →
  for_each line (λ x groups, k ← sets_get sets x; Returns (groups_append k x groups)) gs
  = Raises KeyError.
Proof.
  revert gs. induction line as [|y line IH]; intros gs (x & Hx & Hid).
  - by apply elem_of_nil in Hx.
  - cbn [for_each]. rewrite sets_get_id.
    destruct (set_id sets y) as [k|] eqn:Hy; [|done].
    cbn [mbind outcome_bind]. apply IH.
    apply elem_of_cons in Hx as [->|Hx]; [congruence|by exists x].
Qed.

(** X20: [group_sets_by_id] raises [KeyError] when a cell of the row has no
    set; otherwise it splits the row into one group per set id met: keys
    are distinct, every cell's id is a key, and the group of a key holds
    exactly the cells of the row with that id, in row order. *)
Theorem group_sets_by_id_partition (sets : gmap cell Z) (line : list cell) :
  ((∃ x, x ∈ line ∧ set_id sets x = None) →
   group_sets_by_id sets line = Raises KeyError) ∧
  ((∀ x, x ∈ line → is_Some (set_id sets x)) →
   ∃ gs, group_sets_by_id sets line = Returns gs ∧
     NoDup gs.*1 ∧
     (∀ x k, x ∈ line → set_id sets x = Some k → k ∈ gs.*1) ∧
     (∀ k m, (k, m) ∈ gs →
        m ≠ [] ∧ m = filter (λ x, set_id sets x = Some k) line)).
Proof.
  split; [apply group_sets_by_id_missing|].
  intros Hdom. unfold group_sets_by_id.
  apply (for_each_prefix
           (λ l1 gs, NoDup gs.*1 ∧
              (∀ x k, x ∈ l1 → set_id sets x = Some k → k ∈ gs.*1) ∧
              (∀ k m, (k, m) ∈ gs →
                 m ≠ [] ∧ m = filter (λ x, set_id sets x = Some k) l1))).
  - split_and!; [apply NoDup_nil_2| |].
    + intros x k Hx. by apply elem_of_nil in Hx.
    + intros k m Hin. by apply elem_of_nil in Hin.
  - intros l1 x l2 gs Heq (Hnd & Hcov & Hmem).
    destruct (Hdom x) as [k Hk]; [rewrite Heq; set_solver|].
    rewrite sets_get_id, Hk. cbn [mbind outcome_bind].
    eexists; split; [reflexivity|].
    assert (Hnd' : NoDup (groups_append k x gs).*1).
    { rewrite groups_append_keys. destruct (decide (k ∈ gs.*1)); [done|].
      apply NoDup_app. split_and!; [done| |apply NoDup_singleton].
      by intros k' Hk' ->%list_elem_of_singleton. }
    split_and!; [done| |].
    + intros y k' [Hy| ->%list_elem_of_singleton]%elem_of_app Hid;
        rewrite groups_append_keys.
      * specialize (Hcov y k' Hy Hid).
        destruct (decide (k ∈ gs.*1)); [done|]. apply elem_of_app. by left.
      * assert (k' = k) as -> by congruence.
        destruct (decide (k ∈ gs.*1)); [done|].
        apply elem_of_app. right. by apply list_elem_of_singleton.
    + intros k' m' Hin. rewrite filter_app, filter_cons, filter_nil.
      destruct (decide (k' = k)) as [->|Hne].
      * rewrite decide_True by done.
        destruct (groups_append_elem_eq k x gs m' Hnd Hin) as (m & -> & [Hm|[-> Hnk]]).
        -- destruct (Hmem k m Hm) as [_ <-]. split; [by destruct m|done].
        -- split; [done|]. f_equal. symmetry. apply length_zero_iff_nil.
           destruct (filter _ l1) as [|y l] eqn:Hfil; [done|].
           assert (Hy : y ∈ filter (λ x, set_id sets x = Some k) l1)
             by (rewrite Hfil; apply elem_of_cons; by left).
           apply list_elem_of_filter in Hy as [Hid Hy].
           destruct Hnk. by apply (Hcov y k).
      * rewrite decide_False by congruence. rewrite app_nil_r.
        apply Hmem. by apply (groups_append_elem_ne k x gs).
Qed.

Lemma group_sets_by_id_partition_witness :
  ∃ gs, group_sets_by_id (<[(0, 1) := 7]> (<[(0, 0) := 7]> ∅)) [(0, 0); (0, 1)]
          = Returns gs ∧ gs.*1 = [7].
Proof.
  destruct (group_sets_by_id_partition (<[(0, 1) := 7]> (<[(0, 0) := 7]> ∅))
              [(0, 0); (0, 1)]) as [_ Hg].
  destruct Hg as (gs & Hrun & _).
  - intros x Hx. apply elem_of_cons in Hx as [->|Hx]; [exists 7; reflexivity|].
    apply list_elem_of_singleton in Hx as ->. exists 7. reflexivity.
  - exists gs. split; [exact Hrun|].
    vm_compute in Hrun. injection Hrun as <-. reflexivity.
Defined.

(** *** Solving twice *)

Lemma same_maze_walk g g' a b p :
  same_maze g g' → walk_from_to g' a b p ↔ walk_from_to g a b p.
Proof.
  intros Hsame. unfold walk_from_to.
  assert (is_walk g' p ↔ is_walk g p) as ->; [|done].
  split; apply is_walk_mono; intros x y; by apply (same_maze_linked g g').
Qed.

Lemma same_maze_closed g g' : same_maze g g' → links_closed g → links_closed g'.
Proof.
  intros Hsame Hcl a. destruct (Hcl a) as [Hnd Hin].
  destruct Hsame as (HR & HC & _ & Hl). split.
  - by rewrite Hl.
  - intros b Ha Hab. unfold linked, in_grid in *. rewrite Hl in Hab.
    rewrite HR, HC in *. by apply Hin.
Qed.

Lemma same_maze_symmetric g g' :
  same_maze g g' → links_symmetric g → links_symmetric g'.
Proof.
  intros Hsame Hsym a b. rewrite !(same_maze_linked g g') by done. apply Hsym.
Qed.

Lemma solve_final_state s :
  let g := grid s in
  shape_ok g → in_grid g (0, 0) → links_closed g → queue s = [] → calls_ok s →
  ∃ n p s', (∀ fuel, (n ≤ fuel)%nat → solve fuel s = Returns (p, s')) ∧
    same_maze g (grid s') ∧ calls_ok s' ∧ queue s' = [].
Proof.
  intros g Hs Hin0 Hcl Hq Hcalls.
  destruct (solve_unfold s Hs Hin0 Hcl Hq Hcalls) as (n1 & s2 & Hinv & Hq2 & Hsolve).
  destruct (solve_returns s Hs Hin0 Hcl Hq Hcalls) as (n2 & p & s' & Hret & Hsame & Hc).
  assert (s' = s2) as ->.
  { specialize (Hsolve (n1 `max` n2)%nat ltac:(lia)).
    rewrite (Hret (n1 `max` n2)%nat) in Hsolve by lia.
    case_decide; [congruence|].
    destruct (recover_path _ s2); simpl in Hsolve; congruence. }
  by exists n2, p, s2.
Qed.

(** X21: a solver object can be used again.  A second [solve] on the state
    the first one left (distances and predecessors of the first run still
    in the cells) returns, and its answer has as many links as the first:
    both find nothing, or both return a shortest walk from (0, 0) to the
    last cell. *)
Theorem solve_twice (g : Grid) :
  let t := (num_rows g - 1, num_cols g - 1) in
  shape_ok g → in_grid g (0, 0) → links_closed g → links_symmetric g →
  ∃ n p s' p2 s'',
    (∀ fuel, (n ≤ fuel)%nat →
       solve fuel (DjikstraSolver_init g) = Returns (p, s') ∧
       solve fuel s' = Returns (p2, s'')) ∧
    length p2 = length p ∧
    (p2 ≠ [] → walk_from_to g (0, 0) t p ∧ walk_from_to g (0, 0) t p2).
Proof.
  intros t Hs Hin0 Hcl Hsym.
  destruct (solve_final_state (DjikstraSolver_init g) Hs Hin0 Hcl eq_refl
              (calls_ok_init g)) as (n0 & p0 & s' & Hrun0 & Hsame & Hcalls & Hq).
  destruct (solve_spec (DjikstraSolver_init g) Hs Hin0 Hcl Hsym eq_refl
              (calls_ok_init g)) as (n1 & p & s1 & Hrun1 & _ & Hp).
  assert (p0 = p ∧ s' = s1) as [-> <-].
  { pose proof (Hrun0 (n0 `max` n1)%nat ltac:(lia)) as H0.
    rewrite (Hrun1 (n0 `max` n1)%nat) in H0 by lia. by injection H0. }
  simpl in Hp, Hsame. fold t in Hp.
  pose proof Hsame as (HR & HC & _).
  destruct (solve_spec s') as (n2 & p2 & s'' & Hrun2 & _ & Hp2); try done.
  - by apply (same_maze_shape g).
  - by apply (same_maze_in_grid g (grid s')).
  - by apply (same_maze_closed g).
  - by apply (same_maze_symmetric g).
  - simpl in Hp2. rewrite HR, HC in Hp2. fold t in Hp2.
    setoid_rewrite (same_maze_walk g (grid s')) in Hp2; [|done..].
    exists (n1 `max` n2)%nat, p, s', p2, s''. split_and!.
    + intros fuel Hfuel. split; [apply Hrun1; lia|apply Hrun2; lia].
    + destruct Hp as [[-> Hfar]|(Hw & _ & Hlt & Hmin)],
               Hp2 as [[-> Hfar2]|(Hw2 & _ & Hlt2 & Hmin2)]; try done.
      * apply Hfar in Hw2. lia.
      * apply Hfar2 in Hw. lia.
      * pose proof (Hmin _ Hw2). pose proof (Hmin2 _ Hw). unfold edges in *. lia.
    + intros Hne.
      destruct Hp as [[-> Hfar]|(Hw & _ & Hlt & Hmin)],
               Hp2 as [[-> Hfar2]|(Hw2 & _ & Hlt2 & Hmin2)]; try done.
      apply Hfar in Hw2. lia.
Qed.

Lemma solve_twice_witness :
  ∃ n p s' p2 s'', (∀ fuel, (n ≤ fuel)%nat →
       solve fuel (DjikstraSolver_init example_1x2) = Returns (p, s') ∧
       solve fuel s' = Returns (p2, s'')) ∧
    length p2 = length p.
Proof.
  destruct (solve_twice example_1x2) as (n & p & s' & p2 & s'' & Hrun & Hlen & _).
  - apply example_1x2_shape.
  - apply example_1x2_shape.
  - apply example_1x2_closed.
  - apply example_1x2_spanning_tree.
  - exists n, p, s', p2, s''. split; [exact Hrun|exact Hlen].
Defined.

(** *** The text picture *)









Lemma print_line_walls g line t b :
  (∀ x, x ∈ line → links (heap g x) = []) →
  foldl (print_cell g) (t, b) line =
  (t ++ str_mul (str "   |") (Z.of_nat (length line)),
   b ++ str_mul (str "---+") (Z.of_nat (length line))).
Proof.
  revert t b. induction line as [|x line IH]; intros t b Hno.
  - simpl. unfold str_mul. simpl. by rewrite !app_nil_r.
  - cbn [foldl]. unfold print_cell at 2. cbn [fst snd].
    assert (Hx : ∀ o, is_linked_opt g x o = false).
    { intros [o|]; [|done]. unfold is_linked_opt, is_linked.
      rewrite Hno by (apply elem_of_cons; by left).
      apply bool_decide_eq_false. apply not_elem_of_nil. }
    rewrite !Hx, IH by (intros y Hy; apply Hno; apply elem_of_cons; by right).
    simpl length. unfold str_mul.
    replace (Z.to_nat (Z.of_nat (S (length line)))) with (S (length line)) by lia.
    rewrite Nat2Z.id. simpl. by rewrite <- !app_assoc.
Qed.

(** X23: on a grid on which no generator has run, [print] draws every
    wall: after the top border each row gives the line "|   |   |...|" and
    the line "+---+---+...+". *)
Theorem Grid_print_all_walls (R C : Z) :
  ∃ g, Grid_init R C = Returns g ∧
    Grid_print g =
    (str_mul (str "+---") C ++ str "+" ++ newline) ++
    str_mul ((str "|" ++ str_mul (str "   |") C) ++ newline ++
             (str "+" ++ str_mul (str "---+") C) ++ newline) R.
Proof.
  destruct (Grid_init_fresh R C) as (g & Hg & HR & HC & Hs & _ & Hf).
  exists g. split; [done|]. unfold Grid_print. rewrite HC.
  set (header := str_mul (str "+---") C ++ str "+" ++ newline).
  set (text := (str "|" ++ str_mul (str "   |") C) ++ newline ++
               (str "+" ++ str_mul (str "---+") C) ++ newline).
  assert (Hrow : ∀ line out, line ∈ rows g → print_row g out line = out ++ text).
  { intros line out Hin. unfold print_row.
    rewrite print_line_walls by (intros x _; apply Hf).
    assert (length line = Z.to_nat C) as Hl.
    { rewrite Hs in Hin. apply list_elem_of_fmap in Hin as (r & -> & _).
      by rewrite length_fmap, length_range, HC. }
    assert (∀ s, str_mul s (Z.of_nat (length line)) = str_mul s C) as Hmul.
    { intros s. unfold str_mul. by rewrite Nat2Z.id, Hl. }
    rewrite !Hmul. reflexivity. }
  assert (Hlen : length (rows g) = Z.to_nat R).
  { by rewrite Hs, length_fmap, length_range, HR. }
  unfold str_mul. rewrite <- Hlen. clear Hlen.
  generalize header. induction (rows g) as [|line L IH]; intros out.
  - simpl. by rewrite app_nil_r.
  - cbn [foldl]. rewrite Hrow by (apply elem_of_cons; by left).
    rewrite IH by (intros l o Hl; apply Hrow; apply elem_of_cons; by right).
    simpl. by rewrite <- app_assoc.
Qed.

(** *** The top row of a sidewinder maze *)

(** Loop rule for a run that is known to return. *)
Lemma for_each_result {A S : Type} (P : list A → S → Prop) (l : list A)
    (body : A → S → outcome S) (s s' : S) :
  for_each l body s = Returns s' → P [] s →
  (∀ l1 x l2 s1 s2, l = l1 ++ x :: l2 → P l1 s1 → body x s1 = Returns s2 →
     P (l1 ++ [x]) s2) →
  P l s'.
Proof.
  intros Hrun H0 Hstep.
  cut (∀ l2 l1 s1, l = l1 ++ l2 → P l1 s1 → for_each l2 body s1 = Returns s' → P l s').
  { intros Hc. by apply (Hc l [] s). }
  induction l2 as [|x l2 IH]; intros l1 s1 -> HP Hr.
  - rewrite app_nil_r. simpl in Hr. by injection Hr as <-.
  - simpl in Hr. destruct (body x s1) as [s2| |] eqn:Hb; simpl in Hr; try done.
    apply (IH (l1 ++ [x]) s2); [by rewrite <- app_assoc| |done].
    by apply (Hstep l1 x l2 s1 s2).
Qed.

(** One step of the sidewinder keeps the table and removes no link; away
    from the eastern and northern boundaries it may do either thing, on the
    northern boundary it links east. *)
Lemma sw_cell_grows R C x g r run g' r' run' :
  frame R C g → in_grid g x →
  sw_cell x (g, r, run) = Returns (g', r', run') →
  frame R C g' ∧ (∀ a b, linked g a b → linked g' a b) ∧
  (row x = 0 → col x + 1 < C → linked g' x (row x, col x + 1)).
Proof.
  intros Hfr Hx. unfold sw_cell.
  rewrite !(frame_neighbor R C g x) by done.
  assert (HE : in_grid g (step x East) ↔ col x + 1 < C).
  { rewrite !(frame_in_grid R C) in * by done. unfold step. simpl. lia. }
  assert (HN : row x = 0 → ¬ in_grid g (step x North)).
  { rewrite !(frame_in_grid R C) in * by done. unfold step. simpl. lia. }
  assert (Hclose : ∀ rnd,
            ('(member, r0) ← random_choice (run ++ [x]) rnd;
             Returns (match get_neighbor g member North with
                      | Some n => link member n true g
                      | None => g
                      end, r0, [])) = Returns (g', r', run') →
            frame R C g' ∧ (∀ a b, linked g a b → linked g' a b)).
  { intros rnd Hrun. destruct (random_choice (run ++ [x]) rnd) as [[m r0]| |];
      simpl in Hrun; try done.
    destruct (get_neighbor g m North) as [n|]; injection Hrun as <- <- <-.
    - split; [by apply frame_link|]. intros a b Hab. apply link_linked. by left.
    - done. }
  assert (Heast : Returns (link x (step x East) true g, r, run ++ [x])
                  = Returns (g', r', run') →
            frame R C g' ∧ (∀ a b, linked g a b → linked g' a b) ∧
            linked g' x (row x, col x + 1)).
  { intros [= <- <- <-]. split_and!.
    - by apply frame_link.
    - intros a b Hab. apply link_linked. by left.
    - apply link_linked. right. by left. }
  destruct (decide (in_grid g (step x East))) as [He|He].
  - rewrite bool_decide_eq_false_2 by done.
    destruct (decide (in_grid g (step x North))) as [Hn|Hn].
    + rewrite bool_decide_eq_false_2 by done.
      destruct (random_randint01 r) as [coin r1].
      destruct (bool_decide (coin = 0)).
      * intros Hrun. destruct (Hclose _ Hrun) as [? ?]. split_and!; try done.
        intros Hrow0. by destruct (HN Hrow0).
      * cbn [link_opt mbind outcome_bind]. intros [= <- <- <-]. split_and!.
        -- by apply frame_link.
        -- intros a b Hab. apply link_linked. by left.
        -- intros _ _. apply link_linked. right. by left.
    + rewrite bool_decide_eq_true_2 by done.
      cbn [link_opt mbind outcome_bind]. intros Hrun.
      destruct (Heast Hrun) as (? & ? & ?). by split_and!.
  - rewrite bool_decide_eq_true_2 by done. intros Hrun.
    destruct (Hclose _ Hrun) as [? ?]. split_and!; try done.
    intros _ Hlt. destruct He. by apply HE.
Qed.

Lemma sw_row_grows R C y g r g' r' :
  frame R C g → 0 ≤ y < R →
  sw_row (line_of y C) (g, r) = Returns (g', r') →
  frame R C g' ∧ (∀ a b, linked g a b → linked g' a b) ∧
  (y = 0 → ∀ c, 0 ≤ c → c + 1 < C → linked g' (0, c) (0, c + 1)).
Proof.
  intros Hfr Hy. unfold sw_row. cbn [fst snd].
  destruct (for_each (line_of y C) sw_cell (g, r, [])) as [[[g1 r1] run1]| |] eqn:Hrun;
    simpl; try done.
  intros [= <- <-].
  set (P := λ (l1 : list cell) (st : Grid * RandomSource * list cell),
              frame R C st.1.1 ∧ (∀ a b, linked g a b → linked st.1.1 a b) ∧
              (y = 0 → ∀ c, 0 ≤ c < Z.of_nat (length l1) → c + 1 < C →
                 linked st.1.1 (0, c) (0, c + 1))).
  assert (Hres : P (line_of y C) (g1, r1, run1)).
  { apply (for_each_result P _ _ _ _ Hrun).
    - unfold P. split_and!; try done. simpl. intros; lia.
    - intros l1 x l2 [[g2 r2] run2] [[g3 r3] run3] Heq (Hfr2 & Hmono2 & Htop2) Hstep.
      unfold P. cbn [fst snd] in *.
      destruct (line_of_split _ _ _ _ _ Heq) as [-> Hlt].
      destruct (sw_cell_grows R C (y, Z.of_nat (length l1)) g2 r2 run2 g3 r3 run3 Hfr2)
        as (Hfr3 & Hmono3 & Htop3); [|done|].
      { apply (frame_in_grid R C); [done|]. simpl. unfold cell in *. lia. }
      split_and!; [done|by auto|].
      intros -> c Hc Hlt'. rewrite length_app in Hc. simpl in Hc.
      destruct (decide (c = Z.of_nat (length l1))) as [->|Hne].
      + by apply Htop3.
      + apply Hmono3, Htop2; [done| |done]. unfold cell in *. lia. }
  destruct Hres as (Hfr1 & Hmono & Htop). cbn [fst] in *.
  split_and!; try done. intros -> c Hc Hlt. apply Htop; [done| |done].
  rewrite length_line_of by lia. lia.
Qed.

(** X24: in a maze built by the sidewinder generator the top row is one
    corridor: every cell of row 0 but the last is linked to its east
    neighbour. *)
Theorem sidewinder_top_corridor (R C : Z) (g g' : Grid) (r r' : RandomSource)
    (c : Z) :
  1 ≤ R → Grid_init R C = Returns g → Sidewinder_make_maze g r = Returns (g', r') →
  0 ≤ c → c + 1 < C → linked g' (0, c) (0, c + 1).
Proof.
  intros HR Hg Hrun Hc Hlt. destruct (Grid_init_fresh R C) as (g0 & Hg0 & Hf).
  rewrite Hg in Hg0. injection Hg0 as <-.
  pose proof (fresh_frame R C g Hf) as Hfr.
  pose proof Hfr as (HnR & HnC & Hs & _).
  unfold Sidewinder_make_maze in Hrun.
  set (P := λ (L1 : list (list cell)) (st : Grid * RandomSource),
              frame R C st.1 ∧ (L1 ≠ [] → linked st.1 (0, c) (0, c + 1))).
  assert (Hres : P (rows g) (g', r')).
  { apply (for_each_result P _ _ _ _ Hrun).
    - unfold P. split; [done|]. by intros [].
    - intros L1 line L2 [g1 r1] [g2 r2] Heq (Hfr1 & Htop1) Hstep.
      unfold P. cbn [fst] in *.
      destruct (rows_split g L1 line L2 Hs Heq) as [Hline HltR].
      rewrite HnC in Hline. rewrite HnR in HltR.
      change ((λ c0, (Z.of_nat (length L1), c0)) <$> range C)
        with (line_of (Z.of_nat (length L1)) C) in Hline. rewrite Hline in Hstep.
      destruct (sw_row_grows R C (Z.of_nat (length L1)) g1 r1 g2 r2 Hfr1 ltac:(lia) Hstep)
        as (Hfr2 & Hmono & Htop2).
      split; [done|]. intros _.
      destruct L1 as [|l0 L1].
      + by apply Htop2.
      + by apply Hmono, Htop1. }
  destruct Hres as (_ & Htop). apply Htop.
  rewrite Hs, HnR. unfold range. rewrite (seqZ_cons 0 R) by lia. done.
Qed.

Lemma sidewinder_top_corridor_witness :
  ∃ g g' r', Grid_init 2 3 = Returns g ∧
    Sidewinder_make_maze g (mkRandom (λ _, 0%nat) 0) = Returns (g', r') ∧
    linked g' (0, 1) (0, 2).
Proof.
  destruct (Grid_init_fresh 2 3) as (g & Hg & Hf).
  destruct (make_maze_inv Sidewinder 2 3 g (mkRandom (λ _, 0%nat) 0) Hf)
    as (g' & r' & Hrun & _).
  exists g, g', r'. split; [exact Hg|]. split; [exact Hrun|].
  apply (sidewinder_top_corridor 2 3 g g' (mkRandom (λ _, 0%nat) 0) r' 1);
    [lia|exact Hg|exact Hrun|lia|lia].
Defined.

(** *** Random draws *)

Lemma random_choice_draw {A} (l : list A) r x r' :
  random_choice l r = Returns (x, r') →
  pos r' = S (pos r) ∧ draws r' = draws r ∧ x ∈ l.
Proof.
  unfold random_choice, next_draw.
  destruct (l !! _) as [y|] eqn:Hy; [|done].
  intros [= <- <-]. split_and!; [done|done|]. by apply list_elem_of_lookup_2 in Hy.
Qed.

Lemma bt_cell_draw R C x g r g' r' :
  frame R C g → in_grid g x → bt_cell x (g, r) = Returns (g', r') →
  frame R C g' ∧ draws r' = draws r ∧
  pos r' = (pos r + if decide (x = corner R C) then 0 else 1)%nat.
Proof.
  intros Hfr Hx. unfold bt_cell. rewrite !(frame_neighbor R C) by done.
  assert (Hcorner : x = corner R C ↔
            ¬ in_grid g (step x South) ∧ ¬ in_grid g (step x East)).
  { rewrite !(frame_in_grid R C) in * by done. unfold corner, step.
    destruct x as [a b]. simpl in *. split; [intros [= -> ->]; lia|].
    intros [? ?]. f_equal; lia. }
  assert (Hdraw : ∀ l, l ≠ [] → x ≠ corner R C →
            ('(chosen, r0) ← random_choice l r; Returns (link x chosen true g, r0))
            = Returns (g', r') →
            frame R C g' ∧ draws r' = draws r ∧
            pos r' = (pos r + if decide (x = corner R C) then 0 else 1)%nat).
  { intros l Hl Hne Hrun.
    destruct (random_choice l r) as [[ch r0]| |] eqn:Hch; simpl in Hrun; try done.
    injection Hrun as <- <-. apply random_choice_draw in Hch as (Hp & Hd & _).
    rewrite decide_False by done. split_and!; [by apply frame_link|done|lia]. }
  destruct (decide (in_grid g (step x South))) as [HS|HS],
           (decide (in_grid g (step x East))) as [HE|HE].
  - change (option_list (Some (step x South)) ++ option_list (Some (step x East)))
      with [step x South; step x East].
    apply Hdraw; [done|]. intros Hc. apply Hcorner in Hc. tauto.
  - change (option_list (Some (step x South)) ++ option_list None)
      with [step x South].
    apply Hdraw; [done|]. intros Hc. apply Hcorner in Hc. tauto.
  - change (option_list None ++ option_list (Some (step x East)))
      with [step x East].
    apply Hdraw; [done|]. intros Hc. apply Hcorner in Hc. tauto.
  - change (option_list None ++ option_list None) with (@nil cell).
    intros [= <- <-]. rewrite decide_True by (by apply Hcorner).
    split_and!; [done|done|lia].
Qed.

(** X25: on an R×C grid with a cell the binary-tree generator reads
    exactly R·C − 1 draws of the random source, one for each cell but the
    south-east corner, and nothing else of it changes. *)
Theorem binary_tree_draws (R C : Z) (g g' : Grid) (r r' : RandomSource) :
  1 ≤ R → 1 ≤ C → Grid_init R C = Returns g →
  BinaryTree_make_maze g r = Returns (g', r') →
  Z.of_nat (pos r') = Z.of_nat (pos r) + (R * C - 1) ∧ draws r' = draws r.
Proof.
  intros HR HC Hg Hrun. destruct (Grid_init_fresh R C) as (g0 & Hg0 & Hf).
  rewrite Hg in Hg0. injection Hg0 as <-.
  pose proof (fresh_frame R C g Hf) as Hfr.
  destruct (fresh_grid_cells R C g Hf) as (Hin & Hnd & Hlen).
  unfold BinaryTree_make_maze in Hrun.
  set (P := λ (l1 : list cell) (st : Grid * RandomSource),
              frame R C st.1 ∧ draws st.2 = draws r ∧
              pos st.2 = (pos r + length (filter (λ x, x ≠ corner R C) l1))%nat).
  assert (Hres : P (all_cells g) (g', r')).
  { apply (for_each_result P _ _ _ _ Hrun).
    - unfold P. simpl. split_and!; [done|done|lia].
    - intros l1 x l2 [g1 r1] [g2 r2] Heq (Hfr1 & Hd1 & Hp1) Hstep.
      unfold P. cbn [fst snd] in *.
      assert (Hx : in_grid g1 x).
      { apply (frame_in_grid R C); [done|].
        assert (Hxin : x ∈ all_cells g).
        { rewrite Heq. apply elem_of_app. right. apply elem_of_cons. by left. }
        destruct x as [a b]. by apply Hin in Hxin. }
      destruct (bt_cell_draw R C x g1 r1 g2 r2 Hfr1 Hx Hstep) as (Hfr2 & Hd2 & Hp2).
      split_and!; [done|congruence|].
      rewrite Hp2, Hp1, filter_app, length_app, filter_cons, filter_nil.
      destruct (decide (x = corner R C)) as [->|Hne].
      + rewrite decide_False by (by intros []). simpl. lia.
      + rewrite decide_True by done. simpl. lia. }
  destruct Hres as (_ & Hd & Hp). cbn [snd] in *. split; [|done].
  assert (Hc : corner R C ∈ all_cells g) by (apply Hin; lia).
  pose proof (length_filter_ne (all_cells g) (corner R C) Hnd Hc) as Hl.
  rewrite Hlen in Hl. rewrite Hp. nia.
Qed.

Lemma binary_tree_draws_witness :
  ∃ g g' r', Grid_init 2 3 = Returns g ∧
    BinaryTree_make_maze g (mkRandom (λ _, 0%nat) 0) = Returns (g', r') ∧
    pos r' = 5%nat.
Proof.
  destruct (Grid_init_fresh 2 3) as (g & Hg & Hf).
  destruct (BinaryTree_make_maze_inv 2 3 g (mkRandom (λ _, 0%nat) 0) Hf)
    as (g' & r' & Hrun & _).
  exists g, g', r'. split; [exact Hg|]. split; [exact Hrun|].
  destruct (binary_tree_draws 2 3 g g' (mkRandom (λ _, 0%nat) 0) r') as [Hp _];
    [lia|lia|exact Hg|exact Hrun|].
  simpl in Hp. lia.
Defined.
